(** * frostutil: colour conversion and image copying

    A shallow embedding of the colour functions of [color.go]
    ([ToNRGBA], [UnmultiplyAlpha], [UnmultiplyAlphaBytes],
    [MultiplyAlphaBytes], [MultiplyAlphaBytesPreserveColors]) and of the
    image functions of [image.go] ([CopyImage], [CopyImageLines],
    [SlowImageCopy]), with the properties the specification states about
    them; then the rest of [color.go] ([ToNRGBA_Color], [ToNRGBA_U32]),
    the conversions of [image.go] ([NewImageFromEImage],
    [NewEImageFromImage]) and the helpers of [util.go] ([Abs], [Map],
    [Compose], [Partial2to1], [SearchStringsUnsorted], [CenterString],
    [EscapeStr], [UnescapeStr], [Join], [Split]).

    Conventions. A Go [byte], [uint16], [uint32] or [int] is a [Z]; every
    conversion and every wrapping operation of the source is written out
    ([byte_of], [u32], [mul32], [shl32]); an [int] holds a product of two
    bytes or an index into a buffer and stays far from its 64-bit range.
    A Go function that can panic or loop returns a [result]. *)

From stdpp Require Import base tactics option list numbers strings.
From Stdlib Require Import ZArith Lia.

Local Open Scope Z_scope.

(** ** Outcomes of Go code *)

(** [Ret a]: the call returns [a].  [Panic]: a run-time panic (nil
    dereference, division by zero, slice bounds out of range).
    [OutOfFuel]: the loop was cut off by the model's fuel. *)
Inductive result (A : Type) : Type :=
| Ret (a : A)
| Panic
| OutOfFuel.
Arguments Ret {A} a.
Arguments Panic {A}.
Arguments OutOfFuel {A}.

#[global] Instance result_ret : MRet result := fun _ a => Ret a.
#[global] Instance result_bind : MBind result := fun _ _ f m =>
  match m with
  | Ret a => f a
  | Panic => Panic
  | OutOfFuel => OutOfFuel
  end.

(** ** Machine integers *)

(** [byte(x)]: conversion to 8 bits keeps the low byte. *)
Definition byte_of (x : Z) : Z := x mod 256.

(** [uint32(x)] and the wrapping 32-bit operations. *)
Definition u32 (x : Z) : Z := x mod 2 ^ 32.
Definition mul32 (x y : Z) : Z := u32 (x * y).
Definition shl32 (x n : Z) : Z := u32 (Z.shiftl x n).

(** Unsigned division; Go panics on a zero divisor. *)
Definition div32 (x y : Z) : result Z :=
  if y =? 0 then Panic else Ret (x / y).

Definition is_byte (x : Z) : Prop := 0 <= x < 256.
Definition is_u16 (x : Z) : Prop := 0 <= x < 65536.

(** The four values [(r, g, b, a)] the colour functions return. *)
Definition pixel : Type := Z * Z * Z * Z.

Definition red_of (p : pixel) : Z := let '(r, _, _, _) := p in r.
Definition green_of (p : pixel) : Z := let '(_, g, _, _) := p in g.
Definition blue_of (p : pixel) : Z := let '(_, _, b, _) := p in b.
Definition alpha_of (p : pixel) : Z := let '(_, _, _, a) := p in a.

(** Feeding the four results of one function to the next. *)
Definition on_pixel {A} (f : Z -> Z -> Z -> Z -> A) (p : pixel) : A :=
  let '(r, g, b, a) := p in f r g b a.

(** util.go: [Min]. *)
Definition Min (x y : Z) : Z := if x <? y then x else y.

(** ** Bounded exhaustive checking over bytes *)

Fixpoint all_below (n : nat) (P : Z -> bool) : bool :=
  match n with
  | O => true
  | S k => P (Z.of_nat k) && all_below k P
  end.

Definition all_bytes (P : Z -> bool) : bool := all_below 256 P.

(** ** The colour values of Go's [image/color] *)

Module Color.

(** The concrete struct types of [image/color], with their fields. *)
Inductive ColorVal : Type :=
| NRGBA (R G B A : Z)
| NRGBA64 (R G B A : Z)
| Gray (Y : Z)
| Gray16 (Y : Z)
| Alpha (A : Z)
| Alpha16 (A : Z)
| RGBA (R G B A : Z)
| RGBA64 (R G B A : Z).

Inductive ColorKind : Type :=
| KNRGBA | KNRGBA64 | KGray | KGray16 | KAlpha | KAlpha16 | KRGBA | KRGBA64.

(** A [color.Color] interface value: a struct value, a pointer to one, a
    nil pointer of one of the pointer types, or any other implementation,
    given by what its [RGBA()] method returns. *)
Inductive Color : Type :=
| Val (v : ColorVal)
| Ptr (v : ColorVal)
| NilPtr (k : ColorKind)
| Custom (r g b a : Z).

(** The fields are [uint8] in the 8-bit types and [uint16] in the 16-bit
    ones; [RGBA()] returns [uint32]s. *)
Definition wf_val (v : ColorVal) : Prop :=
  match v with
  | NRGBA r g b a | RGBA r g b a =>
      is_byte r /\ is_byte g /\ is_byte b /\ is_byte a
  | NRGBA64 r g b a | RGBA64 r g b a =>
      is_u16 r /\ is_u16 g /\ is_u16 b /\ is_u16 a
  | Gray y | Alpha y => is_byte y
  | Gray16 y | Alpha16 y => is_u16 y
  end.

(** [x | (x << 8)] on a [uint32]: an 8-bit channel widened to 16 bits. *)
Definition dbl (c : Z) : Z := Z.lor (u32 c) (shl32 (u32 c) 8).

(** Modelled from the spec: the [RGBA()] method of [color.NRGBA], of Go's
    [image/color] and not of this repository: widen by OR-doubling,
    multiply by alpha, divide by 255.  The source describes it the same
    way: "NRGBA.RGBA() returns rOut = rr * a / 0xff, same for green and
    blue, and returns aOut = aa, where xx means (x | (x << 8))". *)
Definition NRGBA_RGBA (R G B A : Z) : pixel :=
  (mul32 (dbl R) (u32 A) / 255,
   mul32 (dbl G) (u32 A) / 255,
   mul32 (dbl B) (u32 A) / 255,
   dbl A).

(** Modelled from the spec: the [RGBA()] methods of the other types of
    [image/color], the "generic 16-bit channel query" of a colour. *)
Definition val_RGBA (v : ColorVal) : pixel :=
  match v with
  | NRGBA r g b a => NRGBA_RGBA r g b a
  | NRGBA64 r g b a =>
      (mul32 (u32 r) (u32 a) / 65535,
       mul32 (u32 g) (u32 a) / 65535,
       mul32 (u32 b) (u32 a) / 65535,
       u32 a)
  | Gray y => (dbl y, dbl y, dbl y, 65535)
  | Gray16 y => (u32 y, u32 y, u32 y, 65535)
  | Alpha a => (dbl a, dbl a, dbl a, dbl a)
  | Alpha16 a => (u32 a, u32 a, u32 a, u32 a)
  | RGBA r g b a => (dbl r, dbl g, dbl b, dbl a)
  | RGBA64 r g b a => (u32 r, u32 g, u32 b, u32 a)
  end.

(** [c.RGBA()] through the interface; the methods have value receivers, so
    a call through a nil pointer panics. *)
Definition Color_RGBA (c : Color) : result pixel :=
  match c with
  | Val v | Ptr v => Ret (val_RGBA v)
  | NilPtr _ => Panic
  | Custom r g b a => Ret (r, g, b, a)
  end.

(** *** color.go *)

(** [UnmultiplyAlpha]: the divisor is [uint32(a)] with [a = byte(alpha >> 8)]. *)
Definition UnmultiplyAlpha (c : Color) : result pixel :=
  '(red, green, blue, alpha) ← Color_RGBA c;
  let a := byte_of (Z.shiftr alpha 8) in
  if negb (alpha =? 0) && negb (alpha =? 65535) then
    qr ← div32 (mul32 red 255) (u32 a);
    qg ← div32 (mul32 green 255) (u32 a);
    qb ← div32 (mul32 blue 255) (u32 a);
    Ret (byte_of (Z.shiftr qr 8),
         byte_of (Z.shiftr qg 8),
         byte_of (Z.shiftr qb 8),
         a)
  else
    Ret (byte_of (Z.shiftr red 8),
         byte_of (Z.shiftr green 8),
         byte_of (Z.shiftr blue 8),
         a).

(** [ToNRGBA]: the type switch, case by case; a field read through a nil
    pointer panics. *)
Definition ToNRGBA (c : Color) : result pixel :=
  match c with
  | Val (NRGBA r g b a) | Ptr (NRGBA r g b a) => Ret (r, g, b, a)
  | Val (NRGBA64 r g b a) | Ptr (NRGBA64 r g b a) =>
      Ret (byte_of (Z.shiftr r 8), byte_of (Z.shiftr g 8),
           byte_of (Z.shiftr b 8), byte_of (Z.shiftr a 8))
  | Val (Gray y) | Ptr (Gray y) => Ret (y, y, y, 255)
  | Val (Gray16 y) | Ptr (Gray16 y) =>
      Ret (byte_of (Z.shiftr y 8), byte_of (Z.shiftr y 8),
           byte_of (Z.shiftr y 8), 255)
  | Val (Alpha a) | Ptr (Alpha a) => Ret (255, 255, 255, a)
  | Val (Alpha16 a) | Ptr (Alpha16 a) =>
      Ret (255, 255, 255, byte_of (Z.shiftr a 8))
  | NilPtr KNRGBA | NilPtr KNRGBA64 | NilPtr KGray | NilPtr KGray16
  | NilPtr KAlpha | NilPtr KAlpha16 => Panic
  | _ => UnmultiplyAlpha c
  end.

(** [UnmultiplyAlphaBytes]: [int] arithmetic, truncating division; the
    guard keeps the divisor away from zero. *)
Definition UnmultiplyAlphaBytes (red green blue alpha : Z) : pixel :=
  if negb (alpha =? 0) && negb (alpha =? 255) then
    (byte_of (Z.quot (red * 255) alpha),
     byte_of (Z.quot (green * 255) alpha),
     byte_of (Z.quot (blue * 255) alpha),
     alpha)
  else (red, green, blue, alpha).

(** [MultiplyAlphaBytes]: through [color.NRGBA{...}.RGBA()]. *)
Definition MultiplyAlphaBytes (red green blue alpha : Z) : pixel :=
  let '(ir, ig, ib, ia) := NRGBA_RGBA red green blue alpha in
  (byte_of (Z.shiftr ir 8),
   byte_of (Z.shiftr ig 8),
   byte_of (Z.shiftr ib 8),
   byte_of (Z.shiftr ia 8)).

(** One colour channel of [MultiplyAlphaBytesPreserveColors] when the
    alpha is neither 0 nor 0xff. *)
Definition scale_channel (c alpha : Z) : Z :=
  byte_of (Z.shiftr (mul32 (Z.lor (u32 c) (shl32 (u32 c) 8)) (u32 alpha) / 255) 8).

Definition MultiplyAlphaBytesPreserveColors (red green blue alpha : Z) : pixel :=
  if negb (alpha =? 0) && negb (alpha =? 255) then
    (scale_channel red alpha,
     scale_channel green alpha,
     scale_channel blue alpha,
     byte_of (Z.shiftr (Z.lor (u32 alpha) (shl32 (u32 alpha) 8)) 8))
  else (red, green, blue, alpha).

(** *** Statements about the codec *)

(** The channel formula in the words of the specification:
    [floor(((c | (c<<8)) * a / 255) >> 8)]. *)
Definition scale_spec (c a : Z) : Z :=
  Z.shiftr (Z.lor c (Z.shiftl c 8) * a / 255) 8.

(** The premultiplication invariant of a pixel: no colour channel above
    the alpha channel. *)
Definition premultiplied (p : pixel) : Prop :=
  red_of p <= alpha_of p /\ green_of p <= alpha_of p /\ blue_of p <= alpha_of p.

(** The test, run on every pair of bytes, that a channel [c <= a] taken
    through [c * 255 / a] and back through [257 * c' * a / 255 / 256]
    moves by at most 1. *)
Definition roundtrip_check (c a : Z) : bool :=
  negb ((0 <? a) && (a <? 255) && (c <=? a))
  || (Z.abs (257 * byte_of (Z.quot (c * 255) a) * a / 255 / 256 - c) <=? 1).

End Color.

(** ** Images *)

Module Image.
Import Color.

(** *** Go slices of bytes

    A buffer is a list of bytes whose capacity is its length, as for a
    buffer allocated by [make([]byte, n)]. *)

Definition len (s : list Z) : Z := Z.of_nat (length s).

(** [make([]byte, n)] panics for a negative length. *)
Definition make_bytes (n : Z) : result (list Z) :=
  if n <? 0 then Panic else Ret (replicate (Z.to_nat n) 0).

(** The bounds check of the slice expression [s[lo:hi]]. *)
Definition slice_ok (s : list Z) (lo hi : Z) : bool :=
  (0 <=? lo) && (lo <=? hi) && (hi <=? len s).

(** The elements of [s[lo:hi]]. *)
Definition slice (s : list Z) (lo hi : Z) : result (list Z) :=
  if slice_ok s lo hi
  then Ret (take (Z.to_nat (hi - lo)) (drop (Z.to_nat lo) s))
  else Panic.

(** [copy(dst, src)]: the first [min(len(dst), len(src))] bytes of [dst]
    are replaced by those of [src]. *)
Definition go_copy (dst src : list Z) : list Z :=
  let n := Nat.min (length dst) (length src) in
  take n src ++ drop n dst.

(** [copy(s[lo:hi], src)], seen from the buffer [s] the window lies in. *)
Definition copy_into (s : list Z) (lo hi : Z) (src : list Z) : result (list Z) :=
  window ← slice s lo hi;
  Ret (take (Z.to_nat lo) s ++ go_copy window src ++ drop (Z.to_nat hi) s).

(** *** image.go: CopyImageLines *)

(** The loop [for iIdx := 0; iIdx < len(iPix); iIdx += iStride], with
    [oIdx] advancing by [oStride]. *)
Fixpoint copy_rows (fuel : nat) (oPix : list Z) (oStride : Z)
    (iPix : list Z) (iStride lowerStride iIdx oIdx : Z) : result (list Z) :=
  if iIdx <? len iPix then
    match fuel with
    | O => OutOfFuel
    | S fuel' =>
        _ ← slice oPix oIdx (oIdx + lowerStride);
        src ← slice iPix iIdx (iIdx + lowerStride);
        oPix' ← copy_into oPix oIdx (oIdx + lowerStride) src;
        copy_rows fuel' oPix' oStride iPix iStride lowerStride
          (iIdx + iStride) (oIdx + oStride)
    end
  else Ret oPix.

(** The fuel covers every run that ends: with [iStride >= 1] the loop
    makes at most [len(iPix)] rounds, and with [iStride <= 0] it panics
    within [len(oPix) + 1] rounds unless both strides are 0, where the Go
    loop does not end. *)
Definition CopyImageLines (oPix : list Z) (oStride : Z)
    (iPix : list Z) (iStride : Z) : result (list Z) :=
  let lowerStride := Min oStride iStride in
  copy_rows (S (length iPix + length oPix)) oPix oStride iPix iStride
    lowerStride 0 0.

(** The destination after one round of the loop of [CopyImageLines]: the
    window at [oIdx] holds the source bytes from [iIdx] on. *)
Definition row_written (oPix : list Z) (oIdx : Z) (iPix : list Z)
    (iIdx lowerStride : Z) : list Z :=
  take (Z.to_nat oIdx) oPix
  ++ take (Z.to_nat lowerStride) (drop (Z.to_nat iIdx) iPix)
  ++ drop (Z.to_nat (oIdx + lowerStride)) oPix.

(** *** Geometry of Go's [image] package *)

Record Point : Type := mkPoint { X : Z; Y : Z }.
Record Rectangle : Type := mkRectangle { Min_ : Point; Max_ : Point }.

Definition Dx (r : Rectangle) : Z := X (Max_ r) - X (Min_ r).
Definition Dy (r : Rectangle) : Z := Y (Max_ r) - Y (Min_ r).

(** [image.Rect(x0, y0, x1, y1)] orders the corners. *)
Definition Rect (x0 y0 x1 y1 : Z) : Rectangle :=
  let '(x0, x1) := if x0 >? x1 then (x1, x0) else (x0, x1) in
  let '(y0, y1) := if y0 >? y1 then (y1, y0) else (y0, y1) in
  mkRectangle (mkPoint x0 y0) (mkPoint x1 y1).

(** The struct shared by [image.RGBA] and [image.NRGBA]. *)
Record PixImage : Type := mkPixImage {
  Pix : list Z;
  Stride : Z;
  PRect : Rectangle
}.

Definition with_Pix (p : PixImage) (pix : list Z) : PixImage :=
  mkPixImage pix (Stride p) (PRect p).

(** [image.NewRGBA(r)] and [image.NewNRGBA(r)]: a zeroed buffer of
    [4 * w * h] bytes with stride [4 * w]; negative dimensions panic. *)
Definition NewPixImage (r : Rectangle) : result PixImage :=
  if (Dx r <? 0) || (Dy r <? 0) then Panic
  else Ret (mkPixImage (replicate (Z.to_nat (4 * Dx r * Dy r)) 0) (4 * Dx r) r).

(** An image of any other type: its bounds and its [At]. *)
Record OtherImage : Type := mkOtherImage {
  obounds : Rectangle;
  oat : Z -> Z -> Color
}.

(** What the source uses of the libraries it imports: ebiten's images, and
    the per-pixel [At] and [Set] of the three concrete kinds, on
    well-formed images. *)
Class ImageLib : Type := {
  EImage : Type;
  eBounds : EImage -> Rectangle;
  eNewImage : Rectangle -> bool -> result EImage;
  eReadPixels : EImage -> list Z -> result (list Z);
  eWritePixels : EImage -> list Z -> result EImage;
  eAt : EImage -> Z -> Z -> Color;
  eSet : EImage -> Z -> Z -> Color -> EImage;
  rgbaAt : PixImage -> Z -> Z -> Color;
  rgbaSet : PixImage -> Z -> Z -> Color -> PixImage;
  nrgbaAt : PixImage -> Z -> Z -> Color;
  nrgbaSet : PixImage -> Z -> Z -> Color -> PixImage
}.

Section WithLib.
Context `{L : ImageLib}.

(** An [image.Image] interface value: its dynamic type with the pointer
    it holds ([None] is a nil pointer of that type), or another type. *)
Inductive Image : Type :=
| EbitenImg (p : option EImage)
| RGBAImg (p : option PixImage)
| NRGBAImg (p : option PixImage)
| OtherImg (o : OtherImage).

(** [img.Bounds()] and [img.At(x, y)]: a nil receiver panics. *)
Definition Bounds (img : Image) : result Rectangle :=
  match img with
  | EbitenImg (Some e) => Ret (eBounds e)
  | RGBAImg (Some p) | NRGBAImg (Some p) => Ret (PRect p)
  | OtherImg o => Ret (obounds o)
  | EbitenImg None | RGBAImg None | NRGBAImg None => Panic
  end.

Definition At (img : Image) (x y : Z) : result Color :=
  match img with
  | EbitenImg (Some e) => Ret (eAt e x y)
  | RGBAImg (Some p) => Ret (rgbaAt p x y)
  | NRGBAImg (Some p) => Ret (nrgbaAt p x y)
  | OtherImg o => Ret (oat o x y)
  | EbitenImg None | RGBAImg None | NRGBAImg None => Panic
  end.

(** [for i := 0; i < n; i++ { body }]. *)
Fixpoint for_loop {St : Type} (count : nat) (i : Z)
    (body : Z -> St -> result St) (s : St) : result St :=
  match count with
  | O => Ret s
  | S k => s' ← body i s; for_loop k (i + 1) body s'
  end.

Definition for_range {St : Type} (n : Z) (body : Z -> St -> result St)
    (s : St) : result St :=
  for_loop (Z.to_nat n) 0 body s.

(** The double loop of [SlowImageCopy], for a destination of type [T]:
    [xOImg.Set(x, y, iImg.At(x+left, y+top))]. *)
Definition copy_pixels {T : Type} (set : T -> Z -> Z -> Color -> T)
    (iImg : Image) (left top width height : Z) (xOImg : T) : result T :=
  for_range height (fun y =>
    for_range width (fun x o =>
      c ← At iImg (x + left) (y + top);
      Ret (set o x y c))) xOImg.

(** A Go [error]: [None] is nil. *)
Definition error : Type := option string.

Definition unsupported : string :=
  "SlowImageCopy only knows how to write to images of type *ebiten.Image, *image.NRGBA, and *image.RGBA. We got a different type instead.".

(** *** image.go: SlowImageCopy *)
Definition SlowImageCopy (oImg iImg : Image) : result (Image * error) :=
  ib ← Bounds iImg;
  let left := X (Min_ ib) in
  let top := Y (Min_ ib) in
  ob ← Bounds oImg;
  let width := Dx ob in
  let height := Dy ob in
  match oImg with
  | RGBAImg (Some xOImg) =>
      o ← copy_pixels rgbaSet iImg left top width height xOImg;
      Ret (RGBAImg (Some o), None)
  | NRGBAImg (Some xOImg) =>
      o ← copy_pixels nrgbaSet iImg left top width height xOImg;
      Ret (NRGBAImg (Some o), None)
  | EbitenImg (Some xOImg) =>
      o ← copy_pixels eSet iImg left top width height xOImg;
      Ret (EbitenImg (Some o), None)
  | RGBAImg None | NRGBAImg None | EbitenImg None => Panic
  | OtherImg _ => Ret (oImg, Some unsupported)
  end.

(** The interface value holds a pointer that is not nil. *)
Definition non_nil (img : Image) : Prop :=
  match img with
  | EbitenImg None | RGBAImg None | NRGBAImg None => False
  | _ => True
  end.

(** The dynamic type is one of [*ebiten.Image], [*image.RGBA] and
    [*image.NRGBA], the three with a [Set] the source knows. *)
Definition known_kind (img : Image) : bool :=
  match img with
  | OtherImg _ => false
  | _ => true
  end.

(** *** image.go: CopyImage

    The copy of a buffer image of either kind: a whole-buffer [copy] when
    the strides agree, [CopyImageLines] otherwise. *)
Definition copy_buffer (iImg oImg : PixImage) : result PixImage :=
  if Stride iImg =? Stride oImg then
    Ret (with_Pix oImg (go_copy (Pix oImg) (Pix iImg)))
  else
    pix ← CopyImageLines (Pix oImg) (Stride oImg) (Pix iImg) (Stride iImg);
    Ret (with_Pix oImg pix).

(** In the last branch the source passes [iImg] to [SlowImageCopy]: the
    variable of the last type assertion, [img.( *image.NRGBA)], which
    failed and left it a nil [*image.NRGBA]. *)
Definition CopyImage (img : Image) (mipmaps : bool) : result Image :=
  b ← Bounds img;
  let left := X (Min_ b) in
  let top := Y (Min_ b) in
  let width := X (Max_ b) - left in
  let height := Y (Max_ b) - top in
  let rect := Rect 0 0 width height in
  match img with
  | EbitenImg (Some eImg) =>
      pixelBytes ← make_bytes (4 * width * height);
      pixelBytes ← eReadPixels eImg pixelBytes;
      cEImg ← eNewImage rect (negb mipmaps);
      cEImg ← eWritePixels cEImg pixelBytes;
      Ret (EbitenImg (Some cEImg))
  | RGBAImg (Some iImg) =>
      oImg ← NewPixImage rect;
      oImg ← copy_buffer iImg oImg;
      Ret (RGBAImg (Some oImg))
  | NRGBAImg (Some iImg) =>
      oImg ← NewPixImage rect;
      oImg ← copy_buffer iImg oImg;
      Ret (NRGBAImg (Some oImg))
  | EbitenImg None | RGBAImg None | NRGBAImg None => Panic
  | OtherImg _ =>
      let iImg := NRGBAImg None in
      oImg ← NewPixImage rect;
      '(oImg, _) ← SlowImageCopy (RGBAImg (Some oImg)) iImg;
      Ret oImg
  end.

End WithLib.

(** A small instance of the library, to run the functions: an ebiten
    image is a buffer image, a pixel is stored as the [RGBA] or [NRGBA]
    colour of its four bytes, and a colour is stored by its [RGBA()]
    channels' high bytes. *)
Definition pix_offset (p : PixImage) (x y : Z) : Z :=
  (y - Y (Min_ (PRect p))) * Stride p + (x - X (Min_ (PRect p))) * 4.

Definition in_rect (r : Rectangle) (x y : Z) : bool :=
  (X (Min_ r) <=? x) && (x <? X (Max_ r)) && (Y (Min_ r) <=? y) && (y <? Y (Max_ r)).

Definition byte_at (s : list Z) (i : Z) : Z := nth (Z.to_nat i) s 0.

Definition sample_At (mk : Z -> Z -> Z -> Z -> ColorVal) (p : PixImage) (x y : Z) : Color :=
  if in_rect (PRect p) x y then
    let i := pix_offset p x y in
    Val (mk (byte_at (Pix p) i) (byte_at (Pix p) (i + 1))
            (byte_at (Pix p) (i + 2)) (byte_at (Pix p) (i + 3)))
  else Val (mk 0 0 0 0).

Definition sample_Set (p : PixImage) (x y : Z) (c : Color) : PixImage :=
  if in_rect (PRect p) x y then
    match Color_RGBA c with
    | Ret (r, g, b, a) =>
        let i := Z.to_nat (pix_offset p x y) in
        with_Pix p
          (<[i := byte_of (Z.shiftr r 8)]>
            (<[(i + 1)%nat := byte_of (Z.shiftr g 8)]>
              (<[(i + 2)%nat := byte_of (Z.shiftr b 8)]>
                (<[(i + 3)%nat := byte_of (Z.shiftr a 8)]> (Pix p)))))
    | _ => p
    end
  else p.

Definition sample_lib : ImageLib := {|
  EImage := PixImage;
  eBounds := PRect;
  eNewImage := fun r _ => NewPixImage r;
  eReadPixels := fun e buf => Ret (go_copy buf (Pix e));
  eWritePixels := fun e buf => Ret (with_Pix e (go_copy (Pix e) buf));
  eAt := sample_At RGBA;
  eSet := sample_Set;
  rgbaAt := sample_At RGBA;
  rgbaSet := sample_Set;
  nrgbaAt := sample_At NRGBA;
  nrgbaSet := sample_Set
|}.

(** A 2 x 1 image of a type of its own, and a 2 x 1 [*image.RGBA]. *)
Definition two_pixels : OtherImage :=
  mkOtherImage (Rect 0 0 2 1) (fun x y => Val (RGBA x y 7 255)).

Definition blank_rgba : PixImage :=
  mkPixImage (replicate 8 0) 8 (Rect 0 0 2 1).

End Image.

(** ** More of color.go *)

Module ColorMore.
Import Color.

(** A colour whose fields fit their Go types; another implementation
    returns four [uint32]s from [RGBA()]. *)
Definition wf_color (c : Color) : Prop :=
  match c with
  | Val v | Ptr v => wf_val v
  | NilPtr _ => True
  | Custom r g b a =>
      (0 <= r < 2 ^ 32) /\ (0 <= g < 2 ^ 32) /\ (0 <= b < 2 ^ 32)
      /\ (0 <= a < 2 ^ 32)
  end.

Definition is_pixel (p : pixel) : Prop :=
  is_byte (red_of p) /\ is_byte (green_of p) /\ is_byte (blue_of p)
  /\ is_byte (alpha_of p).

(** [ToNRGBA_Color]: the result of [ToNRGBA] as a [color.NRGBA]. *)
Definition ToNRGBA_Color (c : Color) : result Color :=
  '(cr, cg, cb, ca) ← ToNRGBA c;
  Ret (Val (NRGBA (byte_of cr) (byte_of cg) (byte_of cb) (byte_of ca))).

(** [ToNRGBA_U32]: red in the highest byte, alpha in the lowest. *)
Definition ToNRGBA_U32 (c : Color) : result Z :=
  '(cr, cg, cb, ca) ← ToNRGBA c;
  Ret (Z.lor (Z.lor (Z.lor (shl32 (u32 cr) 24) (shl32 (u32 cg) 16))
                    (shl32 (u32 cb) 8))
             (u32 ca)).

(** One colour channel of [UnmultiplyAlphaBytes]. *)
Definition unmultiply_channel (c alpha : Z) : Z :=
  if negb (alpha =? 0) && negb (alpha =? 255)
  then byte_of (Z.quot (c * 255) alpha) else c.

(** One colour channel of [UnmultiplyAlpha] on a [color.RGBA] with the
    8-bit fields [c] and [alpha], in plain arithmetic. *)
Definition generic_channel (c alpha : Z) : Z :=
  if negb (alpha =? 0) && negb (alpha =? 255)
  then byte_of (257 * c * 255 / alpha / 256) else c.

(** One colour channel of [MultiplyAlphaBytes], in plain arithmetic. *)
Definition multiply_channel (c alpha : Z) : Z := 257 * c * alpha / 255 / 256.

(** The tests run on every pair of bytes: on a premultiplied channel the
    generic unmultiplication is the byte one or one more, and multiplying
    it back moves the channel by at most 1; a straight channel multiplied
    and unmultiplied never grows and loses at most [(254 + a) / a]. *)
Definition generic_check (c a : Z) : bool :=
  negb (c <=? a)
  || (let ub := unmultiply_channel c a in
      let ug := generic_channel c a in
      ((ug =? ub) || (ug =? ub + 1))
      && (Z.abs (multiply_channel ug a - c) <=? 1)).

Definition straight_check (c a : Z) : bool :=
  (a =? 0)
  || (let back := unmultiply_channel (multiply_channel c a) a in
      (back <=? c) && (c - back <=? (254 + a) / a)).

End ColorMore.

(** ** More of image.go *)

Module ImageMore.
Import Color Image.

(** A buffer image whose rows are [Stride] bytes apart and hold at least
    the [4 * width] bytes of their pixels: [len(Pix) = height * Stride]. *)
Definition buffer_image (p : PixImage) : Prop :=
  0 <= Dx (PRect p) /\ 0 <= Dy (PRect p)
  /\ 4 * Dx (PRect p) <= Stride p
  /\ len (Pix p) = Dy (PRect p) * Stride p.

Section WithLib.
Context `{L : ImageLib}.

(** [*eImg] for an [*ebiten.Image]. *)
Definition deref_ebiten (eImg : option EImage) : result EImage :=
  match eImg with
  | Some e => Ret e
  | None => Panic
  end.

(** *** image.go: NewImageFromEImage *)
Definition NewImageFromEImage (eImg : option EImage) : result PixImage :=
  b ← Bounds (EbitenImg eImg);
  let left := X (Min_ b) in
  let top := Y (Min_ b) in
  let width := X (Max_ b) - left in
  let height := Y (Max_ b) - top in
  img ← NewPixImage (Rect 0 0 width height);
  pixelBytes ← make_bytes (4 * width * height);
  e ← deref_ebiten eImg;
  pixelBytes ← eReadPixels e pixelBytes;
  pix ← CopyImageLines (Pix img) (Stride img) pixelBytes (Z.shiftl width 2);
  Ret (with_Pix img pix).

End WithLib.
(** A 2 x 2 [*image.RGBA] whose rows are 12 bytes apart, and a 2 x 1
    one without padding. *)
Definition padded_rgba : PixImage :=
  mkPixImage [1; 2; 3; 4; 5; 6; 7; 8; 0; 0; 0; 0;
              11; 12; 13; 14; 15; 16; 17; 18; 0; 0; 0; 0] 12 (Rect 0 0 2 2).

Definition tight_rgba : PixImage :=
  mkPixImage [1; 2; 3; 4; 5; 6; 7; 8] 8 (Rect 0 0 2 1).

End ImageMore.

(** ** util.go *)

Module Util.

(** *** Numbers *)

(** [Max], on integers. *)
Definition Max (x y : Z) : Z := if x >? y then x else y.

(** A signed integer type of [bits] bits, and the wrap-around of its
    arithmetic. *)
Definition in_int (bits x : Z) : Prop :=
  - 2 ^ (bits - 1) <= x < 2 ^ (bits - 1).

Definition wrap_int (bits x : Z) : Z :=
  (x + 2 ^ (bits - 1)) mod 2 ^ bits - 2 ^ (bits - 1).

(** [Abs], at a signed integer type of [bits] bits: [-x] wraps. *)
Definition Abs (bits x : Z) : Z :=
  if x <? 0 then wrap_int bits (- x) else x.

(** [Xor]. *)
Definition Xor (a b : bool) : bool :=
  if a && b then false else if a || b then true else false.

(** *** Functions *)

Definition Compose {T : Type} (f g : T -> T) : T -> T := fun t => f (g t).

Definition Partial2to1 {T U R : Type} (f : T -> R -> U) (r : R) : T -> U :=
  fun t => f t r.

(** [Map], with [U] for the type [S] of the source:
    [ys = make([]S, len(xs))], filled with the zero value of [S],
    then [ys[i] = f(x)] for each index. *)
Fixpoint map_loop {T U : Type} (f : T -> U) (xs : list T) (i : nat)
    (ys : list U) : list U :=
  match xs with
  | [] => ys
  | x :: rest => map_loop f rest (S i) (<[i := f x]> ys)
  end.

Definition Map {T U : Type} (zero : U) (f : T -> U) (xs : list T) : list U :=
  map_loop f xs 0 (replicate (length xs) zero).

(** *** Strings

    A Go string is taken as valid UTF-8 and modelled by the list of its
    runes; [blen] is its length in bytes, which is what [len] returns.
    On such a string [[]rune(x)] is the list and [string(rx[i:j])] the
    part of it; a string with bytes that are no UTF-8 is outside the
    model (Go reads each such byte as U+FFFD). *)

Definition rune_len (r : Z) : Z :=
  if r <? 128 then 1 else if r <? 2048 then 2 else if r <? 65536 then 3 else 4.

Definition blen (s : list Z) : Z := foldr (fun r n => rune_len r + n) 0 s.

(** [SearchStringsUnsorted]: the loop over [ax], from index [i]. *)
Fixpoint search_from (ax : list (list Z)) (x : list Z) (i defaultValue : Z)
    : Z :=
  match ax with
  | [] => defaultValue
  | a :: rest =>
      if decide (a = x) then i else search_from rest x (i + 1) defaultValue
  end.

Definition SearchStringsUnsorted (ax : list (list Z)) (x : list Z)
    (defaultValue : Z) : Z :=
  search_from ax x 0 defaultValue.

(** [for i := 0; i < padAmt; i++ { sb.WriteRune(' ') }]. *)
Fixpoint write_spaces (count : nat) (sb : list Z) : list Z :=
  match count with
  | O => sb
  | S k => write_spaces k (sb ++ [32])
  end.

(** [CenterString], on the bytes of the string: [len(str)], [desiredLen]
    and [diff] are [int]s of [bits] bits, so the subtraction wraps;
    [sb.Grow(n)] panics for a negative [n], and the builder's
    allocations are taken to succeed. *)
Definition CenterString (bits : Z) (str : list Z) (desiredLen : Z)
    : result (list Z) :=
  let diff := wrap_int bits (desiredLen - Image.len str) in
  if diff >? 0 then
    if desiredLen <? 0 then Panic
    else
      let padAmt := Z.shiftr diff 1 in
      let sb := write_spaces (Z.to_nat padAmt) [] in
      let sb := sb ++ str in
      let sb := write_spaces (Z.to_nat padAmt) sb in
      Ret (if Z.land diff 1 =? 1 then sb ++ [32] else sb)
  else Ret str.

End Util.

(** ** util.go: escaping, joining and splitting *)

Module UtilStrings.
Import Image Util.

(** The strings of this module are valid UTF-8, given by their runes (see
    [Util]); the statements about single functions say so. *)

(** The runes the functions look for: ['\n'], ['\\'] and ['n']. *)
Definition newline : Z := 10.
Definition backslash : Z := 92.
Definition letter_n : Z := 110.

(** [sb.WriteRune(r)]: a value that is no Unicode scalar value is written
    as U+FFFD. *)
Definition valid_rune (r : Z) : bool :=
  ((0 <=? r) && (r <? 55296)) || ((57344 <=? r) && (r <=? 1114111)).

Definition write_rune (r : Z) : Z := if valid_rune r then r else 65533.

(** [if hi > start { sb.WriteString(string(rx[start:hi])) }]. *)
Definition flush (rx sb : list Z) (start hi : Z) : result (list Z) :=
  if hi >? start then chunk ← slice rx start hi; Ret (sb ++ chunk)
  else Ret sb.

(** [if start < len(x) { sb.WriteString(string(rx[start:])) }], with
    [len(x)] the length of the string in bytes. *)
Definition flush_tail (x sb : list Z) (start : Z) : result (list Z) :=
  if start <? blen x then chunk ← slice x start (len x); Ret (sb ++ chunk)
  else Ret sb.

(** The runes of [rx[lo:hi]]. *)
Definition sub (rx : list Z) (lo hi : Z) : list Z :=
  take (Z.to_nat (hi - lo)) (drop (Z.to_nat lo) rx).

(** *** EscapeStr *)

(** The loop [for ir, r := range rx] of EscapeStr, and of Join, where the
    rune written after the backslash is [r], equal to [sep]. *)
Fixpoint escape_loop (rx : list Z) (sep : Z) (rest : list Z) (ir : Z)
    (sb : list Z) (start : Z) : result (list Z * Z) :=
  match rest with
  | [] => Ret (sb, start)
  | r :: rest' =>
      if r =? newline then
        sb ← flush rx sb start ir;
        escape_loop rx sep rest' (ir + 1) (sb ++ [backslash; letter_n]) (ir + 1)
      else if r =? sep then
        sb ← flush rx sb start ir;
        escape_loop rx sep rest' (ir + 1) (sb ++ [backslash; write_rune sep])
          (ir + 1)
      else escape_loop rx sep rest' (ir + 1) sb start
  end.

Definition EscapeStr (x : list Z) (sep : Z) : result (list Z) :=
  '(sb, start) ← escape_loop x sep x 0 [] 0;
  flush_tail x sb start.

(** *** UnescapeStr *)

Fixpoint unescape_loop (rx : list Z) (sep : Z) (rest : list Z) (ir : Z)
    (sb : list Z) (start : Z) (bs : bool) : result (list Z * Z) :=
  match rest with
  | [] => Ret (sb, start)
  | r :: rest' =>
      if r =? backslash then
        unescape_loop rx sep rest' (ir + 1) sb start true
      else if (r =? letter_n) && bs then
        sb ← flush rx sb start (ir - 1);
        unescape_loop rx sep rest' (ir + 1) (sb ++ [newline]) (ir + 1) false
      else if (r =? sep) && bs then
        sb ← flush rx sb start (ir - 1);
        unescape_loop rx sep rest' (ir + 1) sb ir false
      else if bs then
        unescape_loop rx sep rest' (ir + 1) sb start false
      else unescape_loop rx sep rest' (ir + 1) sb start bs
  end.

Definition UnescapeStr (x : list Z) (sep : Z) : result (list Z) :=
  '(sb, start) ← unescape_loop x sep x 0 [] 0 false;
  flush_tail x sb start.

(** *** Join *)

(** The loop [for ix, x := range xs]: the separator before every string
    but the first, then the loop and the tail of EscapeStr on the string
    (Join writes [r] after the backslash where EscapeStr writes [sep], in
    the branch where [r == sep]). *)
Fixpoint join_loop (xs : list (list Z)) (sep ix : Z) (sb : list Z)
    : result (list Z) :=
  match xs with
  | [] => Ret sb
  | x :: rest =>
      let sb := if ix >? 0 then sb ++ [write_rune sep] else sb in
      '(sb, start) ← escape_loop x sep x 0 sb 0;
      sb ← flush_tail x sb start;
      join_loop rest sep (ix + 1) sb
  end.

Definition Join (xs : list (list Z)) (sep : Z) : result (list Z) :=
  join_loop xs sep 0 [].

(** *** Split *)

(** [strings.Count(s, string(sep))]: the occurrences of the separator as
    it is encoded, U+FFFD for an invalid one. *)
Fixpoint count_rune (r : Z) (s : list Z) : Z :=
  match s with
  | [] => 0
  | r' :: rest => (if r' =? r then 1 else 0) + count_rune r rest
  end.

(** [out[amt] = v], and [out[:amt]]. *)
Definition store_string (out : list (list Z)) (amt : Z) (v : list Z)
    : result (list (list Z)) :=
  if (0 <=? amt) && (amt <? Z.of_nat (length out))
  then Ret (<[Z.to_nat amt := v]> out) else Panic.

Definition first_strings (out : list (list Z)) (amt : Z)
    : result (list (list Z)) :=
  if (0 <=? amt) && (amt <=? Z.of_nat (length out))
  then Ret (take (Z.to_nat amt) out) else Panic.

(** The field that ends at [hi]: the builder with [rs[start:hi]], or
    [rs[start:hi]] alone when the builder is empty. *)
Definition field_upto (rs cur : list Z) (start hi : Z) : result (list Z) :=
  if blen cur >? 0 then chunk ← slice rs start hi; Ret (cur ++ chunk)
  else slice rs start hi.

(** The state of the loop of Split. *)
Record split_state : Type := mkSplitState {
  st_out : list (list Z);
  st_amt : Z;
  st_start : Z;
  st_bs : bool;
  st_cur : list Z;
  st_lastWasSep : bool
}.

(** The loop [for i, r := range rs]. *)
Fixpoint split_loop (rs : list Z) (sep : Z) (rest : list Z) (i : Z)
    (st : split_state) : result split_state :=
  match rest with
  | [] => Ret st
  | r :: rest' =>
      let '(mkSplitState out amt start bs cur _) := st in
      if (r =? letter_n) && bs then
        chunk ← slice rs start (i - 1);
        split_loop rs sep rest' (i + 1)
          (mkSplitState out amt (i + 1) false ((cur ++ chunk) ++ [newline]) false)
      else if r =? sep then
        if bs then
          chunk ← slice rs start (i - 1);
          split_loop rs sep rest' (i + 1)
            (mkSplitState out amt i false (cur ++ chunk) false)
        else
          field ← field_upto rs cur start i;
          out ← store_string out amt field;
          split_loop rs sep rest' (i + 1)
            (mkSplitState out (amt + 1) (i + 1) bs
               (if blen cur >? 0 then [] else cur) true)
      else if r =? backslash then
        split_loop rs sep rest' (i + 1)
          (mkSplitState out amt start true cur false)
      else
        split_loop rs sep rest' (i + 1)
          (mkSplitState out amt start false cur false)
  end.

(** What follows the loop. *)
Definition split_finish (s : list Z) (st : split_state)
    : result (list (list Z)) :=
  let '(mkSplitState out amt start _ cur lastWasSep) := st in
  '(out, amt) ←
    (if start >=? blen s then
       '(out, amt) ←
         (if blen cur >? 0
          then out ← store_string out amt cur; Ret (out, amt + 1)
          else Ret (out, amt));
       if lastWasSep
       then out ← store_string out amt []; Ret (out, amt + 1)
       else Ret (out, amt)
     else
       field ← field_upto s cur start (len s);
       out ← store_string out amt field;
       Ret (out, amt + 1));
  first_strings out amt.

Definition Split (s : list Z) (sep : Z) : result (list (list Z)) :=
  let out := replicate (Z.to_nat (count_rune (write_rune sep) s + 1)) [] in
  st ← split_loop s sep s 0 (mkSplitState out 0 0 false [] false);
  split_finish s st.

(** *** What the two loops compute, rune by rune *)

(** Escaping: a newline becomes backslash, [n]; the separator becomes
    backslash, separator; every other rune is kept. *)
Definition escape_rune (sep r : Z) : list Z :=
  if r =? newline then [backslash; letter_n]
  else if r =? sep then [backslash; write_rune sep]
  else [r].

Definition escaped (sep : Z) (x : list Z) : list Z :=
  flat_map (escape_rune sep) x.

(** Unescaping: backslash, [n] becomes a newline; backslash, separator
    becomes the separator; a backslash before anything else is kept. *)
Fixpoint unescaped (sep : Z) (x : list Z) : list Z :=
  match x with
  | [] => []
  | r :: rest =>
      if r =? backslash then
        match rest with
        | [] => [backslash]
        | r2 :: rest2 =>
            if r2 =? backslash then backslash :: unescaped sep rest
            else if r2 =? letter_n then newline :: unescaped sep rest2
            else if r2 =? sep then r2 :: unescaped sep rest2
            else backslash :: unescaped sep rest
        end
      else r :: unescaped sep rest
  end.

(** No backslash directly before an [n]. *)
Fixpoint no_backslash_n (x : list Z) : Prop :=
  match x with
  | [] => True
  | r :: rest =>
      match rest with
      | r2 :: _ => ~ (r = backslash /\ r2 = letter_n)
      | [] => True
      end /\ no_backslash_n rest
  end.

(** The strings EscapeStr can be undone on, for a separator: the
    separator is not [n]; no backslash stands before an [n]; and a
    backslash separator needs a string without backslashes. *)
Definition escapable (sep : Z) (x : list Z) : Prop :=
  Forall (fun r => valid_rune r = true) x
  /\ sep <> letter_n
  /\ no_backslash_n x
  /\ (sep = backslash -> backslash ∉ x).

(** Splitting: the field that begins the string, and the fields after
    it.  A separator ends the field; backslash, [n] is a newline;
    backslash, separator is the separator; a backslash before anything
    else is kept. *)
Definition push (r : Z) (f : list Z * list (list Z)) : list Z * list (list Z) :=
  (r :: fst f, snd f).

Fixpoint fields (sep : Z) (s : list Z) : list Z * list (list Z) :=
  match s with
  | [] => ([], [])
  | r :: rest =>
      if r =? sep then ([], fst (fields sep rest) :: snd (fields sep rest))
      else if r =? backslash then
        match rest with
        | [] => ([backslash], [])
        | r2 :: rest2 =>
            if r2 =? letter_n then push newline (fields sep rest2)
            else if r2 =? sep then push r2 (fields sep rest2)
            else push backslash (fields sep rest)
        end
      else push r (fields sep rest)
  end.

Definition split_fields (sep : Z) (s : list Z) : list (list Z) :=
  match s with
  | [] => []
  | _ => fst (fields sep s) :: snd (fields sep s)
  end.

(** The escaped strings with the separator between them. *)
Definition joined (sep : Z) (xs : list (list Z)) : list Z :=
  match xs with
  | [] => []
  | x :: rest =>
      escaped sep x ++ flat_map (fun y => write_rune sep :: escaped sep y) rest
  end.

(** The strings Split gives back after Join: valid, without a backslash
    directly before an [n], and not ending in a backslash; the separator
    is a valid rune other than [n] and the backslash; and the slice is
    not the one empty string. *)
Definition splittable (x : list Z) : Prop :=
  Forall (fun r => valid_rune r = true) x
  /\ no_backslash_n x
  /\ last x <> Some backslash.

Definition joinable (sep : Z) (xs : list (list Z)) : Prop :=
  valid_rune sep = true
  /\ sep <> letter_n /\ sep <> backslash
  /\ Forall splittable xs
  /\ xs <> [[]].

End UtilStrings.

(** ** image.go: NewEImageFromImage *)

Module EbitenCopy.
Import Color Image.

(** [s[i]] and [s[i] = v] on a slice: an index out of range panics. *)
Definition index (s : list Z) (i : Z) : result Z :=
  if (0 <=? i) && (i <? len s) then Ret (nth (Z.to_nat i) s 0) else Panic.

Definition store (s : list Z) (i v : Z) : result (list Z) :=
  if (0 <=? i) && (i <? len s) then Ret (<[Z.to_nat i := v]> s) else Panic.

(** The body of the inner loop of the [*image.NRGBA] branch: the pixel at
    [idx] of [iImg.Pix] goes through [col.RGBA()] and its high bytes are
    stored at [idx] of [pixelBytes]; then [idx += 4]. *)
Definition convert_pixel (iPix : list Z) (st : list Z * Z)
    : result (list Z * Z) :=
  let '(pixelBytes, idx) := st in
  cR ← index iPix idx;
  cG ← index iPix (idx + 1);
  cB ← index iPix (idx + 2);
  cA ← index iPix (idx + 3);
  let '(r, g, b, a) := NRGBA_RGBA cR cG cB cA in
  pixelBytes ← store pixelBytes idx (byte_of (Z.shiftr r 8));
  pixelBytes ← store pixelBytes (idx + 1) (byte_of (Z.shiftr g 8));
  pixelBytes ← store pixelBytes (idx + 2) (byte_of (Z.shiftr b 8));
  pixelBytes ← store pixelBytes (idx + 3) (byte_of (Z.shiftr a 8));
  Ret (pixelBytes, idx + 4).

(** One row: [idx := rowIdx], the pixels of the row, [rowIdx += Stride]. *)
Definition convert_row (iPix : list Z) (stride width : Z)
    (st : list Z * Z) : result (list Z * Z) :=
  let '(pixelBytes, rowIdx) := st in
  '(pixelBytes, _) ← for_range width (fun _ => convert_pixel iPix)
                       (pixelBytes, rowIdx);
  Ret (pixelBytes, rowIdx + stride).

(** The two loops, from [rowIdx := 0]. *)
Definition convert_rows (iPix : list Z) (stride width height : Z)
    (pixelBytes : list Z) : result (list Z) :=
  '(pixelBytes, _) ← for_range height (fun _ => convert_row iPix stride width)
                       (pixelBytes, 0);
  Ret pixelBytes.

Section WithLib.
Context `{L : ImageLib}.

(** [ret] after a call that was handed it as an [image.Image]. *)
Definition ebiten_of (img : Image) (ret : EImage) : EImage :=
  match img with
  | EbitenImg (Some e) => e
  | _ => ret
  end.

(** *** image.go: NewEImageFromImage

    The last branch passes [img] itself to [SlowImageCopy] and drops the
    error. *)
Definition NewEImageFromImage (img : Image) (mipmaps : bool)
    : result EImage :=
  b ← Bounds img;
  let left := X (Min_ b) in
  let top := Y (Min_ b) in
  let width := X (Max_ b) - left in
  let height := Y (Max_ b) - top in
  let rect := Rect 0 0 width height in
  ret ← eNewImage rect (negb mipmaps);
  match img with
  | EbitenImg (Some eImg) =>
      pixelBytes ← make_bytes (4 * width * height);
      pixelBytes ← eReadPixels eImg pixelBytes;
      eWritePixels ret pixelBytes
  | RGBAImg (Some iImg) =>
      eWritePixels ret (Pix iImg)
  | NRGBAImg (Some iImg) =>
      pixelBytes ← make_bytes (width * height * 4);
      pixelBytes ← convert_rows (Pix iImg) (Stride iImg) width height
                     pixelBytes;
      eWritePixels ret pixelBytes
  | EbitenImg None | RGBAImg None | NRGBAImg None => Panic
  | OtherImg _ =>
      '(o, _) ← SlowImageCopy (EbitenImg (Some ret)) img;
      Ret (ebiten_of o ret)
  end.

End WithLib.

(** *** Statements about the conversion *)

(** The four bytes of a pixel, and the buffer of a row of pixels. *)
Definition bytes_of_pixel (p : pixel) : list Z :=
  let '(r, g, b, a) := p in [r; g; b; a].

Definition pixel_bytes (ps : list pixel) : list Z :=
  flat_map bytes_of_pixel ps.

(** The pixels after [MultiplyAlphaBytes] on each. *)
Definition multiplied (ps : list pixel) : list pixel :=
  map (on_pixel MultiplyAlphaBytes) ps.

(** A 2 x 1 [*image.NRGBA], and a 1 x 2 one whose rows are 8 bytes apart. *)
Definition straight_pixels : list pixel := [(200, 100, 50, 128); (9, 8, 7, 0)].

Definition tight_nrgba : PixImage :=
  mkPixImage (pixel_bytes straight_pixels) 8 (Rect 0 0 2 1).

Definition padded_nrgba : PixImage :=
  mkPixImage [200; 100; 50; 128; 0; 0; 0; 0; 9; 8; 7; 0; 0; 0; 0; 0] 8
    (Rect 0 0 1 2).

End EbitenCopy.

(** ** The sample library, pixel by pixel *)

Module PixelCopy.
Import Color Image.

(** The 2 x 1 images of the sample library, and the colour its [At]
    reads where its [Set] stored a colour: the high bytes of the colour's
    [RGBA()] channels. *)
Definition sample_ok (p : PixImage) : Prop :=
  PRect p = Rect 0 0 2 1 /\ Stride p = 8 /\ length (Pix p) = 8%nat.

Definition sample_conv (c : Color) : Color :=
  match Color_RGBA c with
  | Ret (r, g, b, a) =>
      Val (RGBA (byte_of (Z.shiftr r 8)) (byte_of (Z.shiftr g 8))
                (byte_of (Z.shiftr b 8)) (byte_of (Z.shiftr a 8)))
  | _ => c
  end.

End PixelCopy.

(** * Properties *)

(** ** Exhaustive checks and byte arithmetic *)

Section Bytes.
Import Color.

Lemma all_below_spec (n : nat) (P : Z -> bool) :
  all_below n P = true -> forall x, 0 <= x < Z.of_nat n -> P x = true.
Proof.
  induction n as [|k IH]; intros Hall x Hx; [lia|].
  cbn [all_below] in Hall. apply andb_true_iff in Hall as [Hk Hrest].
  destruct (decide (x = Z.of_nat k)) as [->|Hne]; [exact Hk|].
  apply IH; [exact Hrest | lia].
Qed.

Lemma all_bytes_spec (P : Z -> bool) :
  all_bytes P = true -> forall x, is_byte x -> P x = true.
Proof. intros H x Hx. apply (all_below_spec 256 P H). exact Hx. Qed.

Lemma u32_small (x : Z) : 0 <= x < 2 ^ 32 -> u32 x = x.
Proof. intros H. unfold u32. apply Z.mod_small. exact H. Qed.

Lemma byte_of_small (x : Z) : is_byte x -> byte_of x = x.
Proof. intros H. unfold byte_of. apply Z.mod_small. exact H. Qed.

Lemma byte_of_is_byte (x : Z) : is_byte (byte_of x).
Proof. unfold is_byte, byte_of. apply Z.mod_pos_bound. lia. Qed.

(** OR-doubling a byte is multiplication by 257. *)
Lemma dbl_byte (c : Z) : is_byte c -> dbl c = 257 * c.
Proof.
  intros H. apply Z.eqb_eq. revert c H.
  apply all_bytes_spec. vm_compute. reflexivity.
Qed.

Lemma shiftr8 (x : Z) : Z.shiftr x 8 = x / 256.
Proof. rewrite Z.shiftr_div_pow2 by lia. reflexivity. Qed.

(** The scaled channel in plain arithmetic. *)
Lemma scale_channel_arith (c a : Z) :
  is_byte c -> is_byte a -> scale_channel c a = 257 * c * a / 255 / 256.
Proof.
  intros Hc Ha. unfold scale_channel.
  fold (dbl c). rewrite (dbl_byte c Hc).
  unfold is_byte in *.
  rewrite (u32_small a) by lia.
  unfold mul32. rewrite u32_small by nia.
  rewrite shiftr8. apply byte_of_small. unfold is_byte.
  assert (0 <= 257 * c * a <= 257 * 255 * 255) by nia.
  split.
  - apply Z.div_pos; [|lia]. apply Z.div_pos; lia.
  - apply Z.div_lt_upper_bound; [lia|].
    apply Z.div_lt_upper_bound; lia.
Qed.

Lemma scale_channel_le_alpha (c a : Z) :
  is_byte c -> is_byte a -> scale_channel c a <= a.
Proof.
  intros Hc Ha. rewrite scale_channel_arith by assumption.
  unfold is_byte in *.
  assert (257 * c * a / 255 <= 257 * a).
  { apply Z.div_le_upper_bound; [lia|]. nia. }
  assert (257 * c * a / 255 / 256 <= 257 * a / 256).
  { apply Z.div_le_mono; lia. }
  assert (257 * a / 256 <= a).
  { clear -Ha. Z.div_mod_to_equations. lia. }
  lia.
Qed.

(** The channel [MultiplyAlphaBytes] gets from [NRGBA.RGBA()]. *)
Lemma legacy_channel (c a : Z) :
  is_byte c -> is_byte a ->
  byte_of (Z.shiftr (mul32 (dbl c) (u32 a) / 255) 8) = 257 * c * a / 255 / 256.
Proof.
  intros Hc Ha. rewrite <- (scale_channel_arith c a Hc Ha). reflexivity.
Qed.

Lemma alpha_roundtrip (a : Z) :
  is_byte a -> byte_of (Z.shiftr (dbl a) 8) = a.
Proof.
  intros Ha. rewrite (dbl_byte a Ha), shiftr8.
  unfold is_byte in Ha.
  replace (257 * a / 256) with a; [apply byte_of_small; exact Ha|].
  Z.div_mod_to_equations. lia.
Qed.

End Bytes.

(** ** The byte codec of color.go *)

Section AlphaCodec.
Import Color.

Lemma roundtrip_check_all :
  all_bytes (fun c => all_bytes (fun a => roundtrip_check c a)) = true.
Proof. vm_compute. reflexivity. Qed.

Lemma channel_roundtrip (c a : Z) :
  is_byte c -> 0 < a < 255 -> c <= a ->
  Z.abs (scale_channel (byte_of (Z.quot (c * 255) a)) a - c) <= 1.
Proof.
  intros Hc Ha Hca.
  assert (Hab : is_byte a) by (unfold is_byte; lia).
  rewrite scale_channel_arith by (auto using byte_of_is_byte).
  pose proof (all_bytes_spec _ roundtrip_check_all c Hc) as H1. cbv beta in H1.
  pose proof (all_bytes_spec _ H1 a Hab) as H2.
  unfold roundtrip_check in H2.
  apply orb_true_iff in H2 as [H2|H2].
  - apply negb_true_iff in H2.
    assert ((0 <? a) && (a <? 255) && (c <=? a) = true) as H3.
    { rewrite !andb_true_iff. repeat split; [apply Z.ltb_lt|apply Z.ltb_lt|apply Z.leb_le]; lia. }
    congruence.
  - apply Z.leb_le in H2. exact H2.
Qed.

(** C1: for a premultiplied pixel [(r,g,b,a)] with [0 < a < 255] and
    [r, g, b <= a], [UnmultiplyAlphaBytes] followed by
    [MultiplyAlphaBytesPreserveColors] gives back the alpha [a] exactly and
    each colour channel within 1 of the original. *)
Theorem unmultiply_multiply_roundtrip (r g b a : Z) :
  is_byte r -> is_byte g -> is_byte b ->
  0 < a < 255 -> r <= a -> g <= a -> b <= a ->
  let out := on_pixel MultiplyAlphaBytesPreserveColors
               (UnmultiplyAlphaBytes r g b a) in
  alpha_of out = a
  /\ Z.abs (red_of out - r) <= 1
  /\ Z.abs (green_of out - g) <= 1
  /\ Z.abs (blue_of out - b) <= 1.
Proof.
  intros Hr Hg Hb Ha Hra Hga Hba.
  assert (Hab : is_byte a) by (unfold is_byte; lia).
  assert (Hguard : negb (a =? 0) && negb (a =? 255) = true).
  { apply andb_true_iff. split; apply negb_true_iff, Z.eqb_neq; lia. }
  unfold UnmultiplyAlphaBytes. rewrite Hguard.
  cbn [on_pixel]. unfold MultiplyAlphaBytesPreserveColors. rewrite Hguard.
  cbn [alpha_of red_of green_of blue_of].
  split; [|auto using channel_roundtrip].
  fold (dbl a). apply alpha_roundtrip. exact Hab.
Qed.

Lemma unmultiply_multiply_roundtrip_witness :
  let out := on_pixel MultiplyAlphaBytesPreserveColors
               (UnmultiplyAlphaBytes 17 51 68 85) in
  alpha_of out = 85
  /\ Z.abs (red_of out - 17) <= 1
  /\ Z.abs (green_of out - 51) <= 1
  /\ Z.abs (blue_of out - 68) <= 1.
Proof.
  apply (unmultiply_multiply_roundtrip 17 51 68 85); unfold is_byte; lia.
Defined.

Lemma guard_true (a top : Z) :
  a <> 0 -> a <> top -> negb (a =? 0) && negb (a =? top) = true.
Proof.
  intros H0 H1. apply andb_true_iff.
  split; apply negb_true_iff, Z.eqb_neq; assumption.
Qed.

Lemma MultiplyAlphaBytes_arith (r g b a : Z) :
  is_byte r -> is_byte g -> is_byte b -> is_byte a ->
  MultiplyAlphaBytes r g b a =
  (257 * r * a / 255 / 256, 257 * g * a / 255 / 256,
   257 * b * a / 255 / 256, a).
Proof.
  intros Hr Hg Hb Ha. unfold MultiplyAlphaBytes, NRGBA_RGBA.
  rewrite !legacy_channel, alpha_roundtrip by assumption. reflexivity.
Qed.

Lemma full_alpha_channel (c : Z) : is_byte c -> 257 * c * 255 / 255 / 256 = c.
Proof. unfold is_byte. intros Hc. Z.div_mod_to_equations. lia. Qed.

(** The two multiplications agree away from alpha 0. *)
Lemma multiply_variants_agree (r g b a : Z) :
  is_byte r -> is_byte g -> is_byte b -> is_byte a -> a <> 0 ->
  MultiplyAlphaBytesPreserveColors r g b a = MultiplyAlphaBytes r g b a.
Proof.
  intros Hr Hg Hb Ha Hnz.
  rewrite MultiplyAlphaBytes_arith by assumption.
  unfold MultiplyAlphaBytesPreserveColors.
  destruct (decide (a = 255)) as [->|Hne].
  - cbn [Z.eqb negb andb]. rewrite !full_alpha_channel by assumption.
    reflexivity.
  - rewrite guard_true by assumption.
    rewrite !scale_channel_arith by assumption.
    fold (dbl a). rewrite alpha_roundtrip by assumption. reflexivity.
Qed.

(** C2: at alpha 0, [MultiplyAlphaBytesPreserveColors] returns its inputs
    and [MultiplyAlphaBytes] returns [(0,0,0,0)], for every [r], [g], [b];
    the two functions can differ at alpha 0 only, and there they differ
    as soon as one colour channel is not 0. *)
Theorem multiply_variants_at_zero_alpha (r g b : Z) :
  is_byte r -> is_byte g -> is_byte b ->
  MultiplyAlphaBytesPreserveColors r g b 0 = (r, g, b, 0)
  /\ MultiplyAlphaBytes r g b 0 = (0, 0, 0, 0)
  /\ (forall a, is_byte a ->
        MultiplyAlphaBytesPreserveColors r g b a <> MultiplyAlphaBytes r g b a ->
        a = 0)
  /\ (MultiplyAlphaBytesPreserveColors r g b 0 <> MultiplyAlphaBytes r g b 0
      <-> (r, g, b) <> (0, 0, 0)).
Proof.
  intros Hr Hg Hb.
  assert (Hp : MultiplyAlphaBytesPreserveColors r g b 0 = (r, g, b, 0))
    by reflexivity.
  assert (Hm : MultiplyAlphaBytes r g b 0 = (0, 0, 0, 0)).
  { rewrite MultiplyAlphaBytes_arith by (unfold is_byte in *; auto; lia).
    rewrite !Z.mul_0_r. reflexivity. }
  split; [exact Hp|]. split; [exact Hm|]. split.
  - intros a Ha Hdiff. destruct (decide (a = 0)) as [|Hnz]; [assumption|].
    exfalso. apply Hdiff. apply multiply_variants_agree; assumption.
  - rewrite Hp, Hm. split; intros H E; apply H; congruence.
Qed.

Lemma multiply_variants_at_zero_alpha_witness :
  MultiplyAlphaBytesPreserveColors 42 87 197 0 = (42, 87, 197, 0)
  /\ MultiplyAlphaBytes 42 87 197 0 = (0, 0, 0, 0).
Proof.
  destruct (multiply_variants_at_zero_alpha 42 87 197) as (Hp & Hm & _);
    [unfold is_byte; lia ..|].
  split; [exact Hp | exact Hm].
Defined.

(** C3: [UnmultiplyAlphaBytes] returns its inputs when alpha is 0 or 255;
    for [0 < a < 255] each colour channel is [c * 255 / a] reduced modulo
    256, without clamping; the two vectors of the specification, and one
    input whose quotient 510 wraps to 254. *)
Theorem UnmultiplyAlphaBytes_spec (r g b a : Z) :
  is_byte r -> is_byte g -> is_byte b -> is_byte a ->
  (a = 0 \/ a = 255 -> UnmultiplyAlphaBytes r g b a = (r, g, b, a))
  /\ (0 < a < 255 ->
      UnmultiplyAlphaBytes r g b a =
      ((r * 255 / a) mod 256, (g * 255 / a) mod 256, (b * 255 / a) mod 256, a))
  /\ UnmultiplyAlphaBytes 100 100 100 100 = (255, 255, 255, 100)
  /\ UnmultiplyAlphaBytes 100 100 100 255 = (100, 100, 100, 255)
  /\ (200 * 255 / 100 = 510 /\
      UnmultiplyAlphaBytes 200 100 100 100 = (254, 255, 255, 100)).
Proof.
  intros Hr Hg Hb Ha. unfold is_byte in *.
  split; [|split; [|repeat split; reflexivity]].
  - intros [-> | ->]; reflexivity.
  - intros Hmid. unfold UnmultiplyAlphaBytes, byte_of.
    rewrite guard_true by lia.
    rewrite !Z.quot_div_nonneg by lia. reflexivity.
Qed.

Lemma UnmultiplyAlphaBytes_spec_witness :
  UnmultiplyAlphaBytes 17 51 68 85 =
  ((17 * 255 / 85) mod 256, (51 * 255 / 85) mod 256, (68 * 255 / 85) mod 256, 85).
Proof.
  destruct (UnmultiplyAlphaBytes_spec 17 51 68 85) as (_ & Hmid & _);
    [unfold is_byte; lia ..|].
  apply Hmid. lia.
Defined.

Lemma scale_spec_arith (c a : Z) :
  is_byte c -> scale_spec c a = 257 * c * a / 255 / 256.
Proof.
  intros Hc. unfold scale_spec. rewrite shiftr8.
  rewrite <- (dbl_byte c Hc). unfold dbl, shl32.
  unfold is_byte in Hc.
  rewrite (u32_small c) by lia.
  rewrite u32_small by (rewrite Z.shiftl_mul_pow2; lia).
  reflexivity.
Qed.

(** C6: for every alpha other than 0 the two multiplications return the
    same pixel: the channel formula of the specification for
    [0 < a < 255], the inputs for [a = 255]; both send
    [(51,153,204,85)] to [(17,51,68,85)]. *)
Theorem multiply_variants_equal_nonzero_alpha (r g b a : Z) :
  is_byte r -> is_byte g -> is_byte b -> is_byte a -> a <> 0 ->
  MultiplyAlphaBytesPreserveColors r g b a = MultiplyAlphaBytes r g b a
  /\ (0 < a < 255 ->
      MultiplyAlphaBytes r g b a =
      (scale_spec r a, scale_spec g a, scale_spec b a, a))
  /\ (a = 255 -> MultiplyAlphaBytes r g b a = (r, g, b, a))
  /\ MultiplyAlphaBytesPreserveColors 51 153 204 85 = (17, 51, 68, 85)
  /\ MultiplyAlphaBytes 51 153 204 85 = (17, 51, 68, 85).
Proof.
  intros Hr Hg Hb Ha Hnz.
  split; [apply multiply_variants_agree; assumption|].
  split; [|split; [|split; reflexivity]].
  - intros _. rewrite MultiplyAlphaBytes_arith by assumption.
    rewrite !scale_spec_arith by assumption. reflexivity.
  - intros ->. rewrite MultiplyAlphaBytes_arith by assumption.
    rewrite !full_alpha_channel by assumption. reflexivity.
Qed.

Lemma multiply_variants_equal_nonzero_alpha_witness :
  MultiplyAlphaBytesPreserveColors 255 255 255 100
  = MultiplyAlphaBytes 255 255 255 100.
Proof.
  apply (multiply_variants_equal_nonzero_alpha 255 255 255 100);
    unfold is_byte; lia.
Defined.

(** C9 as stated fails: at alpha 0 the colours are kept, so the output
    [(42,87,197,0)] has colour channels above its alpha. *)
Lemma preserve_colors_breaks_invariant_at_zero :
  ~ (forall r g b a, is_byte r -> is_byte g -> is_byte b -> is_byte a ->
       premultiplied (MultiplyAlphaBytesPreserveColors r g b a)).
Proof.
  intros H.
  destruct (H 42 87 197 0) as (Hred & _); [unfold is_byte; lia ..|].
  vm_compute in Hred. apply Hred. reflexivity.
Qed.

(** C9, amended: for every input whose alpha is not 0, each colour channel
    of the output of [MultiplyAlphaBytesPreserveColors] is at most the
    output's alpha channel; for alpha 0 the input is returned unchanged,
    so the invariant holds exactly when the three colours are 0. *)
Theorem preserve_colors_invariant_nonzero_alpha (r g b a : Z) :
  is_byte r -> is_byte g -> is_byte b -> is_byte a ->
  (a <> 0 -> premultiplied (MultiplyAlphaBytesPreserveColors r g b a))
  /\ (a = 0 ->
      MultiplyAlphaBytesPreserveColors r g b a = (r, g, b, a)
      /\ (premultiplied (MultiplyAlphaBytesPreserveColors r g b a)
          <-> r = 0 /\ g = 0 /\ b = 0)).
Proof.
  intros Hr Hg Hb Ha. split.
  - intros Hnz. unfold MultiplyAlphaBytesPreserveColors, premultiplied.
    destruct (decide (a = 255)) as [->|Hne].
    + cbn. unfold is_byte in *. lia.
    + rewrite guard_true by assumption.
      cbn [red_of green_of blue_of alpha_of].
      fold (dbl a). rewrite alpha_roundtrip by assumption.
      auto using scale_channel_le_alpha.
  - intros ->.
    change (MultiplyAlphaBytesPreserveColors r g b 0) with (r, g, b, 0).
    split; [reflexivity|].
    unfold premultiplied. cbn [red_of green_of blue_of alpha_of].
    unfold is_byte in *. lia.
Qed.

Lemma preserve_colors_invariant_nonzero_alpha_witness :
  (100 <> 0 -> premultiplied (MultiplyAlphaBytesPreserveColors 255 255 255 100))
  /\ (100 = 0 ->
      MultiplyAlphaBytesPreserveColors 255 255 255 100 = (255, 255, 255, 100)
      /\ (premultiplied (MultiplyAlphaBytesPreserveColors 255 255 255 100)
          <-> 255 = 0 /\ 255 = 0 /\ 255 = 0)).
Proof.
  apply (preserve_colors_invariant_nonzero_alpha 255 255 255 100);
    unfold is_byte; lia.
Defined.

End AlphaCodec.

(** ** The colour dispatch of color.go *)

Section ColorNormalizer.
Import Color.

Lemma div32_zero (x : Z) : div32 x 0 = Panic.
Proof. reflexivity. Qed.

Lemma low_alpha_high_byte (alpha : Z) :
  0 <= alpha < 256 -> byte_of (Z.shiftr alpha 8) = 0.
Proof.
  intros H. rewrite shiftr8, Z.div_small by lia. reflexivity.
Qed.

(** Whenever [RGBA()] reports an alpha between 1 and 255, the divisor
    [byte(alpha >> 8)] is 0 and the division panics. *)
Lemma UnmultiplyAlpha_low_alpha (c : Color) (r g b alpha : Z) :
  Color_RGBA c = Ret (r, g, b, alpha) -> 0 < alpha < 256 ->
  UnmultiplyAlpha c = Panic.
Proof.
  intros HRGBA Halpha. unfold UnmultiplyAlpha. rewrite HRGBA.
  cbn [mbind result_bind].
  rewrite guard_true by lia.
  rewrite low_alpha_high_byte by lia. reflexivity.
Qed.

(** With an alpha of 0, or of at least 256, the function returns. *)
Lemma UnmultiplyAlpha_returns (c : Color) (r g b alpha : Z) :
  Color_RGBA c = Ret (r, g, b, alpha) ->
  alpha = 0 \/ 256 <= alpha < 65536 ->
  exists p, UnmultiplyAlpha c = Ret p.
Proof.
  intros HRGBA Halpha. unfold UnmultiplyAlpha. rewrite HRGBA.
  cbn [mbind result_bind].
  destruct (negb (alpha =? 0) && negb (alpha =? 65535)) eqn:Hguard;
    [|eexists; reflexivity].
  assert (Hdiv : u32 (byte_of (Z.shiftr alpha 8)) <> 0).
  { destruct Halpha as [-> | Hhi]; [discriminate Hguard|].
    rewrite shiftr8.
    assert (1 <= alpha / 256 < 256) by (Z.div_mod_to_equations; lia).
    rewrite byte_of_small by (unfold is_byte; lia).
    rewrite u32_small by lia. lia. }
  unfold div32. apply Z.eqb_neq in Hdiv. rewrite Hdiv.
  eexists. reflexivity.
Qed.

(** C5, on the code: for the well-formed colour [color.RGBA64{0,0,0,0x80}],
    whose [RGBA()] returns the alpha [0x80], [UnmultiplyAlpha] divides by
    [byte(0x80 >> 8) = 0] and panics; so does [ToNRGBA]. *)
Theorem UnmultiplyAlpha_divides_by_zero :
  wf_val (RGBA64 0 0 0 128)
  /\ Color_RGBA (Val (RGBA64 0 0 0 128)) = Ret (0, 0, 0, 128)
  /\ UnmultiplyAlpha (Val (RGBA64 0 0 0 128)) = Panic
  /\ ToNRGBA (Val (RGBA64 0 0 0 128)) = Panic.
Proof.
  split; [unfold wf_val, is_u16; lia|].
  split; [reflexivity|].
  assert (H : UnmultiplyAlpha (Val (RGBA64 0 0 0 128)) = Panic).
  { apply UnmultiplyAlpha_low_alpha with (r := 0) (g := 0) (b := 0) (alpha := 128);
      [reflexivity | lia]. }
  split; exact H.
Qed.

(** C10: for an alpha-only colour, by value or by pointer, [ToNRGBA]
    returns the colour channels 0xFF and the alpha of the source, the
    16-bit alpha shifted right by 8; alpha 0x80 gives
    [(0xFF,0xFF,0xFF,0x80)]. *)
Theorem ToNRGBA_alpha_only (a8 a16 : Z) :
  is_byte a8 -> is_u16 a16 ->
  ToNRGBA (Val (Alpha a8)) = Ret (255, 255, 255, a8)
  /\ ToNRGBA (Ptr (Alpha a8)) = Ret (255, 255, 255, a8)
  /\ ToNRGBA (Val (Alpha16 a16)) = Ret (255, 255, 255, Z.shiftr a16 8)
  /\ ToNRGBA (Ptr (Alpha16 a16)) = Ret (255, 255, 255, Z.shiftr a16 8)
  /\ ToNRGBA (Val (Alpha 128)) = Ret (255, 255, 255, 128).
Proof.
  intros _ H16.
  assert (Hhi : byte_of (Z.shiftr a16 8) = Z.shiftr a16 8).
  { apply byte_of_small. rewrite shiftr8. unfold is_byte, is_u16 in *.
    Z.div_mod_to_equations. lia. }
  cbn [ToNRGBA]. rewrite Hhi. repeat split; reflexivity.
Qed.

Lemma ToNRGBA_alpha_only_witness :
  ToNRGBA (Val (Alpha 128)) = Ret (255, 255, 255, 128)
  /\ ToNRGBA (Val (Alpha16 32896)) = Ret (255, 255, 255, 128).
Proof.
  destruct (ToNRGBA_alpha_only 128 32896) as (H8 & _ & H16 & _);
    [unfold is_byte; lia | unfold is_u16; lia |].
  split; [exact H8 | exact H16].
Defined.

End ColorNormalizer.

(** ** The pixel-by-pixel copy of image.go *)

Section SlowCopy.
Import Color Image.
Context `{L : ImageLib}.

Lemma for_loop_returns {St : Type} (body : Z -> St -> result St) :
  (forall i s, exists s', body i s = Ret s') ->
  forall count i s, exists s', for_loop count i body s = Ret s'.
Proof.
  intros Hbody count. induction count as [|k IH]; intros i s.
  - exists s. reflexivity.
  - cbn [for_loop]. destruct (Hbody i s) as [s1 ->].
    cbn [mbind result_bind]. apply IH.
Qed.

Lemma At_returns (img : Image) (x y : Z) :
  non_nil img -> exists c, At img x y = Ret c.
Proof.
  destruct img as [[e|]|[p|]|[p|]|o]; cbn; intros H;
    try contradiction; eexists; reflexivity.
Qed.

Lemma Bounds_returns (img : Image) :
  non_nil img -> exists r, Bounds img = Ret r.
Proof.
  destruct img as [[e|]|[p|]|[p|]|o]; cbn; intros H;
    try contradiction; eexists; reflexivity.
Qed.

Lemma copy_pixels_returns {T : Type} (set : T -> Z -> Z -> Color -> T)
    (iImg : Image) (left top width height : Z) (o : T) :
  non_nil iImg ->
  exists o', copy_pixels set iImg left top width height o = Ret o'.
Proof.
  intros Hi. unfold copy_pixels, for_range.
  apply for_loop_returns. intros y s.
  apply for_loop_returns. intros x s1.
  destruct (At_returns iImg (x + left) (y + top) Hi) as [c ->].
  eexists. reflexivity.
Qed.

(** C8: on images that are not nil pointers, [SlowImageCopy] returns; its
    error is non-nil exactly when the destination is none of
    [*image.RGBA], [*image.NRGBA] and [*ebiten.Image]; with the error the
    destination is returned as it was, and a destination of one of the
    three kinds gives a nil error. *)
Theorem SlowImageCopy_error_iff_unknown_destination (oImg iImg : Image) :
  non_nil oImg -> non_nil iImg ->
  exists o' err,
    SlowImageCopy oImg iImg = Ret (o', err)
    /\ (err <> None <-> known_kind oImg = false)
    /\ (err <> None -> o' = oImg)
    /\ (known_kind oImg = true -> err = None).
Proof.
  intros Ho Hi. unfold SlowImageCopy.
  destruct (Bounds_returns iImg Hi) as [ib ->].
  destruct (Bounds_returns oImg Ho) as [ob ->].
  cbn [mbind result_bind].
  destruct oImg as [[e|]|[p|]|[p|]|o]; cbn in Ho; try contradiction.
  - destruct (copy_pixels_returns eSet iImg (X (Min_ ib)) (Y (Min_ ib))
                (Dx ob) (Dy ob) e Hi) as [e' ->].
    exists (EbitenImg (Some e')), None. cbn. intuition congruence.
  - destruct (copy_pixels_returns rgbaSet iImg (X (Min_ ib)) (Y (Min_ ib))
                (Dx ob) (Dy ob) p Hi) as [p' ->].
    exists (RGBAImg (Some p')), None. cbn. intuition congruence.
  - destruct (copy_pixels_returns nrgbaSet iImg (X (Min_ ib)) (Y (Min_ ib))
                (Dx ob) (Dy ob) p Hi) as [p' ->].
    exists (NRGBAImg (Some p')), None. cbn. intuition congruence.
  - exists (OtherImg o), (Some unsupported). cbn. intuition congruence.
Qed.

(** C4, on the code: for an image of any other type, [CopyImage] hands
    [SlowImageCopy] the nil [*image.NRGBA] left by the failed type
    assertion instead of the image, and the call panics in
    [iImg.Bounds()]; no copy is returned. *)
Theorem CopyImage_other_type_panics (o : OtherImage) (mipmaps : bool) :
  CopyImage (OtherImg o) mipmaps = Panic.
Proof.
  unfold CopyImage. cbn [Bounds mbind result_bind].
  unfold NewPixImage. destruct (_ || _); reflexivity.
Qed.

End SlowCopy.

Section SlowCopyExamples.
Import Color Image.

Lemma SlowImageCopy_error_iff_unknown_destination_witness :
  exists o' err,
    SlowImageCopy (L := sample_lib) (RGBAImg (Some blank_rgba)) (OtherImg two_pixels)
      = Ret (o', err)
    /\ (err <> None <-> known_kind (L := sample_lib) (RGBAImg (Some blank_rgba)) = false)
    /\ (err <> None -> o' = RGBAImg (Some blank_rgba))
    /\ (known_kind (L := sample_lib) (RGBAImg (Some blank_rgba)) = true -> err = None).
Proof.
  apply (SlowImageCopy_error_iff_unknown_destination (L := sample_lib)
           (RGBAImg (Some blank_rgba)) (OtherImg two_pixels)); exact I.
Defined.

(** Handed the image itself, the fallback does copy it. *)
Lemma SlowImageCopy_copies_two_pixels :
  SlowImageCopy (L := sample_lib) (RGBAImg (Some blank_rgba)) (OtherImg two_pixels)
  = Ret (RGBAImg (Some (mkPixImage [0; 0; 7; 255; 1; 0; 7; 255] 8 (Rect 0 0 2 1))),
         None).
Proof. reflexivity. Qed.

Lemma CopyImage_two_pixels_panics :
  CopyImage (L := sample_lib) (OtherImg two_pixels) false = Panic.
Proof. reflexivity. Qed.

End SlowCopyExamples.

(** ** The line copy of image.go *)

Section CopyLines.
Import Image.

Lemma slice_Ret (s : list Z) (lo hi : Z) :
  0 <= lo <= hi -> hi <= len s ->
  slice s lo hi = Ret (take (Z.to_nat (hi - lo)) (drop (Z.to_nat lo) s)).
Proof.
  intros Hlo Hhi. unfold slice, slice_ok.
  replace (0 <=? lo) with true by (symmetry; apply Z.leb_le; lia).
  replace (lo <=? hi) with true by (symmetry; apply Z.leb_le; lia).
  replace (hi <=? len s) with true by (symmetry; apply Z.leb_le; lia).
  reflexivity.
Qed.

Lemma length_window (s : list Z) (lo n : Z) :
  0 <= lo -> 0 <= n -> lo + n <= len s ->
  length (take (Z.to_nat n) (drop (Z.to_nat lo) s)) = Z.to_nat n.
Proof.
  unfold len. intros Hlo Hn Hlen. rewrite length_take, length_drop. lia.
Qed.

(** A copy between two windows of the same width replaces the whole
    window. *)
Lemma go_copy_same_length (dst src : list Z) :
  length dst = length src -> go_copy dst src = src.
Proof.
  intros Hlen. unfold go_copy. rewrite Hlen, Nat.min_id.
  rewrite take_ge by lia. rewrite drop_ge by lia. apply app_nil_r.
Qed.

Lemma copy_into_row (oPix iPix : list Z) (oIdx iIdx lowerStride : Z) :
  0 <= oIdx -> 0 <= iIdx -> 0 <= lowerStride ->
  oIdx + lowerStride <= len oPix -> iIdx + lowerStride <= len iPix ->
  copy_into oPix oIdx (oIdx + lowerStride)
    (take (Z.to_nat lowerStride) (drop (Z.to_nat iIdx) iPix))
  = Ret (row_written oPix oIdx iPix iIdx lowerStride).
Proof.
  intros Ho Hi Hl Hob Hib. unfold copy_into.
  rewrite slice_Ret by lia. cbn [mbind result_bind].
  replace (oIdx + lowerStride - oIdx) with lowerStride by lia.
  rewrite go_copy_same_length by (rewrite !length_window by lia; reflexivity).
  reflexivity.
Qed.

Lemma length_row_written (oPix iPix : list Z) (oIdx iIdx lowerStride : Z) :
  0 <= oIdx -> 0 <= iIdx -> 0 <= lowerStride ->
  oIdx + lowerStride <= len oPix -> iIdx + lowerStride <= len iPix ->
  length (row_written oPix oIdx iPix iIdx lowerStride) = length oPix.
Proof.
  intros Ho Hi Hl Hob Hib. unfold row_written.
  rewrite !length_app, length_window by lia.
  rewrite length_take, length_drop. unfold len in *. lia.
Qed.

Lemma row_written_inside (oPix iPix : list Z) (oIdx iIdx lowerStride i : Z) :
  0 <= oIdx -> 0 <= iIdx -> 0 <= lowerStride ->
  oIdx + lowerStride <= len oPix -> iIdx + lowerStride <= len iPix ->
  oIdx <= i < oIdx + lowerStride ->
  row_written oPix oIdx iPix iIdx lowerStride !! Z.to_nat i
  = iPix !! Z.to_nat (iIdx + (i - oIdx)).
Proof.
  intros Ho Hi Hl Hob Hib Hin. unfold row_written, len in *.
  rewrite lookup_app_r by (rewrite length_take; lia).
  rewrite length_take.
  rewrite lookup_app_l by (rewrite length_take, length_drop; lia).
  rewrite lookup_take_lt by lia.
  rewrite lookup_drop. f_equal. lia.
Qed.

Lemma row_written_outside (oPix iPix : list Z) (oIdx iIdx lowerStride i : Z) :
  0 <= oIdx -> 0 <= iIdx -> 0 <= lowerStride ->
  oIdx + lowerStride <= len oPix -> iIdx + lowerStride <= len iPix ->
  0 <= i -> ~ (oIdx <= i < oIdx + lowerStride) ->
  row_written oPix oIdx iPix iIdx lowerStride !! Z.to_nat i
  = oPix !! Z.to_nat i.
Proof.
  intros Ho Hi Hl Hob Hib Hi0 Hout. unfold row_written, len in *.
  destruct (decide (i < oIdx)) as [Hlt|Hge].
  - rewrite lookup_app_l by (rewrite length_take; lia).
    apply lookup_take_lt. lia.
  - rewrite lookup_app_r by (rewrite length_take; lia).
    rewrite length_take.
    rewrite lookup_app_r by (rewrite length_take, length_drop; lia).
    rewrite length_take, length_drop.
    rewrite lookup_drop. f_equal. lia.
Qed.

Lemma copy_rows_done (fuel : nat) (oPix : list Z) (oStride : Z)
    (iPix : list Z) (iStride lowerStride iIdx oIdx : Z) :
  len iPix <= iIdx ->
  copy_rows fuel oPix oStride iPix iStride lowerStride iIdx oIdx = Ret oPix.
Proof.
  intros Hend. assert ((iIdx <? len iPix) = false) as Hc by (apply Z.ltb_ge; lia).
  destruct fuel; cbn [copy_rows]; rewrite Hc; reflexivity.
Qed.

Lemma copy_rows_step (fuel : nat) (oPix : list Z) (oStride : Z)
    (iPix : list Z) (iStride lowerStride iIdx oIdx : Z) :
  iIdx < len iPix ->
  0 <= oIdx -> 0 <= iIdx -> 0 <= lowerStride ->
  oIdx + lowerStride <= len oPix -> iIdx + lowerStride <= len iPix ->
  copy_rows (S fuel) oPix oStride iPix iStride lowerStride iIdx oIdx
  = copy_rows fuel (row_written oPix oIdx iPix iIdx lowerStride) oStride
      iPix iStride lowerStride (iIdx + iStride) (oIdx + oStride).
Proof.
  intros Hlt Ho Hi Hl Hob Hib.
  assert ((iIdx <? len iPix) = true) as Hc by (apply Z.ltb_lt; lia).
  cbn [copy_rows]. rewrite Hc.
  rewrite (slice_Ret oPix) by lia. cbn [mbind result_bind].
  rewrite (slice_Ret iPix) by lia. cbn [mbind result_bind].
  replace (iIdx + lowerStride - iIdx) with lowerStride by lia.
  rewrite copy_into_row by lia. reflexivity.
Qed.

(** The loop from row [k] on, [n] rows before the end of the source. *)
Lemma copy_rows_spec (oStride iStride lowerStride : Z) (iPix : list Z) :
  0 <= lowerStride -> lowerStride <= oStride -> lowerStride <= iStride ->
  0 < iStride ->
  forall (n fuel : nat) (oPix : list Z) (k : Z),
    (n <= fuel)%nat -> 0 <= k ->
    len iPix = (k + Z.of_nat n) * iStride ->
    (n = 0%nat \/ (k + Z.of_nat n - 1) * oStride + lowerStride <= len oPix) ->
    exists o',
      copy_rows fuel oPix oStride iPix iStride lowerStride
        (k * iStride) (k * oStride) = Ret o'
      /\ length o' = length oPix
      /\ (forall r i, k <= r < k + Z.of_nat n ->
            r * oStride <= i < r * oStride + lowerStride ->
            o' !! Z.to_nat i = iPix !! Z.to_nat (r * iStride + (i - r * oStride)))
      /\ (forall i, 0 <= i ->
            (forall r, k <= r < k + Z.of_nat n ->
               ~ (r * oStride <= i < r * oStride + lowerStride)) ->
            o' !! Z.to_nat i = oPix !! Z.to_nat i).
Proof.
  intros Hl Hlo Hli His n.
  induction n as [|m IH]; intros fuel oPix k Hfuel Hk Hlen Hdst.
  - exists oPix. rewrite copy_rows_done by lia.
    split; [reflexivity|]. split; [reflexivity|].
    split; [intros r i Hr; lia | reflexivity].
  - destruct fuel as [|fuel]; [lia|].
    destruct Hdst as [Hdst|Hdst]; [discriminate|].
    assert (Hok : 0 <= k * oStride) by nia.
    assert (Hik : 0 <= k * iStride) by nia.
    assert (Hob : k * oStride + lowerStride <= len oPix) by nia.
    assert (Hib : k * iStride + lowerStride <= len iPix) by nia.
    rewrite copy_rows_step by (try assumption; nia).
    set (o1 := row_written oPix (k * oStride) iPix (k * iStride) lowerStride).
    assert (Hlen1 : length o1 = length oPix)
      by (apply length_row_written; assumption).
    replace (k * iStride + iStride) with ((k + 1) * iStride) by lia.
    replace (k * oStride + oStride) with ((k + 1) * oStride) by lia.
    destruct (IH fuel o1 (k + 1)) as (o' & Hrun & Hlen' & Hrows & Hframe).
    { lia. }
    { lia. }
    { rewrite Hlen. lia. }
    { destruct m as [|m']; [left; reflexivity|right].
      unfold len in *. rewrite Hlen1.
      replace (k + 1 + Z.of_nat (S m') - 1) with (k + Z.of_nat (S (S m')) - 1) by lia.
      exact Hdst. }
    exists o'. split; [exact Hrun|]. split; [congruence|]. split.
    + intros r i Hr Hwin.
      destruct (decide (r = k)) as [->|Hne].
      * rewrite Hframe.
        -- apply row_written_inside; assumption.
        -- lia.
        -- intros r' Hr' Hwin'. nia.
      * apply Hrows; [lia | exact Hwin].
    + intros i Hi Hout.
      rewrite Hframe.
      * apply row_written_outside; try assumption.
        apply Hout. lia.
      * exact Hi.
      * intros r Hr. apply Hout. lia.
Qed.

Lemma Min_spec (x y : Z) : Min x y = Z.min x y.
Proof. unfold Min. destruct (Z.ltb_spec x y); lia. Qed.

(** C7 as stated fails: the rounds are not the [len(iPix) / iStride]
    whole rows but the offsets [0, iStride, ...] below [len(iPix)].  A
    source of 12 bytes with stride 8 has one whole row, whose window in a
    destination of stride 2 is the bytes 0 and 1; the call returns with
    the bytes 2 and 3 changed as well, by the round on the 4 bytes after
    the row. *)
Lemma CopyImageLines_partial_row_leaves_windows :
  ~ (forall (oPix iPix : list Z) (oStride iStride : Z) (o' : list Z),
       CopyImageLines oPix oStride iPix iStride = Ret o' ->
       forall i, 0 <= i ->
         (forall k, 0 <= k < len iPix / iStride ->
            ~ (k * oStride <= i < k * oStride + Min oStride iStride)) ->
         o' !! Z.to_nat i = oPix !! Z.to_nat i).
Proof.
  intros H.
  specialize (H (replicate 4 9) [1; 2; 3; 4; 5; 6; 7; 8; 11; 12; 13; 14] 2 8
                [1; 2; 11; 12] eq_refl 2 ltac:(lia)).
  assert (Hout : [1; 2; 11; 12] !! Z.to_nat 2 = replicate 4 9 !! Z.to_nat 2).
  { apply H. intros k Hk.
    change (len [1; 2; 3; 4; 5; 6; 7; 8; 11; 12; 13; 14] / 8) with 1 in Hk.
    rewrite Min_spec. lia. }
  discriminate Hout.
Qed.

(** C7, amended: on a source of [rows] whole rows of [iStride] bytes and a
    destination that holds the last row's window, [CopyImageLines] returns; each
    destination row [k], at offset [k * oStride], holds in its first
    [min(oStride, iStride)] bytes those of source row [k], at offset
    [k * iStride]; every byte outside these windows keeps its value and
    the buffer keeps its length.  Two rows of stride 8 copied into a
    destination of stride 6 leave their first 6 bytes each, and the bytes
    after them untouched. *)
Theorem CopyImageLines_copies_row_windows
    (oPix iPix : list Z) (oStride iStride rows : Z) :
  0 < iStride -> 0 <= oStride -> 0 <= rows ->
  len iPix = rows * iStride ->
  (rows = 0 \/ (rows - 1) * oStride + Min oStride iStride <= len oPix) ->
  exists o',
    CopyImageLines oPix oStride iPix iStride = Ret o'
    /\ length o' = length oPix
    /\ (forall k j, 0 <= k < rows -> 0 <= j < Min oStride iStride ->
          exists v, iPix !! Z.to_nat (k * iStride + j) = Some v
                    /\ o' !! Z.to_nat (k * oStride + j) = Some v)
    /\ (forall i, 0 <= i ->
          (forall k, 0 <= k < rows ->
             ~ (k * oStride <= i < k * oStride + Min oStride iStride)) ->
          o' !! Z.to_nat i = oPix !! Z.to_nat i)
    /\ CopyImageLines (replicate 14 9) 6
         [1; 2; 3; 4; 5; 6; 7; 8; 11; 12; 13; 14; 15; 16; 17; 18] 8
       = Ret [1; 2; 3; 4; 5; 6; 11; 12; 13; 14; 15; 16; 9; 9].
Proof.
  intros His Hos Hrows Hlen Hdst.
  rewrite Min_spec in *.
  destruct (copy_rows_spec oStride iStride (Z.min oStride iStride) iPix
              ltac:(lia) ltac:(lia) ltac:(lia) His
              (Z.to_nat rows) (S (length iPix + length oPix)) oPix 0)
    as (o' & Hrun & Hlen' & Hwin & Hframe).
  { unfold len in Hlen. nia. }
  { lia. }
  { rewrite Hlen. lia. }
  { destruct Hdst as [-> | Hdst]; [left; reflexivity|right]. lia. }
  exists o'. unfold CopyImageLines. rewrite Min_spec.
  split; [exact Hrun|]. split; [exact Hlen'|]. split; [|split].
  - intros k j Hk Hj.
    assert (Hin : (Z.to_nat (k * iStride + j) < length iPix)%nat).
    { unfold len in Hlen. nia. }
    destruct (lookup_lt_is_Some_2 _ _ Hin) as [v Hv].
    exists v. split; [exact Hv|].
    rewrite (Hwin k (k * oStride + j)) by lia.
    rewrite <- Hv. f_equal. lia.
  - intros i Hi Hout. apply Hframe; [exact Hi|].
    intros r Hr. apply Hout. lia.
  - reflexivity.
Qed.

Lemma CopyImageLines_copies_row_windows_witness :
  exists o',
    CopyImageLines (replicate 20 9) 8 [1; 2; 3; 4; 5; 6; 11; 12; 13; 14; 15; 16] 6
    = Ret o'
    /\ length o' = 20%nat.
Proof.
  destruct (CopyImageLines_copies_row_windows (replicate 20 9)
              [1; 2; 3; 4; 5; 6; 11; 12; 13; 14; 15; 16] 8 6 2)
    as (o' & Hrun & Hlen & _).
  - lia.
  - lia.
  - lia.
  - reflexivity.
  - right. vm_compute. discriminate.
  - exists o'. split; [exact Hrun | exact Hlen].
Defined.

(** Outside these hypotheses: a destination too short for the last row
    panics; a source whose length is not a multiple of its stride has its
    partial last row visited as well; with both strides 0 the loop does
    not end. *)
Lemma CopyImageLines_short_destination :
  CopyImageLines (replicate 11 9) 6
    [1; 2; 3; 4; 5; 6; 7; 8; 11; 12; 13; 14; 15; 16; 17; 18] 8 = Panic.
Proof. reflexivity. Qed.

Lemma CopyImageLines_partial_last_row :
  CopyImageLines (replicate 4 9) 2 [1; 2; 3; 4; 5; 6; 7; 8; 11; 12; 13; 14] 8
  = Ret [1; 2; 11; 12].
Proof. reflexivity. Qed.

Lemma CopyImageLines_zero_strides :
  CopyImageLines (replicate 4 9) 0 [1; 2; 3; 4] 0 = OutOfFuel.
Proof. reflexivity. Qed.

End CopyLines.

(** ** More of the codec: invariants and round trips *)

Section CodecMore.
Import Color ColorMore.

Lemma UnmultiplyAlphaBytes_channels (r g b a : Z) :
  UnmultiplyAlphaBytes r g b a =
  (unmultiply_channel r a, unmultiply_channel g a, unmultiply_channel b a, a).
Proof.
  unfold UnmultiplyAlphaBytes, unmultiply_channel.
  destruct (negb (a =? 0) && negb (a =? 255)); reflexivity.
Qed.

Lemma multiply_channel_is_byte (c a : Z) :
  is_byte c -> is_byte a -> is_byte (multiply_channel c a).
Proof.
  intros Hc Ha. unfold multiply_channel.
  rewrite <- scale_channel_arith by assumption. apply byte_of_is_byte.
Qed.

(** MultiplyAlphaBytes always returns a premultiplied pixel: every colour
    channel of its output is at most the output's alpha, which is the
    input's alpha, and all four are bytes. *)
Theorem MultiplyAlphaBytes_premultiplied (r g b a : Z) :
  is_byte r -> is_byte g -> is_byte b -> is_byte a ->
  premultiplied (MultiplyAlphaBytes r g b a)
  /\ is_pixel (MultiplyAlphaBytes r g b a)
  /\ alpha_of (MultiplyAlphaBytes r g b a) = a.
Proof.
  intros Hr Hg Hb Ha.
  rewrite MultiplyAlphaBytes_arith by assumption.
  unfold premultiplied, is_pixel. cbn [red_of green_of blue_of alpha_of].
  fold (multiply_channel r a) (multiply_channel g a) (multiply_channel b a).
  assert (forall c, is_byte c -> multiply_channel c a <= a) as Hle.
  { intros c Hc. unfold multiply_channel.
    rewrite <- scale_channel_arith by assumption.
    apply scale_channel_le_alpha; assumption. }
  auto 10 using multiply_channel_is_byte.
Qed.

Lemma MultiplyAlphaBytes_premultiplied_witness :
  premultiplied (MultiplyAlphaBytes 42 87 197 0)
  /\ is_pixel (MultiplyAlphaBytes 42 87 197 0)
  /\ alpha_of (MultiplyAlphaBytes 42 87 197 0) = 0.
Proof.
  apply (MultiplyAlphaBytes_premultiplied 42 87 197 0); unfold is_byte; lia.
Defined.

Lemma unmultiply_channel_premultiplied (c a : Z) :
  0 <= c <= a -> 0 < a < 256 ->
  unmultiply_channel c a = c * 255 / a
  /\ is_byte (unmultiply_channel c a)
  /\ (unmultiply_channel c a = 255 <-> c = a).
Proof.
  intros Hc Ha.
  assert (Hq : 0 <= c * 255 / a <= 255).
  { split; [apply Z.div_pos; lia|].
    apply Z.div_le_upper_bound; [lia|nia]. }
  assert (Hfull : c * 255 / a = 255 <-> c = a).
  { split; intros H.
    - assert (a * (c * 255 / a) <= c * 255) by (apply Z.mul_div_le; lia). nia.
    - subst c. replace (a * 255) with (255 * a) by lia. apply Z.div_mul. lia. }
  assert (Heq : unmultiply_channel c a = c * 255 / a).
  { unfold unmultiply_channel.
    destruct (decide (a = 255)) as [->|Hne].
    - cbn [Z.eqb negb andb]. symmetry. apply Z.div_mul. lia.
    - rewrite guard_true by lia.
      rewrite Z.quot_div_nonneg by lia.
      apply byte_of_small. unfold is_byte. lia. }
  rewrite Heq. unfold is_byte. split; [reflexivity|]. split; [lia|exact Hfull].
Qed.

(** On a premultiplied pixel with a non-zero alpha, UnmultiplyAlphaBytes
    does not wrap: each colour channel is exactly [c * 255 / a], a byte,
    and it is 255 exactly when the channel equals the alpha. *)
Theorem UnmultiplyAlphaBytes_premultiplied_exact (r g b a : Z) :
  0 < a < 256 -> 0 <= r <= a -> 0 <= g <= a -> 0 <= b <= a ->
  UnmultiplyAlphaBytes r g b a = (r * 255 / a, g * 255 / a, b * 255 / a, a)
  /\ is_pixel (UnmultiplyAlphaBytes r g b a)
  /\ (red_of (UnmultiplyAlphaBytes r g b a) = 255 <-> r = a)
  /\ (green_of (UnmultiplyAlphaBytes r g b a) = 255 <-> g = a)
  /\ (blue_of (UnmultiplyAlphaBytes r g b a) = 255 <-> b = a).
Proof.
  intros Ha Hr Hg Hb. rewrite UnmultiplyAlphaBytes_channels.
  destruct (unmultiply_channel_premultiplied r a Hr Ha) as (Er & Br & Fr).
  destruct (unmultiply_channel_premultiplied g a Hg Ha) as (Eg & Bg & Fg).
  destruct (unmultiply_channel_premultiplied b a Hb Ha) as (Eb & Bb & Fb).
  unfold is_pixel. cbn [red_of green_of blue_of alpha_of].
  split; [rewrite Er, Eg, Eb; reflexivity|].
  split.
  { split; [exact Br|]. split; [exact Bg|]. split; [exact Bb|].
    unfold is_byte. lia. }
  auto.
Qed.

Lemma UnmultiplyAlphaBytes_premultiplied_exact_witness :
  UnmultiplyAlphaBytes 17 51 85 85 = (17 * 255 / 85, 51 * 255 / 85, 85 * 255 / 85, 85).
Proof.
  apply (UnmultiplyAlphaBytes_premultiplied_exact 17 51 85 85); lia.
Defined.

Lemma codec_checks_all :
  all_bytes (fun c => all_bytes (fun a =>
    generic_check c a && straight_check c a)) = true.
Proof. vm_compute. reflexivity. Qed.

Lemma codec_checks (c a : Z) :
  is_byte c -> is_byte a ->
  generic_check c a = true /\ straight_check c a = true.
Proof.
  intros Hc Ha.
  pose proof (all_bytes_spec _ codec_checks_all c Hc) as H1. cbv beta in H1.
  pose proof (all_bytes_spec _ H1 a Ha) as H2. cbv beta in H2.
  apply andb_true_iff in H2. exact H2.
Qed.

(** [UnmultiplyAlpha] on an 8-bit [color.RGBA]: the 16-bit alpha is
    [257 * a], so the divisor [byte(alpha >> 8)] is [a] and the guarded
    division is safe. *)
Lemma UnmultiplyAlpha_RGBA_channels (r g b a : Z) :
  is_byte r -> is_byte g -> is_byte b -> is_byte a ->
  UnmultiplyAlpha (Val (RGBA r g b a)) =
  Ret (generic_channel r a, generic_channel g a, generic_channel b a, a).
Proof.
  intros Hr Hg Hb Ha. unfold UnmultiplyAlpha.
  cbn [Color_RGBA val_RGBA mbind result_bind].
  rewrite (alpha_roundtrip a) by assumption.
  unfold generic_channel.
  destruct (decide (a = 0 \/ a = 255)) as [Hedge|Hmid].
  { replace (negb (dbl a =? 0) && negb (dbl a =? 65535)) with false
      by (destruct Hedge as [-> | ->]; reflexivity).
    replace (negb (a =? 0) && negb (a =? 255)) with false
      by (destruct Hedge as [-> | ->]; reflexivity).
    rewrite !alpha_roundtrip by assumption. reflexivity. }
  rewrite !dbl_byte by assumption.
  unfold is_byte in *.
  rewrite !guard_true by lia.
  rewrite (u32_small a) by lia.
  unfold div32. replace (a =? 0) with false by (symmetry; apply Z.eqb_neq; lia).
  cbn [mbind result_bind].
  unfold mul32. rewrite !u32_small by nia. rewrite !shiftr8.
  reflexivity.
Qed.

(** On every 8-bit color.RGBA, UnmultiplyAlpha and ToNRGBA return (the
    zero divisor of low 16-bit alphas cannot occur) with the alpha of the
    colour; on a premultiplied one each colour channel is that of
    UnmultiplyAlphaBytes or one more. *)
Theorem UnmultiplyAlpha_RGBA_close_to_bytes (r g b a : Z) :
  is_byte r -> is_byte g -> is_byte b -> is_byte a ->
  exists p,
    UnmultiplyAlpha (Val (RGBA r g b a)) = Ret p
    /\ ToNRGBA (Val (RGBA r g b a)) = Ret p
    /\ alpha_of p = a
    /\ (r <= a -> g <= a -> b <= a ->
        let q := UnmultiplyAlphaBytes r g b a in
        0 <= red_of p - red_of q <= 1
        /\ 0 <= green_of p - green_of q <= 1
        /\ 0 <= blue_of p - blue_of q <= 1).
Proof.
  intros Hr Hg Hb Ha.
  exists (generic_channel r a, generic_channel g a, generic_channel b a, a).
  split; [apply UnmultiplyAlpha_RGBA_channels; assumption|].
  split; [apply UnmultiplyAlpha_RGBA_channels; assumption|].
  split; [reflexivity|].
  intros Hra Hga Hba. rewrite UnmultiplyAlphaBytes_channels.
  cbn [red_of green_of blue_of alpha_of].
  assert (forall c, is_byte c -> c <= a ->
            0 <= generic_channel c a - unmultiply_channel c a <= 1) as Hch.
  { intros c Hc Hca. destruct (codec_checks c a Hc Ha) as [Hgen _].
    unfold generic_check in Hgen.
    apply orb_true_iff in Hgen as [Hgen|Hgen].
    - apply negb_true_iff, Z.leb_gt in Hgen. lia.
    - apply andb_true_iff in Hgen as [Hgen _].
      apply orb_true_iff in Hgen as [Hgen|Hgen]; apply Z.eqb_eq in Hgen; lia. }
  auto.
Qed.

Lemma UnmultiplyAlpha_RGBA_close_to_bytes_witness :
  exists p, ToNRGBA (Val (RGBA 17 51 68 85)) = Ret p /\ alpha_of p = 85.
Proof.
  destruct (UnmultiplyAlpha_RGBA_close_to_bytes 17 51 68 85)
    as (p & _ & Hp & Ha & _); [unfold is_byte; lia ..|].
  exists p. split; [exact Hp | exact Ha].
Defined.

(** ToNRGBA followed by MultiplyAlphaBytes restores a premultiplied 8-bit
    color.RGBA: the alpha exactly, each colour channel within 1. *)
Theorem ToNRGBA_then_multiply_restores_RGBA (r g b a : Z) :
  is_byte r -> is_byte g -> is_byte b -> is_byte a ->
  r <= a -> g <= a -> b <= a ->
  exists p,
    ToNRGBA (Val (RGBA r g b a)) = Ret p
    /\ alpha_of (on_pixel MultiplyAlphaBytes p) = a
    /\ Z.abs (red_of (on_pixel MultiplyAlphaBytes p) - r) <= 1
    /\ Z.abs (green_of (on_pixel MultiplyAlphaBytes p) - g) <= 1
    /\ Z.abs (blue_of (on_pixel MultiplyAlphaBytes p) - b) <= 1.
Proof.
  intros Hr Hg Hb Ha Hra Hga Hba.
  exists (generic_channel r a, generic_channel g a, generic_channel b a, a).
  split; [apply UnmultiplyAlpha_RGBA_channels; assumption|].
  assert (forall c, is_byte c -> is_byte (generic_channel c a)) as Hbyte.
  { intros c Hc. unfold generic_channel.
    destruct (negb (a =? 0) && negb (a =? 255)); [apply byte_of_is_byte|exact Hc]. }
  cbn [on_pixel]. rewrite MultiplyAlphaBytes_arith by auto.
  cbn [red_of green_of blue_of alpha_of]. split; [reflexivity|].
  assert (forall c, is_byte c -> c <= a ->
            Z.abs (257 * generic_channel c a * a / 255 / 256 - c) <= 1) as Hch.
  { intros c Hc Hca. destruct (codec_checks c a Hc Ha) as [Hgen _].
    unfold generic_check in Hgen.
    apply orb_true_iff in Hgen as [Hgen|Hgen].
    - apply negb_true_iff, Z.leb_gt in Hgen. lia.
    - apply andb_true_iff in Hgen as [_ Hgen].
      apply Z.leb_le in Hgen. exact Hgen. }
  auto.
Qed.

Lemma ToNRGBA_then_multiply_restores_RGBA_witness :
  exists p,
    ToNRGBA (Val (RGBA 17 51 68 85)) = Ret p
    /\ alpha_of (on_pixel MultiplyAlphaBytes p) = 85.
Proof.
  destruct (ToNRGBA_then_multiply_restores_RGBA 17 51 68 85)
    as (p & Hp & Ha & _); [unfold is_byte; lia ..| lia | lia | lia |].
  exists p. split; [exact Hp | exact Ha].
Defined.

(** A straight pixel multiplied by MultiplyAlphaBytes and unmultiplied by
    UnmultiplyAlphaBytes keeps its alpha; for a non-zero alpha no colour
    channel grows and each loses at most [(254 + a) / a]; at alpha 255
    the pixel comes back unchanged and at alpha 0 the colours are lost. *)
Theorem multiply_then_unmultiply_loss (r g b a : Z) :
  is_byte r -> is_byte g -> is_byte b -> is_byte a ->
  let back := on_pixel UnmultiplyAlphaBytes (MultiplyAlphaBytes r g b a) in
  alpha_of back = a
  /\ (a <> 0 ->
      0 <= r - red_of back <= (254 + a) / a
      /\ 0 <= g - green_of back <= (254 + a) / a
      /\ 0 <= b - blue_of back <= (254 + a) / a)
  /\ (a = 255 -> back = (r, g, b, 255))
  /\ (a = 0 -> back = (0, 0, 0, 0)).
Proof.
  intros Hr Hg Hb Ha. cbv zeta.
  rewrite MultiplyAlphaBytes_arith by assumption. cbn [on_pixel].
  rewrite UnmultiplyAlphaBytes_channels.
  cbn [red_of green_of blue_of alpha_of].
  fold (multiply_channel r a) (multiply_channel g a) (multiply_channel b a).
  split; [reflexivity|]. split; [|split].
  - intros Hnz.
    assert (forall c, is_byte c ->
              0 <= c - unmultiply_channel (multiply_channel c a) a
                <= (254 + a) / a) as Hch.
    { intros c Hc. destruct (codec_checks c a Hc Ha) as [_ Hst].
      unfold straight_check in Hst.
      apply orb_true_iff in Hst as [Hst|Hst].
      - apply Z.eqb_eq in Hst. contradiction.
      - apply andb_true_iff in Hst as [H1 H2].
        apply Z.leb_le in H1. apply Z.leb_le in H2. lia. }
    auto.
  - intros ->. unfold multiply_channel, unmultiply_channel.
    cbn [Z.eqb negb andb]. rewrite !full_alpha_channel by assumption.
    reflexivity.
  - intros ->. unfold multiply_channel, unmultiply_channel.
    cbn [Z.eqb negb andb]. rewrite !Z.mul_0_r. reflexivity.
Qed.

Lemma multiply_then_unmultiply_loss_witness :
  alpha_of (on_pixel UnmultiplyAlphaBytes (MultiplyAlphaBytes 51 153 204 85)) = 85.
Proof.
  apply (multiply_then_unmultiply_loss 51 153 204 85); unfold is_byte; lia.
Defined.

End CodecMore.

(** ** More of the colour dispatch: packing and the fast paths *)

Section NormalizerMore.
Import Color ColorMore.

Lemma high_byte_is_byte (x : Z) : is_byte (byte_of (Z.shiftr x 8)).
Proof. apply byte_of_is_byte. Qed.

Lemma UnmultiplyAlpha_is_pixel (c : Color) (p : pixel) :
  UnmultiplyAlpha c = Ret p -> is_pixel p.
Proof.
  unfold UnmultiplyAlpha. destruct (Color_RGBA c) as [[[[r g] b] a]| |];
    cbn [mbind result_bind]; try discriminate.
  destruct (negb (a =? 0) && negb (a =? 65535)).
  - destruct (div32 (mul32 r 255) _) as [qr| |]; cbn [mbind result_bind];
      try discriminate.
    destruct (div32 (mul32 g 255) _) as [qg| |]; cbn [mbind result_bind];
      try discriminate.
    destruct (div32 (mul32 b 255) _) as [qb| |]; cbn [mbind result_bind];
      try discriminate.
    intros [= <-]. split; [|split; [|split]]; apply byte_of_is_byte.
  - intros [= <-]. split; [|split; [|split]]; apply byte_of_is_byte.
Qed.

(** What ToNRGBA returns for a colour whose fields fit their types is a
    pixel of four bytes. *)
Lemma ToNRGBA_is_pixel (c : Color) (p : pixel) :
  wf_color c -> ToNRGBA c = Ret p -> is_pixel p.
Proof.
  intros Hwf Hp.
  destruct c as [v|v|k|r g b a].
  - destruct v; cbn [wf_color wf_val] in Hwf; cbn [ToNRGBA] in Hp;
      try (injection Hp as <-; unfold is_pixel;
           cbn [red_of green_of blue_of alpha_of];
           split; [|split; [|split]];
           first [apply byte_of_is_byte | tauto | unfold is_byte; lia]);
      apply (UnmultiplyAlpha_is_pixel _ _ Hp).
  - destruct v; cbn [wf_color wf_val] in Hwf; cbn [ToNRGBA] in Hp;
      try (injection Hp as <-; unfold is_pixel;
           cbn [red_of green_of blue_of alpha_of];
           split; [|split; [|split]];
           first [apply byte_of_is_byte | tauto | unfold is_byte; lia]);
      apply (UnmultiplyAlpha_is_pixel _ _ Hp).
  - destruct k; cbn [ToNRGBA] in Hp; try discriminate;
      apply (UnmultiplyAlpha_is_pixel _ _ Hp).
  - apply (UnmultiplyAlpha_is_pixel _ _ Hp).
Qed.

(** ToNRGBA_Color is idempotent under ToNRGBA: normalising the colour it
    returns gives the same four bytes as normalising the colour itself,
    and a panic of ToNRGBA is a panic of ToNRGBA_Color. *)
Theorem ToNRGBA_Color_idempotent (c : Color) :
  wf_color c ->
  (forall p, ToNRGBA c = Ret p ->
     exists c', ToNRGBA_Color c = Ret c'
                /\ wf_color c'
                /\ ToNRGBA c' = Ret p
                /\ ToNRGBA_Color c' = Ret c')
  /\ (ToNRGBA c = Panic -> ToNRGBA_Color c = Panic).
Proof.
  intros Hwf. split.
  - intros [[[r g] b] a] Hp.
    destruct (ToNRGBA_is_pixel c _ Hwf Hp) as (Hr & Hg & Hb & Ha).
    cbn [red_of green_of blue_of alpha_of] in *.
    exists (Val (NRGBA r g b a)).
    unfold ToNRGBA_Color. rewrite Hp. cbn [mbind result_bind].
    rewrite !byte_of_small by assumption.
    split; [reflexivity|]. split; [cbn; tauto|]. split; [reflexivity|].
    cbn [ToNRGBA mbind result_bind]. rewrite !byte_of_small by assumption.
    reflexivity.
  - intros Hp. unfold ToNRGBA_Color. rewrite Hp. reflexivity.
Qed.

Lemma ToNRGBA_Color_idempotent_witness :
  exists c', ToNRGBA_Color (Val (RGBA 17 51 68 85)) = Ret c'
             /\ ToNRGBA c' = Ret (51, 153, 204, 85).
Proof.
  destruct (ToNRGBA_Color_idempotent (Val (RGBA 17 51 68 85))) as [H _].
  - cbn. unfold is_byte. lia.
  - destruct (H (51, 153, 204, 85)) as (c' & Hc' & _ & Hn & _);
      [reflexivity|].
    exists c'. split; [exact Hc' | exact Hn].
Defined.

(** Or-ing a value below [2 ^ n] under a value shifted left by [n] adds
    them. *)
Lemma lor_shiftl_low (hi lo n : Z) :
  0 <= n -> 0 <= lo < 2 ^ n ->
  Z.lor (Z.shiftl hi n) lo = hi * 2 ^ n + lo.
Proof.
  intros Hn Hlo.
  assert (Hland : Z.land (Z.shiftl hi n) lo = 0).
  { apply Z.bits_inj'. intros k Hk.
    rewrite Z.land_spec, Z.bits_0.
    destruct (Z.ltb_spec k n) as [Hlt|Hge].
    - rewrite Z.shiftl_spec_low by lia. reflexivity.
    - rewrite <- (Z.mod_small lo (2 ^ n)) by lia.
      rewrite Z.mod_pow2_bits_high by lia. apply andb_false_r. }
  rewrite <- Z.lxor_lor by exact Hland.
  rewrite <- Z.add_nocarry_lxor by exact Hland.
  rewrite Z.shiftl_mul_pow2 by lia. reflexivity.
Qed.

Lemma lor_mul_low (hi lo n m : Z) :
  0 <= n -> 0 <= m -> 0 <= lo < 2 ^ n ->
  Z.lor (hi * 2 ^ (n + m)) (lo * 2 ^ m) = hi * 2 ^ (n + m) + lo * 2 ^ m.
Proof.
  intros Hn Hm Hlo.
  replace (hi * 2 ^ (n + m)) with (Z.shiftl (Z.shiftl hi n) m)
    by (rewrite !Z.shiftl_mul_pow2, Z.pow_add_r by lia; lia).
  rewrite <- (Z.shiftl_mul_pow2 lo m) by lia.
  rewrite <- Z.shiftl_lor, lor_shiftl_low by lia.
  rewrite !Z.shiftl_mul_pow2 by lia. lia.
Qed.

(** ToNRGBA_U32 packs the four bytes of ToNRGBA big-endian,
    [r * 2^24 + g * 2^16 + b * 2^8 + a], a 32-bit value from which each
    byte is read back by a shift and a mask; a panic of ToNRGBA is a
    panic of ToNRGBA_U32. *)
Theorem ToNRGBA_U32_packs_bytes (c : Color) (r g b a : Z) :
  wf_color c -> ToNRGBA c = Ret (r, g, b, a) ->
  exists u,
    ToNRGBA_U32 c = Ret u
    /\ u = r * 2 ^ 24 + g * 2 ^ 16 + b * 2 ^ 8 + a
    /\ 0 <= u < 2 ^ 32
    /\ Z.shiftr u 24 = r
    /\ Z.land (Z.shiftr u 16) 255 = g
    /\ Z.land (Z.shiftr u 8) 255 = b
    /\ Z.land u 255 = a.
Proof.
  intros Hwf Hp.
  destruct (ToNRGBA_is_pixel c _ Hwf Hp) as (Hr & Hg & Hb & Ha).
  cbn [red_of green_of blue_of alpha_of] in *. unfold is_byte in *.
  unfold ToNRGBA_U32. rewrite Hp. cbn [mbind result_bind].
  exists (r * 2 ^ 24 + g * 2 ^ 16 + b * 2 ^ 8 + a).
  split.
  { f_equal. unfold shl32.
    rewrite !(u32_small r), !(u32_small g), !(u32_small b),
      !(u32_small a) by lia.
    rewrite !Z.shiftl_mul_pow2 by lia.
    rewrite !u32_small by lia.
    change (2 ^ 24) with (2 ^ (8 + 16)).
    rewrite (lor_mul_low r g 8 16) by lia.
    replace (r * 2 ^ (8 + 16) + g * 2 ^ 16)
      with ((r * 2 ^ 8 + g) * 2 ^ (8 + 8)) by lia.
    rewrite (lor_mul_low (r * 2 ^ 8 + g) b 8 8) by lia.
    replace ((r * 2 ^ 8 + g) * 2 ^ (8 + 8) + b * 2 ^ 8)
      with ((r * 2 ^ 16 + g * 2 ^ 8 + b) * 2 ^ (8 + 0)) by lia.
    rewrite <- (Z.mul_1_r a) at 1. change 1 with (2 ^ 0) at 1.
    rewrite (lor_mul_low (r * 2 ^ 16 + g * 2 ^ 8 + b) a 8 0) by lia.
    lia. }
  split; [reflexivity|]. split; [lia|].
  rewrite !Z.shiftr_div_pow2 by lia.
  change 255 with (Z.ones 8). rewrite !Z.land_ones by lia.
  split; [|split; [|split]]; Z.div_mod_to_equations; lia.
Qed.

Lemma ToNRGBA_U32_packs_bytes_witness :
  exists u, ToNRGBA_U32 (Val (NRGBA 222 173 190 239)) = Ret u
            /\ u = 3735928559.
Proof.
  destruct (ToNRGBA_U32_packs_bytes (Val (NRGBA 222 173 190 239)) 222 173 190 239)
    as (u & Hu & Hval & _).
  - cbn. unfold is_byte. lia.
  - reflexivity.
  - exists u. split; [exact Hu|]. rewrite Hval. reflexivity.
Defined.

End NormalizerMore.

(** ** The fast paths of ToNRGBA against the generic path *)

Section FastPaths.
Import Color ColorMore.

Lemma generic_channel_full (a : Z) :
  is_byte a -> a <> 0 -> generic_channel a a = 255.
Proof.
  intros Ha Hnz.
  assert (H : (a =? 0) || (generic_channel a a =? 255) = true).
  { clear Hnz. revert a Ha. apply all_bytes_spec. vm_compute. reflexivity. }
  apply orb_true_iff in H as [H|H]; apply Z.eqb_eq in H;
    [contradiction|exact H].
Qed.

(** The special cases of ToNRGBA for color.Gray, color.Gray16 and, for a
    non-zero alpha, color.Alpha return what UnmultiplyAlpha returns for
    the same colour; for color.Alpha{0} they differ: ToNRGBA keeps the
    white colour channels, UnmultiplyAlpha returns (0,0,0,0). *)
Theorem ToNRGBA_fast_paths_agree_with_generic (y y16 a : Z) :
  is_byte y -> is_u16 y16 -> is_byte a ->
  ToNRGBA (Val (Gray y)) = UnmultiplyAlpha (Val (Gray y))
  /\ ToNRGBA (Val (Gray16 y16)) = UnmultiplyAlpha (Val (Gray16 y16))
  /\ (a <> 0 -> ToNRGBA (Val (Alpha a)) = UnmultiplyAlpha (Val (Alpha a)))
  /\ ToNRGBA (Val (Alpha 0)) = Ret (255, 255, 255, 0)
  /\ UnmultiplyAlpha (Val (Alpha 0)) = Ret (0, 0, 0, 0).
Proof.
  intros Hy Hy16 Ha.
  split; [|split; [|split; [|split; reflexivity]]].
  - unfold UnmultiplyAlpha.
    cbn [Color_RGBA val_RGBA mbind result_bind ToNRGBA].
    cbn [Z.eqb negb andb Pos.eqb]. rewrite alpha_roundtrip by assumption.
    reflexivity.
  - unfold UnmultiplyAlpha.
    cbn [Color_RGBA val_RGBA mbind result_bind ToNRGBA].
    cbn [Z.eqb negb andb Pos.eqb]. unfold is_u16 in Hy16.
    rewrite u32_small by lia. reflexivity.
  - intros Hnz.
    change (UnmultiplyAlpha (Val (Alpha a)))
      with (UnmultiplyAlpha (Val (RGBA a a a a))).
    rewrite UnmultiplyAlpha_RGBA_channels by assumption.
    rewrite generic_channel_full by assumption. reflexivity.
Qed.

Lemma ToNRGBA_fast_paths_agree_with_generic_witness :
  ToNRGBA (Val (Gray 200)) = UnmultiplyAlpha (Val (Gray 200))
  /\ ToNRGBA (Val (Alpha 128)) = UnmultiplyAlpha (Val (Alpha 128)).
Proof.
  destruct (ToNRGBA_fast_paths_agree_with_generic 200 4660 128)
    as (Hg & _ & Ha & _);
    [unfold is_byte; lia | unfold is_u16; lia | unfold is_byte; lia |].
  split; [exact Hg | apply Ha; lia].
Defined.

End FastPaths.

Section BufferCopies.
Import Color Image ImageMore.
Context `{L : ImageLib}.

Lemma len_replicate (n : Z) (x : Z) : 0 <= n -> len (replicate (Z.to_nat n) x) = n.
Proof. intros Hn. unfold len. rewrite length_replicate. lia. Qed.

Lemma copy_lines_equal_strides (oPix iPix : list Z) (stride rows : Z) :
  0 < stride -> 0 <= rows ->
  len iPix = rows * stride -> len iPix <= len oPix ->
  CopyImageLines oPix stride iPix stride = Ret (go_copy oPix iPix).
Proof.
  intros Hs Hrows Hlen Hfit. unfold CopyImageLines. rewrite Min_spec.
  replace (Z.min stride stride) with stride by lia.
  destruct (copy_rows_spec stride stride stride iPix
              ltac:(lia) ltac:(lia) ltac:(lia) Hs
              (Z.to_nat rows) (S (length iPix + length oPix)) oPix 0)
    as (o' & Hrun & Hlen' & Hwin & Hframe).
  { unfold len in Hlen. nia. }
  { lia. }
  { rewrite Hlen. lia. }
  { destruct (decide (rows = 0)) as [->|Hnz]; [left; reflexivity|right]. nia. }
  change (0 * stride) with 0 in Hrun. rewrite Hrun. f_equal.
  unfold go_copy, len in *.
  replace (Nat.min (length oPix) (length iPix)) with (length iPix) by lia.
  rewrite take_ge by lia.
  apply list_eq. intros i.
  destruct (decide (i < length iPix)%nat) as [Hin|Hout].
  - rewrite lookup_app_l by lia.
    replace i with (Z.to_nat (Z.of_nat i)) at 1 by lia.
    rewrite (Hwin (Z.of_nat i / stride) (Z.of_nat i)).
    + f_equal. lia.
    + split; [apply Z.div_pos; lia|].
      rewrite Z2Nat.id by lia. apply Z.div_lt_upper_bound; lia.
    + pose proof (Z.mul_div_le (Z.of_nat i) stride Hs).
      pose proof (Z.mul_succ_div_gt (Z.of_nat i) stride Hs). lia.
  - rewrite lookup_app_r by lia. rewrite lookup_drop.
    replace (length iPix + (i - length iPix))%nat with i by lia.
    replace i with (Z.to_nat (Z.of_nat i)) by lia.
    apply Hframe; [lia|].
    intros r Hr Hwin'. nia.
Qed.

Lemma Rect_origin (w h : Z) :
  0 <= w -> 0 <= h ->
  Rect 0 0 w h = mkRectangle (mkPoint 0 0) (mkPoint w h).
Proof.
  intros Hw Hh. unfold Rect.
  replace (0 >? w) with false by (rewrite Z.gtb_ltb; symmetry; apply Z.ltb_ge; lia).
  replace (0 >? h) with false by (rewrite Z.gtb_ltb; symmetry; apply Z.ltb_ge; lia).
  reflexivity.
Qed.

Lemma NewPixImage_origin (w h : Z) :
  0 <= w -> 0 <= h ->
  NewPixImage (Rect 0 0 w h)
  = Ret (mkPixImage (replicate (Z.to_nat (4 * w * h)) 0) (4 * w) (Rect 0 0 w h)).
Proof.
  intros Hw Hh. rewrite Rect_origin by assumption.
  unfold NewPixImage, Dx, Dy. cbn [Min_ Max_ X Y].
  rewrite !Z.sub_0_r.
  replace (w <? 0) with false by (symmetry; apply Z.ltb_ge; lia).
  replace (h <? 0) with false by (symmetry; apply Z.ltb_ge; lia).
  reflexivity.
Qed.

(** The copy of a buffer image made by [copy_buffer] into a fresh image
    at the origin. *)
Lemma copy_buffer_rows (p : PixImage) :
  buffer_image p ->
  let w := Dx (PRect p) in
  let h := Dy (PRect p) in
  exists q,
    (oImg ← NewPixImage (Rect 0 0 w h); copy_buffer p oImg) = Ret q
    /\ PRect q = Rect 0 0 w h
    /\ Stride q = 4 * w
    /\ len (Pix q) = 4 * w * h
    /\ (forall k j, 0 <= k < h -> 0 <= j < 4 * w ->
          exists v, Pix p !! Z.to_nat (k * Stride p + j) = Some v
                    /\ Pix q !! Z.to_nat (k * (4 * w) + j) = Some v)
    /\ (Stride p = 4 * w -> Pix q = Pix p).
Proof.
  intros (Hw & Hh & Hs & Hlen). cbv zeta.
  set (w := Dx (PRect p)) in *. set (h := Dy (PRect p)) in *.
  rewrite NewPixImage_origin by assumption. cbn [mbind result_bind].
  unfold copy_buffer. cbn [Stride Pix].
  assert (Hlo : len (replicate (Z.to_nat (4 * w * h)) 0) = 4 * w * h)
    by (apply len_replicate; nia).
  destruct (Z.eqb_spec (Stride p) (4 * w)) as [Heq|Hne].
  - assert (Hcopy : go_copy (replicate (Z.to_nat (4 * w * h)) 0) (Pix p) = Pix p).
    { apply go_copy_same_length. unfold len in *. nia. }
    rewrite Hcopy. eexists. split; [reflexivity|].
    unfold with_Pix. cbn [PRect Stride Pix].
    split; [reflexivity|]. split; [reflexivity|].
    split; [rewrite Hlen, Heq; lia|].
    split; [|reflexivity].
    intros k j Hk Hj.
    assert (Hin : (Z.to_nat (k * Stride p + j) < length (Pix p))%nat)
      by (unfold len in Hlen; nia).
    destruct (lookup_lt_is_Some_2 _ _ Hin) as [v Hv].
    exists v. split; [exact Hv|]. rewrite <- Heq. exact Hv.
  - unfold CopyImageLines. rewrite Min_spec.
    replace (Z.min (4 * w) (Stride p)) with (4 * w) by lia.
    destruct (copy_rows_spec (4 * w) (Stride p) (4 * w) (Pix p)
                ltac:(lia) ltac:(lia) ltac:(lia) ltac:(lia)
                (Z.to_nat h)
                (S (length (Pix p)
                    + length (replicate (Z.to_nat (4 * w * h)) 0)))
                (replicate (Z.to_nat (4 * w * h)) 0) 0)
      as (o' & Hrun & Hlen' & Hwin & Hframe).
    { unfold len in Hlen. nia. }
    { lia. }
    { rewrite Hlen. f_equal. lia. }
    { destruct (decide (h = 0)) as [Hz|Hnz]; [left; lia|right].
      rewrite Hlo. nia. }
    change (0 * Stride p) with 0 in Hrun. change (0 * (4 * w)) with 0 in Hrun.
    rewrite Hrun. cbn [mbind result_bind].
    eexists. split; [reflexivity|].
    unfold with_Pix. cbn [PRect Stride Pix].
    split; [reflexivity|]. split; [reflexivity|].
    split; [unfold len in *; rewrite Hlen'; exact Hlo|].
    split; [|intros Heq; contradiction].
    intros k j Hk Hj.
    assert (Hin : (Z.to_nat (k * Stride p + j) < length (Pix p))%nat)
      by (unfold len in Hlen; nia).
    destruct (lookup_lt_is_Some_2 _ _ Hin) as [v Hv].
    exists v. split; [exact Hv|].
    rewrite (Hwin k (k * (4 * w) + j)) by lia.
    rewrite <- Hv. f_equal. lia.
Qed.

(** CopyImage on an [*image.RGBA] or [*image.NRGBA] whose rows are whole
    returns an image of the same kind, with bounds moved to the origin,
    stride [4 * width] and, in each row, the first [4 * width] bytes of
    the source row; with a source stride of [4 * width] the pixel buffer
    is the source's. *)
Theorem CopyImage_buffer_image (p : PixImage) (nrgba mipmaps : bool) :
  buffer_image p ->
  let w := Dx (PRect p) in
  let h := Dy (PRect p) in
  let kind := if nrgba then NRGBAImg else RGBAImg in
  exists q,
    CopyImage (kind (Some p)) mipmaps = Ret (kind (Some q))
    /\ PRect q = Rect 0 0 w h
    /\ Stride q = 4 * w
    /\ len (Pix q) = 4 * w * h
    /\ (forall k j, 0 <= k < h -> 0 <= j < 4 * w ->
          exists v, Pix p !! Z.to_nat (k * Stride p + j) = Some v
                    /\ Pix q !! Z.to_nat (k * (4 * w) + j) = Some v)
    /\ (Stride p = 4 * w -> Pix q = Pix p).
Proof.
  intros Hbuf. cbv zeta.
  destruct (copy_buffer_rows p Hbuf) as (q & Hrun & Hq).
  exists q. split; [|exact Hq].
  unfold CopyImage.
  destruct nrgba; cbn [Bounds mbind result_bind];
    fold (Dx (PRect p)); fold (Dy (PRect p));
    (destruct (NewPixImage _) as [o| |]; cbn [mbind result_bind] in *;
       [rewrite Hrun; reflexivity | discriminate Hrun | discriminate Hrun]).
Qed.

(** With the same stride on both sides and whole rows in the source,
    CopyImageLines is the whole-buffer [copy]: the fast path and the line
    copy of CopyImage give the same buffer. *)
Theorem CopyImageLines_equal_strides_is_copy
    (oPix iPix : list Z) (stride rows : Z) :
  0 < stride -> 0 <= rows ->
  len iPix = rows * stride -> len iPix <= len oPix ->
  CopyImageLines oPix stride iPix stride = Ret (go_copy oPix iPix).
Proof. apply copy_lines_equal_strides. Qed.

Lemma CopyImageLines_equal_strides_is_copy_witness :
  CopyImageLines (replicate 10 9) 4 [1; 2; 3; 4; 5; 6; 7; 8] 4
  = Ret [1; 2; 3; 4; 5; 6; 7; 8; 9; 9].
Proof.
  apply (CopyImageLines_equal_strides_is_copy (replicate 10 9)
           [1; 2; 3; 4; 5; 6; 7; 8] 4 2).
  - lia.
  - lia.
  - reflexivity.
  - vm_compute. discriminate.
Defined.

(** NewImageFromEImage returns an [*image.RGBA] at the origin, of stride
    [4 * width], whose pixel buffer is exactly the bytes ReadPixels put
    in the buffer of [4 * width * height] bytes; a nil image panics. *)
Theorem NewImageFromEImage_holds_read_pixels (e : EImage) (px : list Z) :
  let w := Dx (eBounds e) in
  let h := Dy (eBounds e) in
  0 < w -> 0 <= h ->
  eReadPixels e (replicate (Z.to_nat (4 * w * h)) 0) = Ret px ->
  len px = 4 * w * h ->
  NewImageFromEImage (Some e) = Ret (mkPixImage px (4 * w) (Rect 0 0 w h))
  /\ NewImageFromEImage None = Panic.
Proof.
  cbv zeta. intros Hw Hh Hread Hlen. split; [|reflexivity].
  unfold NewImageFromEImage. cbn [Bounds mbind result_bind].
  fold (Dx (eBounds e)); fold (Dy (eBounds e)).
  set (w := Dx (eBounds e)) in *. set (h := Dy (eBounds e)) in *.
  rewrite NewPixImage_origin by lia. cbn [mbind result_bind].
  unfold make_bytes.
  replace (4 * w * h <? 0) with false by (symmetry; apply Z.ltb_ge; nia).
  cbn [mbind result_bind deref_ebiten]. rewrite Hread.
  cbn [mbind result_bind Pix Stride].
  rewrite Z.shiftl_mul_pow2 by lia.
  replace (w * 2 ^ 2) with (4 * w) by lia.
  rewrite (copy_lines_equal_strides _ px (4 * w) h)
    by (rewrite ?len_replicate by nia; lia).
  cbn [mbind result_bind]. unfold with_Pix. cbn [Stride PRect].
  rewrite go_copy_same_length
    by (rewrite length_replicate; unfold len in Hlen; nia).
  reflexivity.
Qed.

End BufferCopies.

Section BufferCopyExamples.
Import Color Image ImageMore.

Lemma CopyImage_buffer_image_witness :
  exists q,
    CopyImage (L := sample_lib) (RGBAImg (Some padded_rgba)) false
      = Ret (RGBAImg (Some q))
    /\ Stride q = 8
    /\ len (Pix q) = 16.
Proof.
  destruct (CopyImage_buffer_image (L := sample_lib) padded_rgba false false)
    as (q & Hrun & _ & Hs & Hl & _).
  - unfold buffer_image. repeat split; vm_compute;
      first [reflexivity | intros H; discriminate H].
  - exists q. split; [exact Hrun|]. split; [exact Hs | exact Hl].
Defined.

Lemma NewImageFromEImage_holds_read_pixels_witness :
  NewImageFromEImage (L := sample_lib) (Some tight_rgba)
  = Ret (mkPixImage [1; 2; 3; 4; 5; 6; 7; 8] 8 (Rect 0 0 2 1)).
Proof.
  apply (NewImageFromEImage_holds_read_pixels (L := sample_lib) tight_rgba
           [1; 2; 3; 4; 5; 6; 7; 8]).
  - vm_compute. reflexivity.
  - vm_compute. intros H. discriminate H.
  - reflexivity.
  - reflexivity.
Defined.

End BufferCopyExamples.

(** ** util.go: numbers, search, Map and CenterString *)

Section UtilBasics.
Import Image Util.

Lemma wrap_int_id (bits x : Z) : 0 < bits -> in_int bits x -> wrap_int bits x = x.
Proof.
  unfold in_int, wrap_int. intros Hb Hx.
  assert (E : 2 ^ bits = 2 * 2 ^ (bits - 1)).
  { replace bits with (Z.succ (bits - 1)) at 1 by lia.
    apply Z.pow_succ_r. lia. }
  rewrite Z.mod_small by lia. lia.
Qed.

(** Abs returns the absolute value, which is not negative, for every
    value of a signed type except the least one, [- 2 ^ (bits - 1)]; for
    that one the negation wraps and Abs returns it unchanged, a negative
    number. *)
Theorem Abs_except_min_int (bits x : Z) :
  0 < bits -> in_int bits x ->
  in_int bits (Abs bits x)
  /\ (x <> - 2 ^ (bits - 1) -> Abs bits x = Z.abs x /\ 0 <= Abs bits x)
  /\ (x = - 2 ^ (bits - 1) -> Abs bits x = x /\ Abs bits x < 0).
Proof.
  intros Hb Hx.
  assert (Hpow : 0 < 2 ^ (bits - 1)) by (apply Z.pow_pos_nonneg; lia).
  assert (E : 2 ^ bits = 2 * 2 ^ (bits - 1)).
  { replace bits with (Z.succ (bits - 1)) at 1 by lia.
    apply Z.pow_succ_r. lia. }
  unfold in_int in *.
  assert (Hmin : Abs bits (- 2 ^ (bits - 1)) = - 2 ^ (bits - 1)).
  { unfold Abs. replace (- 2 ^ (bits - 1) <? 0) with true
      by (symmetry; apply Z.ltb_lt; lia).
    unfold wrap_int. rewrite Z.opp_involutive.
    replace (2 ^ (bits - 1) + 2 ^ (bits - 1)) with (1 * 2 ^ bits) by lia.
    rewrite Z.mod_mul by lia. lia. }
  assert (Hother : x <> - 2 ^ (bits - 1) -> Abs bits x = Z.abs x).
  { intros Hne. unfold Abs. destruct (Z.ltb_spec x 0).
    - rewrite wrap_int_id by (unfold in_int; lia). lia.
    - lia. }
  destruct (decide (x = - 2 ^ (bits - 1))) as [->|Hne].
  - rewrite Hmin. split; [lia|]. split; [intros H; contradiction|]. lia.
  - rewrite (Hother Hne). split; [lia|]. split; [lia|]. intros H. contradiction.
Qed.

Lemma Abs_except_min_int_witness :
  Abs 8 (-128) = -128 /\ Abs 8 (-127) = 127.
Proof.
  destruct (Abs_except_min_int 8 (-128)) as (_ & _ & Hmin);
    [lia | unfold in_int; lia |].
  destruct (Abs_except_min_int 8 (-127)) as (_ & Hok & _);
    [lia | unfold in_int; lia |].
  split; [apply Hmin; reflexivity | apply Hok; lia].
Defined.

Lemma search_from_spec (ax : list (list Z)) (x : list Z) (i d : Z) :
  (x ∈ ax ->
   exists k : nat,
     search_from ax x i d = i + Z.of_nat k
     /\ ax !! k = Some x
     /\ forall j : nat, (j < k)%nat -> ax !! j <> Some x)
  /\ (x ∉ ax -> search_from ax x i d = d).
Proof.
  revert i. induction ax as [|a rest IH]; intros i.
  - split; [intros H; inversion H | reflexivity].
  - cbn [search_from]. destruct (decide (a = x)) as [->|Hne].
    + split.
      * intros _. exists 0%nat. split; [lia|]. split; [reflexivity|].
        intros j Hj. lia.
      * intros Hnot. exfalso. apply Hnot. left.
    + destruct (IH (i + 1)) as [IHin IHout]. split.
      * intros Hin. apply elem_of_cons in Hin as [Heq|Hin]; [congruence|].
        destruct (IHin Hin) as (k & Hk & Hlook & Hfirst).
        exists (S k). split; [lia|]. split; [exact Hlook|].
        intros [|j] Hj; cbn; [congruence|]. apply Hfirst. lia.
      * intros Hnot. apply IHout. intros Hin. apply Hnot. right. exact Hin.
Qed.

(** SearchStringsUnsorted returns the index of the first element equal to
    [x] when there is one, and [defaultValue] when there is none. *)
Theorem SearchStringsUnsorted_first_index
    (ax : list (list Z)) (x : list Z) (defaultValue : Z) :
  (x ∈ ax ->
   exists k : nat,
     SearchStringsUnsorted ax x defaultValue = Z.of_nat k
     /\ ax !! k = Some x
     /\ forall j : nat, (j < k)%nat -> ax !! j <> Some x)
  /\ (x ∉ ax -> SearchStringsUnsorted ax x defaultValue = defaultValue).
Proof.
  unfold SearchStringsUnsorted.
  destruct (search_from_spec ax x 0 defaultValue) as [Hin Hout].
  split; [|exact Hout].
  intros H. destruct (Hin H) as (k & Hk & Hrest).
  exists k. split; [lia | exact Hrest].
Qed.

Lemma SearchStringsUnsorted_first_index_witness :
  SearchStringsUnsorted [[97]; [98]; [97]] [99] (-1) = -1.
Proof.
  apply (SearchStringsUnsorted_first_index [[97]; [98]; [97]] [99] (-1)).
  intros H. repeat (apply elem_of_cons in H as [H|H]; [discriminate H|]).
  inversion H.
Defined.

Lemma map_loop_spec {T U : Type} (f : T -> U) (xs : list T)
    (done todo : list U) :
  length todo = length xs ->
  map_loop f xs (length done) (done ++ todo) = done ++ map f xs.
Proof.
  revert done todo. induction xs as [|x rest IH]; intros done todo Hlen.
  - destruct todo; [reflexivity|discriminate].
  - destruct todo as [|z todo]; [discriminate|].
    cbn [map_loop map].
    replace (<[length done := f x]> (done ++ z :: todo))
      with ((done ++ [f x]) ++ todo).
    + replace (S (length done)) with (length (done ++ [f x]))
        by (rewrite length_app; cbn; lia).
      rewrite IH by (cbn in Hlen; lia).
      rewrite <- app_assoc. reflexivity.
    + rewrite insert_app_r_alt by lia.
      rewrite Nat.sub_diag. cbn. rewrite <- app_assoc. reflexivity.
Qed.

Lemma Map_is_map {T U : Type} (zero : U) (f : T -> U) (xs : list T) :
  Map zero f xs = map f xs.
Proof.
  unfold Map.
  apply (map_loop_spec f xs [] (replicate (length xs) zero)).
  apply length_replicate.
Qed.

(** Map returns a slice of the length of its input whose element [i] is
    [f] of the input's element [i], whatever the zero value the slice was
    made with; mapping a composition is mapping twice, and mapping a
    partial application applies the function with the fixed argument. *)
Theorem Map_pointwise_and_compose {T U R : Type} (zero : U) (zeroT : T)
    (f : T -> U) (g h : T -> T) (k : T -> R -> U) (r : R) (xs : list T) :
  length (Map zero f xs) = length xs
  /\ (forall i x, xs !! i = Some x -> Map zero f xs !! i = Some (f x))
  /\ Map zeroT (Compose g h) xs = Map zeroT g (Map zeroT h xs)
  /\ Map zero (Partial2to1 k r) xs = map (fun t => k t r) xs.
Proof.
  rewrite !Map_is_map. split; [apply length_map|]. split; [|split].
  - intros i x Hx. rewrite list_lookup_fmap, Hx. reflexivity.
  - unfold Compose. rewrite <- list_fmap_compose. reflexivity.
  - reflexivity.
Qed.

Lemma write_spaces_spec (count : nat) (sb : list Z) :
  write_spaces count sb = sb ++ replicate count 32.
Proof.
  revert sb. induction count as [|k IH]; intros sb; cbn [write_spaces replicate].
  - rewrite app_nil_r. reflexivity.
  - rewrite IH, <- app_assoc. reflexivity.
Qed.

Lemma blen_app (a b : list Z) : blen (a ++ b) = blen a + blen b.
Proof.
  induction a as [|r a IH]; cbn; [reflexivity|].
  unfold blen in *. cbn. rewrite IH. lia.
Qed.

Lemma blen_spaces (n : nat) : blen (replicate n 32) = Z.of_nat n.
Proof.
  induction n as [|k IH]; [reflexivity|].
  cbn [replicate]. change (32 :: replicate k 32) with ([32] ++ replicate k 32).
  rewrite blen_app, IH. unfold blen. cbn. lia.
Qed.

Lemma rune_len_pos (r : Z) : 1 <= rune_len r <= 4.
Proof.
  unfold rune_len.
  destruct (r <? 128); [lia|]. destruct (r <? 2048); [lia|].
  destruct (r <? 65536); lia.
Qed.

(** A string has at least as many bytes as runes. *)
Lemma blen_ge_length (s : list Z) : Z.of_nat (length s) <= blen s.
Proof.
  induction s as [|r s IH]; [reflexivity|].
  change (r :: s) with ([r] ++ s). rewrite blen_app, length_app.
  pose proof (rune_len_pos r). unfold blen at 1. cbn. lia.
Qed.

(** CenterString at an [int] of [bits] bits, on a string whose length is
    an [int]: when [desiredLen - len(str)] does not wrap, it returns a
    string of [max(len(str), desiredLen)] bytes, [str] itself when it is
    long enough and otherwise [str] between [diff / 2] spaces on the left
    and the remaining spaces on the right, as many or one more; when the
    subtraction wraps, [diff] is positive, [desiredLen] negative and
    [sb.Grow] panics. *)
Theorem CenterString_pads_to_length (bits : Z) (str : list Z) (desiredLen : Z) :
  0 < bits -> in_int bits desiredLen -> len str < 2 ^ (bits - 1) ->
  (- 2 ^ (bits - 1) <= desiredLen - len str ->
   exists out,
     CenterString bits str desiredLen = Ret out
     /\ len out = Z.max (len str) desiredLen
     /\ (desiredLen <= len str -> out = str)
     /\ (len str < desiredLen ->
         exists l r : nat,
           out = replicate l 32 ++ str ++ replicate r 32
           /\ Z.of_nat l = (desiredLen - len str) / 2
           /\ Z.of_nat l + Z.of_nat r = desiredLen - len str
           /\ (r = l \/ r = S l)))
  /\ (desiredLen - len str < - 2 ^ (bits - 1) ->
      CenterString bits str desiredLen = Panic).
Proof.
  intros Hb Hd Hlen.
  assert (Hpow : 0 < 2 ^ (bits - 1)) by (apply Z.pow_pos_nonneg; lia).
  assert (E : 2 ^ bits = 2 * 2 ^ (bits - 1)).
  { replace bits with (Z.succ (bits - 1)) at 1 by lia.
    apply Z.pow_succ_r. lia. }
  assert (Hnn : 0 <= len str) by (unfold len; lia).
  unfold in_int in Hd. split.
  - intros Hfit. unfold CenterString.
    rewrite wrap_int_id by (unfold in_int; lia).
    set (diff := desiredLen - len str) in *.
    destruct (Z.gtb_spec diff 0) as [Hpos|Hle].
    + replace (desiredLen <? 0) with false by (symmetry; apply Z.ltb_ge; lia).
      rewrite !write_spaces_spec. cbn [app].
      rewrite Z.shiftr_div_pow2 by lia. change (2 ^ 1) with 2.
      change 1 with (Z.ones 1) at 1. rewrite Z.land_ones by lia.
      change (2 ^ 1) with 2.
      assert (0 <= diff / 2) by (apply Z.div_pos; lia).
      assert (Hsum : forall l r : nat,
                len (replicate l 32 ++ str ++ replicate r 32)
                = Z.of_nat l + len str + Z.of_nat r).
      { intros l r. unfold len.
        rewrite !length_app, !length_replicate. lia. }
      destruct (Z.eqb_spec (diff mod 2) 1) as [Hodd|Heven].
      * exists (replicate (Z.to_nat (diff / 2)) 32 ++ str
                ++ replicate (S (Z.to_nat (diff / 2))) 32).
        split.
        { f_equal. rewrite <- !app_assoc. f_equal. f_equal.
          change [32] with (replicate 1 32).
          rewrite <- replicate_add. f_equal. lia. }
        split; [rewrite Hsum; Z.div_mod_to_equations; lia|].
        split; [intros Hge; lia|]. intros _.
        exists (Z.to_nat (diff / 2)), (S (Z.to_nat (diff / 2))).
        split; [reflexivity|]. split; [lia|].
        split; [|right; reflexivity].
        Z.div_mod_to_equations. lia.
      * exists (replicate (Z.to_nat (diff / 2)) 32 ++ str
                ++ replicate (Z.to_nat (diff / 2)) 32).
        split; [f_equal; rewrite <- !app_assoc; reflexivity|].
        split; [rewrite Hsum; Z.div_mod_to_equations; lia|].
        split; [intros Hge; lia|]. intros _.
        exists (Z.to_nat (diff / 2)), (Z.to_nat (diff / 2)).
        split; [reflexivity|]. split; [lia|].
        split; [|left; reflexivity].
        Z.div_mod_to_equations. lia.
    + exists str. split; [reflexivity|]. split; [lia|].
      split; [reflexivity|]. intros Hlt. lia.
  - intros Hwrap. unfold CenterString.
    assert (Hw : wrap_int bits (desiredLen - len str)
                 = desiredLen - len str + 2 ^ bits).
    { unfold wrap_int.
      replace (desiredLen - len str + 2 ^ (bits - 1))
        with (desiredLen - len str + 2 ^ (bits - 1) + 2 ^ bits
              + (-1) * 2 ^ bits) by lia.
      rewrite Z.mod_add by lia. rewrite Z.mod_small by lia. lia. }
    rewrite Hw.
    replace (desiredLen - len str + 2 ^ bits >? 0) with true
      by (symmetry; rewrite Z.gtb_ltb; apply Z.ltb_lt; lia).
    replace (desiredLen <? 0) with true by (symmetry; apply Z.ltb_lt; lia).
    reflexivity.
Qed.

Lemma CenterString_pads_to_length_witness :
  (exists out,
     CenterString 64 [104; 105] 5 = Ret out
     /\ len out = Z.max (len [104; 105]) 5
     /\ (5 <= len [104; 105] -> out = [104; 105])
     /\ (len [104; 105] < 5 ->
         exists l r : nat,
           out = replicate l 32 ++ [104; 105] ++ replicate r 32
           /\ Z.of_nat l = (5 - len [104; 105]) / 2
           /\ Z.of_nat l + Z.of_nat r = 5 - len [104; 105]
           /\ (r = l \/ r = S l)))
  /\ CenterString 64 [104; 105] (- 2 ^ 63) = Panic.
Proof.
  split.
  - apply (CenterString_pads_to_length 64 [104; 105] 5);
      first [ lia | (unfold in_int; lia)
            | (vm_compute; first [reflexivity | intros H; discriminate H]) ].
  - apply (CenterString_pads_to_length 64 [104; 105] (- 2 ^ 63));
      first [ lia | (unfold in_int; lia)
            | (vm_compute; first [reflexivity | intros H; discriminate H]) ].
Defined.

End UtilBasics.

(** ** util.go: EscapeStr and UnescapeStr *)

Section Escaping.
Import Image Util UtilStrings.

Lemma sub_empty (rx : list Z) (i : Z) : sub rx i i = [].
Proof. unfold sub. rewrite Z.sub_diag. reflexivity. Qed.

Lemma sub_extend (rx : list Z) (start : Z) (i : nat) (r : Z) :
  0 <= start <= Z.of_nat i -> rx !! i = Some r ->
  sub rx start (Z.of_nat i + 1) = sub rx start (Z.of_nat i) ++ [r].
Proof.
  intros Hs Hr. unfold sub.
  replace (Z.to_nat (Z.of_nat i + 1 - start))
    with (S (Z.to_nat (Z.of_nat i - start))) by lia.
  apply take_S_r. rewrite lookup_drop. rewrite <- Hr. f_equal. lia.
Qed.

Lemma sub_to_end (rx : list Z) (start : Z) :
  0 <= start -> sub rx start (len rx) = drop (Z.to_nat start) rx.
Proof.
  intros Hs. unfold sub. apply take_ge. rewrite length_drop. unfold len. lia.
Qed.

Lemma flush_sub (rx sb : list Z) (start hi : Z) :
  0 <= start <= hi -> hi <= len rx ->
  flush rx sb start hi = Ret (sb ++ sub rx start hi).
Proof.
  intros Hs Hhi. unfold flush.
  destruct (Z.gtb_spec hi start) as [Hgt|Hle].
  - rewrite slice_Ret by lia. reflexivity.
  - replace hi with start by lia. rewrite sub_empty, app_nil_r. reflexivity.
Qed.

Lemma flush_tail_drop (x sb : list Z) (start : Z) :
  0 <= start <= len x ->
  flush_tail x sb start = Ret (sb ++ drop (Z.to_nat start) x).
Proof.
  intros Hs. unfold flush_tail.
  pose proof (blen_ge_length x) as Hb. fold (len x) in Hb.
  destruct (Z.ltb_spec start (blen x)) as [Hlt|Hge].
  - rewrite slice_Ret by lia. cbn [mbind result_bind].
    fold (sub x start (len x)). rewrite sub_to_end by lia. reflexivity.
  - rewrite drop_ge by (unfold len in *; lia). rewrite app_nil_r. reflexivity.
Qed.

Lemma drop_head (rx : list Z) (i : nat) (r : Z) (rest : list Z) :
  drop i rx = r :: rest ->
  rx !! i = Some r /\ drop (S i) rx = rest /\ (i < length rx)%nat.
Proof.
  intros Hd.
  assert (Hr : rx !! i = Some r).
  { rewrite <- (Nat.add_0_r i), <- lookup_drop, Hd. reflexivity. }
  split; [exact Hr|]. split.
  - rewrite (drop_S _ _ _ Hr) in Hd. congruence.
  - apply lookup_lt_Some in Hr. exact Hr.
Qed.

(** The loop of EscapeStr from rune [i] on: what has been written, with
    the runes not yet flushed and the escaped rest, is what the end of the
    function writes. *)
Lemma escape_loop_spec (rx : list Z) (sep : Z) :
  forall (rest : list Z) (i : nat) (sb : list Z) (start : Z),
    drop i rx = rest -> (i <= length rx)%nat -> 0 <= start <= Z.of_nat i ->
    exists sb' start',
      escape_loop rx sep rest (Z.of_nat i) sb start = Ret (sb', start')
      /\ 0 <= start' <= len rx
      /\ sb' ++ drop (Z.to_nat start') rx
         = sb ++ sub rx start (Z.of_nat i) ++ escaped sep rest.
Proof.
  induction rest as [|r rest IH]; intros i sb start Hdrop Hi Hstart.
  - exists sb, start. cbn [escape_loop].
    assert (i = length rx) as ->.
    { assert (Hl : length (drop i rx) = 0%nat) by (rewrite Hdrop; reflexivity).
      rewrite length_drop in Hl. lia. }
    split; [reflexivity|]. split; [unfold len; lia|].
    fold (len rx). rewrite sub_to_end by lia. cbn [escaped flat_map].
    rewrite app_nil_r. reflexivity.
  - destruct (drop_head rx i r rest Hdrop) as (Hr & Hrest & Hlt).
    cbn [escape_loop].
    replace (Z.of_nat i + 1) with (Z.of_nat (S i)) by lia.
    destruct (Z.eqb_spec r newline) as [Hnl|Hnl].
    { rewrite flush_sub by (unfold len; lia). cbn [mbind result_bind].
      destruct (IH (S i) ((sb ++ sub rx start (Z.of_nat i)) ++ [backslash; letter_n])
                  (Z.of_nat (S i)) Hrest ltac:(lia) ltac:(lia))
        as (sb' & start' & Hrun & Hb & Hout).
      exists sb', start'. split; [exact Hrun|]. split; [exact Hb|].
      rewrite Hout, sub_empty.
      change (escaped sep (r :: rest))
        with (escape_rune sep r ++ escaped sep rest).
      unfold escape_rune.
      replace (r =? newline) with true by (symmetry; apply Z.eqb_eq; exact Hnl).
      rewrite <- !app_assoc. reflexivity. }
    destruct (Z.eqb_spec r sep) as [Hsep|Hsep].
    { rewrite flush_sub by (unfold len; lia). cbn [mbind result_bind].
      destruct (IH (S i)
                  ((sb ++ sub rx start (Z.of_nat i)) ++ [backslash; write_rune sep])
                  (Z.of_nat (S i)) Hrest ltac:(lia) ltac:(lia))
        as (sb' & start' & Hrun & Hb & Hout).
      exists sb', start'. split; [exact Hrun|]. split; [exact Hb|].
      rewrite Hout, sub_empty.
      change (escaped sep (r :: rest))
        with (escape_rune sep r ++ escaped sep rest).
      unfold escape_rune.
      replace (r =? newline) with false by (symmetry; apply Z.eqb_neq; exact Hnl).
      replace (r =? sep) with true by (symmetry; apply Z.eqb_eq; exact Hsep).
      rewrite <- !app_assoc. reflexivity. }
    destruct (IH (S i) sb start Hrest ltac:(lia) ltac:(lia))
      as (sb' & start' & Hrun & Hb & Hout).
    exists sb', start'. split; [exact Hrun|]. split; [exact Hb|].
    rewrite Hout. replace (Z.of_nat (S i)) with (Z.of_nat i + 1) by lia.
    rewrite (sub_extend rx start i r) by (try assumption; lia).
    change (escaped sep (r :: rest))
      with (escape_rune sep r ++ escaped sep rest).
    unfold escape_rune.
    replace (r =? newline) with false by (symmetry; apply Z.eqb_neq; exact Hnl).
    replace (r =? sep) with false by (symmetry; apply Z.eqb_neq; exact Hsep).
    rewrite <- !app_assoc. reflexivity.
Qed.

Lemma EscapeStr_escaped (x : list Z) (sep : Z) :
  EscapeStr x sep = Ret (escaped sep x).
Proof.
  unfold EscapeStr.
  destruct (escape_loop_spec x sep x 0 [] 0 eq_refl ltac:(lia) ltac:(lia))
    as (sb & start & Hrun & Hb & Hout).
  change (Z.of_nat 0) with 0 in Hrun. rewrite Hrun. cbn [mbind result_bind].
  rewrite flush_tail_drop by exact Hb. rewrite Hout.
  change (Z.of_nat 0) with 0. rewrite sub_empty. reflexivity.
Qed.

Lemma sub_shrink (rx : list Z) (start : Z) (i : nat) :
  0 <= start <= Z.of_nat i - 1 -> rx !! (i - 1)%nat = Some backslash ->
  sub rx start (Z.of_nat i) = sub rx start (Z.of_nat i - 1) ++ [backslash].
Proof.
  intros Hs Hr.
  replace (Z.of_nat i) with (Z.of_nat (i - 1) + 1) at 1 by lia.
  rewrite (sub_extend rx start (i - 1) backslash) by (try assumption; lia).
  do 2 f_equal. lia.
Qed.

Lemma sub_single (rx : list Z) (i : nat) (r : Z) :
  rx !! i = Some r -> sub rx (Z.of_nat i) (Z.of_nat i + 1) = [r].
Proof.
  intros Hr. rewrite (sub_extend rx (Z.of_nat i) i r) by (try assumption; lia).
  rewrite sub_empty. reflexivity.
Qed.

(** The loop of UnescapeStr from rune [i] on.  With [bs] set, the rune
    before [i] is a backslash that is not flushed yet. *)
Lemma unescape_loop_spec (rx : list Z) (sep : Z) :
  forall (rest : list Z) (i : nat) (sb : list Z) (start : Z) (bs : bool),
    drop i rx = rest -> (i <= length rx)%nat ->
    (if bs
     then 0 <= start <= Z.of_nat i - 1 /\ rx !! (i - 1)%nat = Some backslash
     else 0 <= start <= Z.of_nat i) ->
    exists sb' start',
      unescape_loop rx sep rest (Z.of_nat i) sb start bs = Ret (sb', start')
      /\ 0 <= start' <= len rx
      /\ sb' ++ drop (Z.to_nat start') rx
         = if bs
           then sb ++ sub rx start (Z.of_nat i - 1)
                ++ unescaped sep (backslash :: rest)
           else sb ++ sub rx start (Z.of_nat i) ++ unescaped sep rest.
Proof.
  induction rest as [|r rest IH]; intros i sb start bs Hdrop Hi Hstart.
  - exists sb, start. cbn [unescape_loop].
    assert (i = length rx) as ->.
    { assert (Hl : length (drop i rx) = 0%nat) by (rewrite Hdrop; reflexivity).
      rewrite length_drop in Hl. lia. }
    split; [reflexivity|].
    split; [unfold len; destruct bs; lia|].
    destruct bs.
    + destruct Hstart as [Hs Hbs].
      cbn [unescaped]. change (backslash =? backslash) with true. cbn match.
      rewrite <- sub_shrink by assumption.
      fold (len rx). rewrite sub_to_end by lia. reflexivity.
    + fold (len rx). rewrite sub_to_end by lia. cbn [unescaped].
      rewrite app_nil_r. reflexivity.
  - destruct (drop_head rx i r rest Hdrop) as (Hr & Hrest & Hlt).
    cbn [unescape_loop].
    replace (Z.of_nat i + 1) with (Z.of_nat (S i)) by lia.
    destruct (Z.eqb_spec r backslash) as [Hb|Hb].
    { (* a backslash: [bs] is set *)
      destruct (IH (S i) sb start true Hrest ltac:(lia)) as
        (sb' & start' & Hrun & Hbound & Hout).
      { replace (S i - 1)%nat with i by lia. rewrite Hr, Hb.
        destruct bs; split; try reflexivity; lia. }
      exists sb', start'. split; [exact Hrun|]. split; [exact Hbound|].
      rewrite Hout. replace (Z.of_nat (S i) - 1) with (Z.of_nat i) by lia.
      destruct bs; [|rewrite Hb; reflexivity].
      destruct Hstart as [Hs Hbs].
      rewrite (sub_shrink rx start i) by assumption.
      subst r.
      change (unescaped sep (backslash :: backslash :: rest))
        with (backslash :: unescaped sep (backslash :: rest)).
      rewrite <- !app_assoc. reflexivity. }
    destruct bs.
    + destruct Hstart as [Hs Hbs].
      destruct (Z.eqb_spec r letter_n) as [Hn|Hn]; cbn [andb].
      { rewrite flush_sub by (unfold len; lia). cbn [mbind result_bind].
        destruct (IH (S i) ((sb ++ sub rx start (Z.of_nat i - 1)) ++ [newline])
                    (Z.of_nat (S i)) false Hrest ltac:(lia) ltac:(cbn iota; lia))
          as (sb' & start' & Hrun & Hbound & Hout).
        exists sb', start'. split; [exact Hrun|]. split; [exact Hbound|].
        rewrite Hout, sub_empty. subst r.
        change (unescaped sep (backslash :: letter_n :: rest))
          with (newline :: unescaped sep rest).
        rewrite <- !app_assoc. reflexivity. }
      destruct (Z.eqb_spec r sep) as [Hsep|Hsep]; cbn [andb].
      { rewrite flush_sub by (unfold len; lia). cbn [mbind result_bind].
        destruct (IH (S i) (sb ++ sub rx start (Z.of_nat i - 1))
                    (Z.of_nat i) false Hrest ltac:(lia) ltac:(cbn iota; lia))
          as (sb' & start' & Hrun & Hbound & Hout).
        exists sb', start'. split; [exact Hrun|]. split; [exact Hbound|].
        rewrite Hout. replace (Z.of_nat (S i)) with (Z.of_nat i + 1) by lia.
        rewrite (sub_single rx i r Hr).
        cbn [unescaped]. change (backslash =? backslash) with true. cbn match.
        replace (r =? backslash) with false by (symmetry; apply Z.eqb_neq; exact Hb).
        replace (r =? letter_n) with false by (symmetry; apply Z.eqb_neq; exact Hn).
        replace (r =? sep) with true by (symmetry; apply Z.eqb_eq; exact Hsep).
        rewrite <- !app_assoc. reflexivity. }
      destruct (IH (S i) sb start false Hrest ltac:(lia) ltac:(cbn iota; lia))
        as (sb' & start' & Hrun & Hbound & Hout).
      exists sb', start'. split; [exact Hrun|]. split; [exact Hbound|].
      rewrite Hout. replace (Z.of_nat (S i)) with (Z.of_nat i + 1) by lia.
      rewrite (sub_extend rx start i r) by (try assumption; lia).
      rewrite (sub_shrink rx start i) by assumption.
      cbn [unescaped]. change (backslash =? backslash) with true. cbn match.
      replace (r =? backslash) with false by (symmetry; apply Z.eqb_neq; exact Hb).
      replace (r =? letter_n) with false by (symmetry; apply Z.eqb_neq; exact Hn).
      replace (r =? sep) with false by (symmetry; apply Z.eqb_neq; exact Hsep).
      rewrite <- !app_assoc. reflexivity.
    + rewrite !andb_false_r.
      destruct (IH (S i) sb start false Hrest ltac:(lia) ltac:(cbn iota; lia))
        as (sb' & start' & Hrun & Hbound & Hout).
      exists sb', start'. split; [exact Hrun|]. split; [exact Hbound|].
      rewrite Hout. replace (Z.of_nat (S i)) with (Z.of_nat i + 1) by lia.
      rewrite (sub_extend rx start i r) by (try assumption; lia).
      cbn [unescaped].
      replace (r =? backslash) with false by (symmetry; apply Z.eqb_neq; exact Hb).
      rewrite <- !app_assoc. reflexivity.
Qed.

Lemma UnescapeStr_unescaped (x : list Z) (sep : Z) :
  UnescapeStr x sep = Ret (unescaped sep x).
Proof.
  unfold UnescapeStr.
  destruct (unescape_loop_spec x sep x 0 [] 0 false eq_refl ltac:(lia)
              ltac:(cbn iota; lia))
    as (sb & start & Hrun & Hb & Hout).
  change (Z.of_nat 0) with 0 in Hrun. rewrite Hrun. cbn [mbind result_bind].
  rewrite flush_tail_drop by exact Hb. rewrite Hout.
  change (Z.of_nat 0) with 0. rewrite sub_empty. reflexivity.
Qed.

Lemma escaped_cons (sep r : Z) (x : list Z) :
  escaped sep (r :: x) = escape_rune sep r ++ escaped sep x.
Proof. reflexivity. Qed.

Lemma escaped_no_newline (sep : Z) (x : list Z) : newline ∉ escaped sep x.
Proof.
  induction x as [|r x IH]; [apply not_elem_of_nil|].
  rewrite escaped_cons, elem_of_app. intros [H|H]; [|exact (IH H)].
  unfold escape_rune in H.
  destruct (Z.eqb_spec r newline) as [Hnl|Hnl].
  - repeat (apply elem_of_cons in H as [H|H]; [discriminate H|]).
    inversion H.
  - destruct (Z.eqb_spec r sep) as [Hsep|Hsep].
    + apply elem_of_cons in H as [H|H]; [discriminate H|].
      apply elem_of_cons in H as [H|H]; [|inversion H].
      unfold write_rune in H. destruct (valid_rune sep).
      * congruence.
      * discriminate H.
    + apply elem_of_cons in H as [H|H]; [congruence|inversion H].
Qed.

(** EscapeStr returns, for every string that is valid UTF-8 (given by its
    runes) and every separator: each newline has become backslash, [n],
    each separator backslash, separator, every other rune is kept, and
    the result holds no newline; a string with neither comes back as it
    is. *)
Theorem EscapeStr_rune_by_rune (x : list Z) (sep : Z) :
  Forall (fun r => valid_rune r = true) x ->
  EscapeStr x sep = Ret (flat_map (escape_rune sep) x)
  /\ (newline ∉ flat_map (escape_rune sep) x)
  /\ (newline ∉ x -> sep ∉ x -> EscapeStr x sep = Ret x).
Proof.
  intros _.
  split; [apply EscapeStr_escaped|]. split; [apply escaped_no_newline|].
  intros Hnl Hsep. rewrite EscapeStr_escaped. f_equal.
  induction x as [|r x IH]; [reflexivity|].
  rewrite escaped_cons, IH.
  - unfold escape_rune.
    replace (r =? newline) with false
      by (symmetry; apply Z.eqb_neq; intros ->; apply Hnl; left).
    replace (r =? sep) with false
      by (symmetry; apply Z.eqb_neq; intros ->; apply Hsep; left).
    reflexivity.
  - intros H. apply Hnl. right. exact H.
  - intros H. apply Hsep. right. exact H.
Qed.

Lemma EscapeStr_rune_by_rune_witness :
  EscapeStr [97; 44; 233; 10; 98] 44 = Ret [97; 92; 44; 233; 92; 110; 98].
Proof.
  destruct (EscapeStr_rune_by_rune [97; 44; 233; 10; 98] 44) as (H & _);
    [repeat constructor|].
  rewrite H. reflexivity.
Defined.

Lemma unescaped_plain (sep r : Z) (x : list Z) :
  r <> backslash -> unescaped sep (r :: x) = r :: unescaped sep x.
Proof.
  intros Hr. cbn [unescaped].
  replace (r =? backslash) with false by (symmetry; apply Z.eqb_neq; exact Hr).
  reflexivity.
Qed.

(** A backslash is kept when it stands at the end, before a backslash,
    or before a rune that is neither [n] nor the separator. *)
Lemma unescaped_backslash_kept (sep : Z) (y : list Z) :
  match y with
  | [] => True
  | r2 :: _ => r2 = backslash \/ (r2 <> letter_n /\ r2 <> sep)
  end ->
  unescaped sep (backslash :: y) = backslash :: unescaped sep y.
Proof.
  destruct y as [|r2 y]; intros H; [reflexivity|].
  cbn [unescaped]. change (backslash =? backslash) with true. cbn match.
  destruct (Z.eqb_spec r2 backslash) as [Hb|Hb].
  - subst r2. change (backslash =? backslash) with true. reflexivity.
  - destruct H as [H|[Hn Hs]]; [contradiction|].
    replace (r2 =? letter_n) with false by (symmetry; apply Z.eqb_neq; exact Hn).
    replace (r2 =? sep) with false by (symmetry; apply Z.eqb_neq; exact Hs).
    replace (r2 =? backslash) with false by (symmetry; apply Z.eqb_neq; exact Hb).
    reflexivity.
Qed.

Lemma write_rune_valid (r : Z) : valid_rune r = true -> write_rune r = r.
Proof. intros H. unfold write_rune. rewrite H. reflexivity. Qed.

Lemma unescaped_escaped (sep : Z) (x : list Z) :
  escapable sep x -> unescaped sep (escaped sep x) = x.
Proof.
  intros (Hvalid & Hsepn & Hbn & Hsepb).
  induction x as [|r x IH]; [reflexivity|].
  apply Forall_cons in Hvalid as [Hr Hvalid].
  destruct Hbn as [Hhead Hbn].
  assert (Hsepb' : sep = backslash -> backslash ∉ x).
  { intros E H. apply (Hsepb E). right. exact H. }
  specialize (IH Hvalid Hbn Hsepb').
  rewrite escaped_cons. unfold escape_rune.
  destruct (Z.eqb_spec r newline) as [Hnl|Hnl].
  { subst r. cbn [app].
    change (unescaped sep (backslash :: letter_n :: escaped sep x))
      with (newline :: unescaped sep (escaped sep x)).
    rewrite IH. reflexivity. }
  destruct (Z.eqb_spec r sep) as [Hsep|Hsep].
  { subst r. rewrite write_rune_valid by exact Hr. cbn [app].
    assert (sep <> backslash) as Hsb.
    { intros E. apply (Hsepb E). rewrite E. left. }
    cbn [unescaped]. change (backslash =? backslash) with true. cbn match.
    replace (sep =? backslash) with false by (symmetry; apply Z.eqb_neq; exact Hsb).
    replace (sep =? letter_n) with false by (symmetry; apply Z.eqb_neq; exact Hsepn).
    rewrite Z.eqb_refl, IH. reflexivity. }
  cbn [app].
  destruct (Z.eqb_spec r backslash) as [Hb|Hb].
  - subst r. rewrite unescaped_backslash_kept; [rewrite IH; reflexivity|].
    destruct x as [|r2 x]; [exact I|].
    rewrite escaped_cons. unfold escape_rune.
    destruct (Z.eqb_spec r2 newline) as [Hnl2|Hnl2]; [left; reflexivity|].
    destruct (Z.eqb_spec r2 sep) as [Hsep2|Hsep2]; [left; reflexivity|].
    cbn [app]. right. split; [|exact Hsep2].
    intros E. apply Hhead. split; [reflexivity|exact E].
  - rewrite unescaped_plain by exact Hb. rewrite IH. reflexivity.
Qed.

(** UnescapeStr undoes EscapeStr on every valid string without a
    backslash directly before an [n], for a separator other than [n]
    (and, when the separator is the backslash, a string without
    backslashes).  The conditions are needed: a backslash before an [n]
    comes back as a newline, and with the separator [n] every [n] does. *)
Theorem UnescapeStr_undoes_EscapeStr (x : list Z) (sep : Z) :
  escapable sep x ->
  (e ← EscapeStr x sep; UnescapeStr e sep) = Ret x
  /\ (e ← EscapeStr [backslash; letter_n] 44; UnescapeStr e 44) = Ret [newline]
  /\ (e ← EscapeStr [letter_n] letter_n; UnescapeStr e letter_n) = Ret [newline].
Proof.
  intros Hx. split; [|split; reflexivity].
  rewrite EscapeStr_escaped. cbn [mbind result_bind].
  rewrite UnescapeStr_unescaped, unescaped_escaped by exact Hx. reflexivity.
Qed.

Lemma UnescapeStr_undoes_EscapeStr_witness :
  (e ← EscapeStr [102; 44; 92; 10; 111] 44; UnescapeStr e 44)
  = Ret [102; 44; 92; 10; 111].
Proof.
  apply (UnescapeStr_undoes_EscapeStr [102; 44; 92; 10; 111] 44).
  unfold escapable. split; [|split; [|split]].
  - repeat constructor.
  - discriminate.
  - cbn. repeat split; intros [H1 H2]; discriminate.
  - discriminate.
Defined.

(** UnescapeStr returns, for every string that is valid UTF-8 (given by
    its runes) and every separator: backslash, [n] has become a newline,
    backslash, separator the separator, and a backslash before anything
    else is kept; a string without backslash comes back unchanged. *)
Theorem UnescapeStr_rune_by_rune (x : list Z) (sep : Z) :
  Forall (fun r => valid_rune r = true) x ->
  UnescapeStr x sep = Ret (unescaped sep x)
  /\ (backslash ∉ x -> UnescapeStr x sep = Ret x).
Proof.
  intros _.
  split; [apply UnescapeStr_unescaped|].
  intros Hb. rewrite UnescapeStr_unescaped. f_equal.
  induction x as [|r x IH]; [reflexivity|].
  rewrite unescaped_plain, IH; [reflexivity| |].
  - intros H. apply Hb. right. exact H.
  - intros ->. apply Hb. left.
Qed.

Lemma UnescapeStr_rune_by_rune_witness :
  UnescapeStr [97; 92; 44; 233; 92; 110; 92; 98] 44
  = Ret [97; 44; 233; 10; 92; 98].
Proof.
  destruct (UnescapeStr_rune_by_rune [97; 92; 44; 233; 92; 110; 92; 98] 44)
    as (H & _); [repeat constructor|].
  rewrite H. reflexivity.
Defined.

Lemma join_loop_spec (sep : Z) (xs : list (list Z)) (ix : Z) (sb : list Z) :
  0 < ix ->
  join_loop xs sep ix sb
  = Ret (sb ++ flat_map (fun y => write_rune sep :: escaped sep y) xs).
Proof.
  revert ix sb. induction xs as [|x xs IH]; intros ix sb Hix.
  - cbn. rewrite app_nil_r. reflexivity.
  - cbn [join_loop].
    replace (ix >? 0) with true by (symmetry; rewrite Z.gtb_ltb; apply Z.ltb_lt; lia).
    destruct (escape_loop_spec x sep x 0 (sb ++ [write_rune sep]) 0 eq_refl
                ltac:(lia) ltac:(lia))
      as (sb' & start & Hrun & Hb & Hout).
    change (Z.of_nat 0) with 0 in Hrun, Hout. rewrite Hrun.
    cbn [mbind result_bind].
    rewrite flush_tail_drop by exact Hb. cbn [mbind result_bind].
    rewrite Hout, sub_empty, IH by lia.
    cbn [flat_map app]. rewrite <- !app_assoc. reflexivity.
Qed.

Lemma Join_joined (xs : list (list Z)) (sep : Z) :
  Join xs sep = Ret (joined sep xs).
Proof.
  destruct xs as [|x ys]; [reflexivity|].
  unfold Join. cbn [join_loop]. change (0 >? 0) with false. cbn iota.
  destruct (escape_loop_spec x sep x 0 [] 0 eq_refl ltac:(lia) ltac:(lia))
    as (sb' & start & Hrun & Hb & Hout).
  change (Z.of_nat 0) with 0 in Hrun, Hout. rewrite Hrun.
  cbn [mbind result_bind].
  rewrite flush_tail_drop by exact Hb. cbn [mbind result_bind].
  rewrite Hout, sub_empty, join_loop_spec by lia. reflexivity.
Qed.

(** Join returns, for every slice of strings and separator, the escaped
    strings in order with one separator between neighbours; the empty
    slice and the slice of one empty string both give the empty string. *)
Theorem Join_escapes_and_separates (xs : list (list Z)) (sep : Z) :
  Join xs sep = Ret (joined sep xs)
  /\ (forall x, Join [x] sep = EscapeStr x sep)
  /\ Join [] sep = Ret []
  /\ Join [[]] sep = Ret [].
Proof.
  split; [apply Join_joined|]. split; [|split; reflexivity].
  intros x. rewrite Join_joined, EscapeStr_escaped. cbn [joined flat_map].
  rewrite app_nil_r. reflexivity.
Qed.

End Escaping.

(** ** util.go: Split *)

Section Splitting.
Import Image Util UtilStrings.

Lemma blen_nil_iff (s : list Z) : (blen s >? 0) = false <-> s = [].
Proof.
  split.
  - intros H. destruct s as [|r s]; [reflexivity|].
    rewrite Z.gtb_ltb in H. apply Z.ltb_ge in H.
    pose proof (blen_ge_length (r :: s)). cbn [length] in *. lia.
  - intros ->. reflexivity.
Qed.

Lemma field_upto_sub (rs cur : list Z) (start hi : Z) :
  0 <= start <= hi -> hi <= len rs ->
  field_upto rs cur start hi = Ret (cur ++ sub rs start hi).
Proof.
  intros Hs Hhi. unfold field_upto.
  destruct (blen cur >? 0) eqn:Hcur.
  - rewrite slice_Ret by lia. reflexivity.
  - apply blen_nil_iff in Hcur. subst cur. rewrite slice_Ret by lia.
    reflexivity.
Qed.

Lemma store_string_take (out : list (list Z)) (amt : Z) (v : list Z) :
  0 <= amt < Z.of_nat (length out) ->
  exists out',
    store_string out amt v = Ret out'
    /\ length out' = length out
    /\ take (Z.to_nat (amt + 1)) out' = take (Z.to_nat amt) out ++ [v].
Proof.
  intros Hamt. unfold store_string.
  replace (0 <=? amt) with true by (symmetry; apply Z.leb_le; lia).
  replace (amt <? Z.of_nat (length out)) with true
    by (symmetry; apply Z.ltb_lt; lia).
  eexists. split; [reflexivity|]. split; [apply length_insert|].
  replace (Z.to_nat (amt + 1)) with (S (Z.to_nat amt)) by lia.
  rewrite (take_S_r _ _ v) by (apply list_lookup_insert_eq; lia).
  rewrite take_insert_ge by lia. reflexivity.
Qed.

Lemma first_strings_take (out : list (list Z)) (amt : Z) :
  0 <= amt <= Z.of_nat (length out) ->
  first_strings out amt = Ret (take (Z.to_nat amt) out).
Proof.
  intros Hamt. unfold first_strings.
  replace (0 <=? amt) with true by (symmetry; apply Z.leb_le; lia).
  replace (amt <=? Z.of_nat (length out)) with true
    by (symmetry; apply Z.leb_le; lia).
  reflexivity.
Qed.

Lemma count_rune_nonneg (r : Z) (s : list Z) : 0 <= count_rune r s.
Proof.
  induction s as [|r' s IH]; cbn [count_rune]; [lia|].
  destruct (r' =? r); lia.
Qed.

(** The end of Split on a string that is not empty. *)
Lemma split_finish_spec (rs : list Z) (st : split_state) :
  let '(mkSplitState out amt start bs cur lws) := st in
  rs <> [] ->
  0 <= amt < Z.of_nat (length out) ->
  (if bs
   then 0 <= start <= len rs - 1 /\ rs !! (length rs - 1)%nat = Some backslash
   else 0 <= start <= len rs) ->
  (lws = true -> cur = []) ->
  (bs = false -> cur = [] -> start = len rs -> lws = true) ->
  split_finish rs st
  = Ret (take (Z.to_nat amt) out
         ++ [cur ++ sub rs start (len rs)]).
Proof.
  destruct st as [out amt start bs cur lws].
  intros Hne Hamt Hstart Hlws Hempty.
  pose proof (blen_ge_length rs) as Hb. fold (len rs) in Hb.
  assert (0 <= start <= len rs) as Hs by (destruct bs; lia).
  unfold split_finish.
  destruct (Z.geb_spec start (blen rs)) as [Hge|Hlt].
  - assert (start = len rs) as -> by lia.
    assert (bs = false) as ->.
    { destruct bs; [|reflexivity]. lia. }
    rewrite sub_empty, app_nil_r.
    destruct (blen cur >? 0) eqn:Hcur.
    + destruct (store_string_take out amt cur Hamt) as (out' & -> & Hlen & Htake).
      cbn [mbind result_bind].
      assert (lws = false) as ->.
      { destruct lws; [|reflexivity]. rewrite Hlws in Hcur by reflexivity.
        discriminate Hcur. }
      cbn [mbind result_bind].
      rewrite first_strings_take by lia. rewrite Htake. reflexivity.
    + apply blen_nil_iff in Hcur. subst cur. cbn [mbind result_bind].
      rewrite Hempty by reflexivity.
      destruct (store_string_take out amt [] Hamt) as (out' & -> & Hlen & Htake).
      cbn [mbind result_bind].
      rewrite first_strings_take by lia. rewrite Htake. reflexivity.
  - rewrite field_upto_sub by lia. cbn [mbind result_bind].
    destruct (store_string_take out amt (cur ++ sub rs start (len rs)) Hamt)
      as (out' & -> & Hlen & Htake).
    cbn [mbind result_bind].
    rewrite first_strings_take by lia. rewrite Htake. reflexivity.
Qed.

Lemma fields_sep (sep : Z) (rest : list Z) :
  fields sep (sep :: rest)
  = ([], fst (fields sep rest) :: snd (fields sep rest)).
Proof. cbn [fields]. rewrite Z.eqb_refl. reflexivity. Qed.

Lemma fields_plain (sep r : Z) (rest : list Z) :
  r <> sep -> r <> backslash ->
  fields sep (r :: rest) = push r (fields sep rest).
Proof.
  intros Hs Hb. cbn [fields].
  replace (r =? sep) with false by (symmetry; apply Z.eqb_neq; exact Hs).
  replace (r =? backslash) with false by (symmetry; apply Z.eqb_neq; exact Hb).
  reflexivity.
Qed.

Lemma fields_backslash (sep : Z) (rest : list Z) :
  sep <> backslash ->
  fields sep (backslash :: rest)
  = match rest with
    | [] => ([backslash], [])
    | r2 :: rest2 =>
        if r2 =? letter_n then push newline (fields sep rest2)
        else if r2 =? sep then push r2 (fields sep rest2)
        else push backslash (fields sep rest)
    end.
Proof.
  intros Hs. cbn [fields].
  replace (backslash =? sep) with false
    by (symmetry; apply Z.eqb_neq; congruence).
  change (backslash =? backslash) with true. reflexivity.
Qed.

(** The loop of Split from rune [i] on, followed by the end of the
    function: the fields already stored, then the field under way
    completed by the first field of the rest, then the other fields. *)
Lemma split_loop_spec (rs : list Z) (sep : Z) (n : nat) :
  rs <> [] ->
  forall (rest : list Z) (i : nat) (out : list (list Z)) (amt start : Z)
         (bs : bool) (cur : list Z) (lws : bool),
    drop i rs = rest -> (i <= length rs)%nat ->
    length out = n -> 0 <= amt ->
    amt + count_rune sep rest + 1 <= Z.of_nat n ->
    (if bs
     then 0 <= start <= Z.of_nat i - 1
          /\ rs !! (i - 1)%nat = Some backslash /\ sep <> backslash
     else 0 <= start <= Z.of_nat i) ->
    (lws = true -> cur = [] /\ start = Z.of_nat i /\ bs = false) ->
    (bs = false -> cur = [] -> start = Z.of_nat i -> lws = true \/ i = 0%nat) ->
    exists st',
      split_loop rs sep rest (Z.of_nat i)
        (mkSplitState out amt start bs cur lws) = Ret st'
      /\ split_finish rs st'
         = Ret (take (Z.to_nat amt) out
                ++ (if bs
                    then (cur ++ sub rs start (Z.of_nat i - 1)
                          ++ fst (fields sep (backslash :: rest)))
                         :: snd (fields sep (backslash :: rest))
                    else (cur ++ sub rs start (Z.of_nat i)
                          ++ fst (fields sep rest))
                         :: snd (fields sep rest))).
Proof.
  intros Hne.
  induction rest as [|r rest IH];
    intros i out amt start bs cur lws Hdrop Hi Hlen Hamt Hroom Hstart Hlws Hempty.
  - assert (i = length rs) as ->.
    { assert (Hl : length (drop i rs) = 0%nat) by (rewrite Hdrop; reflexivity).
      rewrite length_drop in Hl. lia. }
    eexists. split; [reflexivity|].
    cbn [count_rune] in Hroom.
    pose proof (split_finish_spec rs (mkSplitState out amt start bs cur lws))
      as Hfin. cbn iota beta in Hfin. fold (len rs) in *.
    rewrite Hfin; clear Hfin.
    + destruct bs.
      * destruct Hstart as (Hs & Hbs & Hsb).
        rewrite fields_backslash by exact Hsb. cbn [fst snd].
        unfold len. rewrite (sub_shrink rs start (length rs)) by assumption.
        reflexivity.
      * cbn [fields fst snd]. rewrite app_nil_r. reflexivity.
    + exact Hne.
    + lia.
    + destruct bs; [|exact Hstart]. unfold len. tauto.
    + intros H. apply Hlws. exact H.
    + intros Hb Hc Hs. destruct (Hempty Hb Hc Hs) as [H|H]; [exact H|].
      destruct rs; [contradiction|discriminate H].
  - destruct (drop_head rs i r rest Hdrop) as (Hr & Hrest & Hlt).
    cbn [split_loop].
    replace (Z.of_nat i + 1) with (Z.of_nat (S i)) by lia.
    pose proof (count_rune_nonneg sep rest) as Hcnt.
    assert (Hroom' : r <> sep -> amt + count_rune sep rest + 1 <= Z.of_nat n).
    { intros Hsep. cbn [count_rune] in Hroom.
      replace (r =? sep) with false in Hroom
        by (symmetry; apply Z.eqb_neq; exact Hsep).
      lia. }
    destruct bs.
    + (* the rune before was a backslash *)
      destruct Hstart as (Hs & Hbs & Hsb).
      rewrite fields_backslash by exact Hsb.
      destruct (Z.eqb_spec r letter_n) as [Hn|Hn]; cbn [andb].
      { rewrite slice_Ret by (unfold len; lia). cbn [mbind result_bind].
        fold (sub rs start (Z.of_nat i - 1)).
        destruct (IH (S i) out amt (Z.of_nat (S i)) false
                    ((cur ++ sub rs start (Z.of_nat i - 1)) ++ [newline]) false)
          as (st' & Hrun & Hfin);
          [ exact Hrest | lia | exact Hlen | lia
          | cbn [count_rune] in Hroom; destruct (r =? sep); lia
          | cbn iota; lia
          | intros H; discriminate H
          | intros _ H; apply app_eq_nil in H as [_ H]; discriminate H
          | ].
        exists st'. split; [exact Hrun|]. rewrite Hfin. f_equal. f_equal.
        rewrite sub_empty. cbn [push fst snd app].
        rewrite <- !app_assoc. reflexivity. }
      destruct (Z.eqb_spec r sep) as [Hsep|Hsep].
      { rewrite slice_Ret by (unfold len; lia). cbn [mbind result_bind].
        fold (sub rs start (Z.of_nat i - 1)).
        destruct (IH (S i) out amt (Z.of_nat i) false
                    (cur ++ sub rs start (Z.of_nat i - 1)) false)
          as (st' & Hrun & Hfin);
          [ exact Hrest | lia | exact Hlen | lia
          | cbn [count_rune] in Hroom; destruct (r =? sep); lia
          | cbn iota; lia
          | intros H; discriminate H
          | intros _ _ H; lia
          | ].
        exists st'. split; [exact Hrun|]. rewrite Hfin. f_equal. f_equal.
        replace (Z.of_nat (S i)) with (Z.of_nat i + 1) by lia.
        rewrite (sub_single rs i r Hr). cbn [push fst snd app].
        rewrite <- !app_assoc. reflexivity. }
      destruct (Z.eqb_spec r backslash) as [Hb|Hb].
      { destruct (IH (S i) out amt start true cur false)
          as (st' & Hrun & Hfin);
          [ exact Hrest | lia | exact Hlen | lia
          | exact (Hroom' Hsep)
          | replace (S i - 1)%nat with i by lia; rewrite Hr, Hb;
            split; [lia|]; split; [reflexivity|exact Hsb]
          | intros H; discriminate H
          | intros H; discriminate H
          | ].
        exists st'. split; [exact Hrun|]. rewrite Hfin. f_equal.
        replace (Z.of_nat (S i) - 1) with (Z.of_nat i) by lia.
        rewrite (sub_shrink rs start i) by assumption.
        subst r. cbn [push fst snd].
        rewrite <- !app_assoc. reflexivity. }
      destruct (IH (S i) out amt start false cur false)
        as (st' & Hrun & Hfin);
        [ exact Hrest | lia | exact Hlen | lia
        | exact (Hroom' Hsep)
        | cbn iota; lia
        | intros H; discriminate H
        | intros _ _ H; lia
        | ].
      exists st'. split; [exact Hrun|]. rewrite Hfin. f_equal.
      replace (Z.of_nat (S i)) with (Z.of_nat i + 1) by lia.
      rewrite (sub_extend rs start i r) by (try assumption; lia).
      rewrite (sub_shrink rs start i) by assumption.
      rewrite (fields_plain sep r rest Hsep Hb). cbn [push fst snd].
      rewrite <- !app_assoc. reflexivity.
    + rewrite andb_false_r.
      destruct (Z.eqb_spec r sep) as [Hsep|Hsep].
      { (* an unescaped separator ends the field *)
        rewrite field_upto_sub by (unfold len; lia). cbn [mbind result_bind].
        assert (Hcount : count_rune sep (r :: rest) = 1 + count_rune sep rest).
        { cbn [count_rune]. subst r. rewrite Z.eqb_refl. reflexivity. }
        destruct (store_string_take out amt (cur ++ sub rs start (Z.of_nat i)))
          as (out' & -> & Hlen' & Htake); [lia|].
        cbn [mbind result_bind].
        assert (Hreset : (if blen cur >? 0 then [] else cur) = []).
        { destruct (blen cur >? 0) eqn:Hc; [reflexivity|].
          apply blen_nil_iff in Hc. exact Hc. }
        rewrite Hreset.
        destruct (IH (S i) out' (amt + 1) (Z.of_nat (S i)) false [] true)
          as (st' & Hrun & Hfin);
          [ exact Hrest | lia | congruence | lia
          | lia
          | cbn iota; lia
          | intros _; split; [reflexivity|split; reflexivity]
          | intros _ _ _; left; reflexivity
          | ].
        exists st'. split; [exact Hrun|]. rewrite Hfin, Htake.
        subst r. rewrite fields_sep. cbn [fst snd].
        rewrite sub_empty, app_nil_r, <- app_assoc. reflexivity. }
      destruct (Z.eqb_spec r backslash) as [Hb|Hb].
      { destruct (IH (S i) out amt start true cur false)
          as (st' & Hrun & Hfin);
          [ exact Hrest | lia | exact Hlen | lia
          | exact (Hroom' Hsep)
          | replace (S i - 1)%nat with i by lia; rewrite Hr, Hb;
            split; [lia|]; split; [reflexivity|congruence]
          | intros H; discriminate H
          | intros H; discriminate H
          | ].
        exists st'. split; [exact Hrun|]. rewrite Hfin. f_equal.
        replace (Z.of_nat (S i) - 1) with (Z.of_nat i) by lia.
        subst r. reflexivity. }
      destruct (IH (S i) out amt start false cur false)
        as (st' & Hrun & Hfin);
        [ exact Hrest | lia | exact Hlen | lia
        | exact (Hroom' Hsep)
        | cbn iota; lia
        | intros H; discriminate H
        | intros _ _ H; lia
        | ].
      exists st'. split; [exact Hrun|]. rewrite Hfin. f_equal.
      replace (Z.of_nat (S i)) with (Z.of_nat i + 1) by lia.
      rewrite (sub_extend rs start i r) by (try assumption; lia).
      rewrite (fields_plain sep r rest Hsep Hb). cbn [push fst snd].
      rewrite <- !app_assoc. reflexivity.
Qed.

Lemma Split_fields (s : list Z) (sep : Z) :
  valid_rune sep = true -> Split s sep = Ret (split_fields sep s).
Proof.
  intros Hsep. destruct s as [|r s]; [reflexivity|].
  unfold Split. rewrite write_rune_valid by exact Hsep.
  pose proof (count_rune_nonneg sep (r :: s)) as Hcnt.
  destruct (split_loop_spec (r :: s) sep
              (Z.to_nat (count_rune sep (r :: s) + 1)) ltac:(discriminate)
              (r :: s) 0
              (replicate (Z.to_nat (count_rune sep (r :: s) + 1)) [])
              0 0 false [] false)
    as (st' & Hrun & Hfin);
    [ reflexivity | lia | apply length_replicate | lia | lia
    | cbn iota; lia
    | intros H; discriminate H
    | intros _ _ _; right; reflexivity
    | ].
  change (Z.of_nat 0) with 0 in Hrun, Hfin. rewrite Hrun.
  cbn [mbind result_bind]. rewrite Hfin.
  rewrite sub_empty. reflexivity.
Qed.

Lemma fields_no_special (sep : Z) (s : list Z) :
  sep ∉ s -> backslash ∉ s -> fields sep s = (s, []).
Proof.
  intros Hsep Hb. induction s as [|r s IH]; [reflexivity|].
  rewrite fields_plain, IH; [reflexivity| | | |].
  - intros H. apply Hsep. right. exact H.
  - intros H. apply Hb. right. exact H.
  - intros ->. apply Hsep. left.
  - intros ->. apply Hb. left.
Qed.

(** Split returns, for every string that is valid UTF-8 (given by its
    runes) and every valid separator, the fields between the separators
    that do not follow a backslash, with backslash, [n] read as a newline
    and backslash, separator as the separator; the empty string has no
    field at all, and a string with neither separator nor backslash is
    its own single field. *)
Theorem Split_rune_by_rune (s : list Z) (sep : Z) :
  Forall (fun r => valid_rune r = true) s ->
  valid_rune sep = true ->
  Split s sep = Ret (split_fields sep s)
  /\ Split [] sep = Ret []
  /\ (s <> [] -> sep ∉ s -> backslash ∉ s -> Split s sep = Ret [s]).
Proof.
  intros _ Hsep. split; [apply Split_fields; exact Hsep|].
  split; [reflexivity|].
  intros Hne Hs Hb. rewrite Split_fields by exact Hsep.
  destruct s as [|r s]; [contradiction|].
  unfold split_fields. rewrite fields_no_special by assumption. reflexivity.
Qed.

Lemma Split_rune_by_rune_witness :
  Split [102; 111; 111; 44; 98; 97; 114; 92; 44; 122; 92; 110; 112; 44; 44; 110] 44
  = Ret [[102; 111; 111]; [98; 97; 114; 44; 122; 10; 112]; []; [110]].
Proof.
  destruct (Split_rune_by_rune
    [102; 111; 111; 44; 98; 97; 114; 92; 44; 122; 92; 110; 112; 44; 44; 110] 44)
    as (H & _); [repeat constructor | reflexivity |].
  rewrite H. reflexivity.
Defined.

Lemma splittable_tail (r : Z) (x : list Z) :
  splittable (r :: x) -> x <> [] -> splittable x.
Proof.
  intros (Hv & Hbn & Hlast) Hne.
  apply Forall_cons in Hv as [_ Hv]. destruct Hbn as [_ Hbn].
  split; [exact Hv|]. split; [exact Hbn|].
  destruct x as [|r2 x]; [contradiction|]. exact Hlast.
Qed.

(** The fields of an escaped string followed by more text: the string
    itself, continued by the first field of what follows. *)
Lemma fields_escaped_app (sep : Z) (x tail : list Z) :
  valid_rune sep = true -> sep <> letter_n -> sep <> backslash ->
  splittable x ->
  fields sep (escaped sep x ++ tail)
  = (x ++ fst (fields sep tail), snd (fields sep tail)).
Proof.
  intros Hsv Hsn Hsb. induction x as [|r x IH]; intros Hx.
  - cbn [escaped flat_map app]. destruct (fields sep tail). reflexivity.
  - assert (IH' : x <> [] ->
        fields sep (escaped sep x ++ tail)
        = (x ++ fst (fields sep tail), snd (fields sep tail))).
    { intros Hne. apply IH. exact (splittable_tail r x Hx Hne). }
    assert (IHx : r <> backslash ->
        fields sep (escaped sep x ++ tail)
        = (x ++ fst (fields sep tail), snd (fields sep tail))).
    { intros Hb. destruct x as [|r2 x'].
      - cbn [escaped flat_map app]. destruct (fields sep tail). reflexivity.
      - apply IH'. discriminate. }
    destruct Hx as (Hv & Hbn & Hlast).
    apply Forall_cons in Hv as [Hr Hv]. destruct Hbn as [Hhead Hbn].
    rewrite escaped_cons. unfold escape_rune.
    destruct (Z.eqb_spec r newline) as [Hnl|Hnl].
    { assert (r <> backslash) as Hb by (rewrite Hnl; discriminate).
      cbn [app]. rewrite fields_backslash by exact Hsb.
      change (letter_n =? letter_n) with true. cbn iota.
      rewrite (IHx Hb). subst r. reflexivity. }
    destruct (Z.eqb_spec r sep) as [Hsep|Hsep].
    { assert (r <> backslash) as Hb by congruence.
      rewrite write_rune_valid by exact Hsv.
      cbn [app]. rewrite fields_backslash by exact Hsb.
      replace (sep =? letter_n) with false by (symmetry; apply Z.eqb_neq; exact Hsn).
      rewrite Z.eqb_refl. rewrite (IHx Hb). subst r. reflexivity. }
    cbn [app].
    destruct (Z.eqb_spec r backslash) as [Hb|Hb].
    + subst r. rewrite fields_backslash by exact Hsb.
      destruct x as [|r2 x']; [exfalso; apply Hlast; reflexivity|].
      assert (Hr2 : r2 <> letter_n).
      { intros E. apply Hhead. split; [reflexivity|exact E]. }
      rewrite IH' by discriminate.
      rewrite escaped_cons. unfold escape_rune.
      destruct (Z.eqb_spec r2 newline) as [Hnl2|Hnl2].
      { cbn [app]. change (backslash =? letter_n) with false.
        replace (backslash =? sep) with false
          by (symmetry; apply Z.eqb_neq; congruence).
        reflexivity. }
      destruct (Z.eqb_spec r2 sep) as [Hsep2|Hsep2].
      { cbn [app]. change (backslash =? letter_n) with false.
        replace (backslash =? sep) with false
          by (symmetry; apply Z.eqb_neq; congruence).
        reflexivity. }
      cbn [app].
      replace (r2 =? letter_n) with false by (symmetry; apply Z.eqb_neq; exact Hr2).
      replace (r2 =? sep) with false by (symmetry; apply Z.eqb_neq; exact Hsep2).
      reflexivity.
    + rewrite fields_plain by assumption. rewrite (IHx Hb). reflexivity.
Qed.

Lemma fields_separated (sep : Z) (xs : list (list Z)) :
  valid_rune sep = true -> sep <> letter_n -> sep <> backslash ->
  Forall splittable xs ->
  fields sep (flat_map (fun y => write_rune sep :: escaped sep y) xs)
  = ([], xs).
Proof.
  intros Hsv Hsn Hsb Hxs. rewrite write_rune_valid by exact Hsv.
  induction xs as [|x xs IH]; [reflexivity|].
  apply Forall_cons in Hxs as [Hx Hxs].
  cbn [flat_map app]. rewrite fields_sep.
  rewrite fields_escaped_app by assumption.
  rewrite IH by exact Hxs. cbn [fst snd]. rewrite app_nil_r. reflexivity.
Qed.

Lemma split_fields_joined (sep : Z) (xs : list (list Z)) :
  joinable sep xs -> split_fields sep (joined sep xs) = xs.
Proof.
  intros (Hsv & Hsn & Hsb & Hxs & Hne).
  destruct xs as [|x xs]; [reflexivity|].
  apply Forall_cons in Hxs as [Hx Hxs].
  pose proof (fields_escaped_app sep x
                (flat_map (fun y => write_rune sep :: escaped sep y) xs)
                Hsv Hsn Hsb Hx) as Hf.
  rewrite fields_separated in Hf by assumption. cbn [fst snd] in Hf.
  rewrite app_nil_r in Hf.
  unfold split_fields. cbn [joined].
  destruct (escaped sep x ++ _) eqn:E; [|rewrite Hf; reflexivity].
  exfalso. apply app_eq_nil in E as [E1 E2].
  destruct xs as [|y ys]; [|discriminate E2].
  destruct x as [|r x]; [apply Hne; reflexivity|].
  rewrite escaped_cons in E1. unfold escape_rune in E1.
  destruct (r =? newline); [discriminate E1|].
  destruct (r =? sep); discriminate E1.
Qed.

(** Split undoes Join: for a valid separator other than [n] and the
    backslash and strings that are valid, hold no backslash directly
    before an [n] and do not end in a backslash, splitting the joined
    string gives the strings back, unless the slice is the one empty
    string, which comes back as no string at all. *)
Theorem Split_undoes_Join (xs : list (list Z)) (sep : Z) :
  joinable sep xs ->
  (j ← Join xs sep; Split j sep) = Ret xs
  /\ (j ← Join [[]] sep; Split j sep) = Ret [].
Proof.
  intros Hj. split; [|reflexivity].
  assert (HJ : Join xs sep = Ret (joined sep xs))
    by apply Join_joined.
  rewrite HJ. cbn [mbind result_bind].
  rewrite Split_fields by (apply Hj).
  rewrite split_fields_joined by exact Hj. reflexivity.
Qed.

Lemma Split_undoes_Join_witness :
  (j ← Join [[102; 111; 111]; [98; 97; 114; 44; 122; 10; 112]; []; [110]] 44;
   Split j 44)
  = Ret [[102; 111; 111]; [98; 97; 114; 44; 122; 10; 112]; []; [110]].
Proof.
  apply (Split_undoes_Join
           [[102; 111; 111]; [98; 97; 114; 44; 122; 10; 112]; []; [110]] 44).
  unfold joinable, splittable.
  split; [reflexivity|]. split; [discriminate|]. split; [discriminate|].
  split; [|discriminate].
  repeat (apply Forall_cons; split;
          [split; [repeat constructor|];
           split; [cbn; repeat split; intros [H1 H2]; discriminate
                  | cbn; discriminate]|]).
  apply Forall_nil. exact I.
Defined.

End Splitting.

(** ** NewEImageFromImage *)

Section EbitenConversion.
Import Color Image EbitenCopy.

Lemma length_pixel_bytes (ps : list pixel) :
  length (pixel_bytes ps) = (4 * length ps)%nat.
Proof.
  induction ps as [|[[[r g] b] a] ps IH]; [reflexivity|].
  cbn [pixel_bytes flat_map bytes_of_pixel app length] in *.
  unfold pixel_bytes in IH. rewrite IH. lia.
Qed.

Lemma pixel_bytes_app (ps qs : list pixel) :
  pixel_bytes (ps ++ qs) = pixel_bytes ps ++ pixel_bytes qs.
Proof. unfold pixel_bytes. apply flat_map_app. Qed.

Lemma index_app (P Q : list Z) (k : nat) (v : Z) :
  Q !! k = Some v -> index (P ++ Q) (len P + Z.of_nat k) = Ret v.
Proof.
  intros Hk. unfold index, len.
  pose proof (lookup_lt_Some _ _ _ Hk) as Hlt.
  rewrite length_app.
  replace ((0 <=? Z.of_nat (length P) + Z.of_nat k)
           && (Z.of_nat (length P) + Z.of_nat k
               <? Z.of_nat (length P + length Q))) with true
    by (symmetry; apply andb_true_iff; split;
        [apply Z.leb_le | apply Z.ltb_lt]; lia).
  f_equal.
  replace (Z.to_nat (Z.of_nat (length P) + Z.of_nat k))
    with (length P + k)%nat by lia.
  apply nth_lookup_Some with (d := 0).
  rewrite lookup_app_r by lia.
  replace (length P + k - length P)%nat with k by lia. exact Hk.
Qed.

Lemma store_app (P Q : list Z) (k : nat) (v : Z) :
  (k < length Q)%nat ->
  store (P ++ Q) (len P + Z.of_nat k) v = Ret (P ++ <[k := v]> Q).
Proof.
  intros Hk. unfold store, len. rewrite length_app.
  replace ((0 <=? Z.of_nat (length P) + Z.of_nat k)
           && (Z.of_nat (length P) + Z.of_nat k
               <? Z.of_nat (length P + length Q))) with true
    by (symmetry; apply andb_true_iff; split;
        [apply Z.leb_le | apply Z.ltb_lt]; lia).
  f_equal.
  replace (Z.to_nat (Z.of_nat (length P) + Z.of_nat k))
    with (length P + k)%nat by lia.
  apply insert_app_r.
Qed.

Lemma length_bytes_of_pixel (px : pixel) : length (bytes_of_pixel px) = 4%nat.
Proof. destruct px as [[[r g] b] a]. reflexivity. Qed.

(** One round on a buffer whose next four bytes are still zero. *)
Lemma convert_pixel_step (P Q out tail : list Z) (px : pixel) :
  length out = length P ->
  convert_pixel (P ++ bytes_of_pixel px ++ Q)
    (out ++ [0; 0; 0; 0] ++ tail, len P)
  = Ret (out ++ bytes_of_pixel (on_pixel MultiplyAlphaBytes px) ++ tail,
         len P + 4).
Proof.
  intros Hlen. destruct px as [[[r g] b] a].
  cbn [bytes_of_pixel on_pixel]. unfold convert_pixel.
  assert (Hout : len out = len P) by (unfold len; lia).
  pose proof (index_app P ([r; g; b; a] ++ Q) 0 r eq_refl) as H0.
  pose proof (index_app P ([r; g; b; a] ++ Q) 1 g eq_refl) as H1.
  pose proof (index_app P ([r; g; b; a] ++ Q) 2 b eq_refl) as H2.
  pose proof (index_app P ([r; g; b; a] ++ Q) 3 a eq_refl) as H3.
  rewrite Z.add_0_r in H0.
  change (Z.of_nat 1) with 1 in H1. change (Z.of_nat 2) with 2 in H2.
  change (Z.of_nat 3) with 3 in H3.
  rewrite H0. cbn [mbind result_bind]. rewrite H1. cbn [mbind result_bind].
  rewrite H2. cbn [mbind result_bind]. rewrite H3. cbn [mbind result_bind].
  unfold MultiplyAlphaBytes.
  destruct (NRGBA_RGBA r g b a) as [[[ir ig] ib] ia].
  rewrite <- Hout.
  pose proof (fun Q' k v H => store_app out Q' k v H) as Hst.
  rewrite <- (Z.add_0_r (len out)) at 1.
  rewrite (Hst _ 0%nat) by (cbn; lia). cbn [mbind result_bind].
  rewrite (Hst _ 1%nat) by (cbn; lia). cbn [mbind result_bind].
  rewrite (Hst _ 2%nat) by (cbn; lia). cbn [mbind result_bind].
  rewrite (Hst _ 3%nat) by (cbn; lia). cbn [mbind result_bind].
  reflexivity.
Qed.

(** The inner loop over the pixels [todo] of a row that follow the pixels
    [done]: their bytes are multiplied into the zeroed part of the
    buffer. *)
Lemma convert_pixels_run (todo : list pixel) :
  forall (done rest : list pixel) (out tail : list Z) (i : Z),
    length out = (4 * length done)%nat ->
    for_loop (length todo) i
      (fun _ => convert_pixel (pixel_bytes (done ++ todo ++ rest)))
      (out ++ replicate (4 * length todo) 0 ++ tail, 4 * Z.of_nat (length done))
    = Ret (out ++ pixel_bytes (multiplied todo) ++ tail,
           4 * Z.of_nat (length done + length todo)).
Proof.
  induction todo as [|px todo IH]; intros done rest out tail i Hout.
  - cbn [for_loop length]. rewrite Nat.mul_0_r, Nat.add_0_r. reflexivity.
  - cbn [length for_loop].
    assert (HiPix : pixel_bytes (done ++ (px :: todo) ++ rest)
                    = pixel_bytes done ++ bytes_of_pixel px
                      ++ pixel_bytes (todo ++ rest))
      by (rewrite pixel_bytes_app; reflexivity).
    assert (Hbuf : replicate (4 * S (length todo)) 0 ++ tail
                   = [0; 0; 0; 0] ++ replicate (4 * length todo) 0 ++ tail).
    { replace (4 * S (length todo))%nat with (4 + 4 * length todo)%nat by lia.
      reflexivity. }
    assert (Hidx : 4 * Z.of_nat (length done) = len (pixel_bytes done))
      by (unfold len; rewrite length_pixel_bytes; lia).
    rewrite HiPix, Hbuf, Hidx.
    rewrite convert_pixel_step
      by (rewrite length_pixel_bytes; exact Hout).
    cbn [mbind result_bind].
    rewrite <- HiPix.
    replace (done ++ (px :: todo) ++ rest)
      with ((done ++ [px]) ++ todo ++ rest)
      by (rewrite <- (app_assoc done); reflexivity).
    rewrite (app_assoc out).
    replace (len (pixel_bytes done) + 4)
      with (4 * Z.of_nat (length (done ++ [px])))
      by (rewrite <- Hidx, length_app; cbn [length]; lia).
    rewrite IH.
    + f_equal. f_equal.
      * change (pixel_bytes (multiplied (px :: todo)))
          with (bytes_of_pixel (on_pixel MultiplyAlphaBytes px)
                ++ pixel_bytes (multiplied todo)).
        rewrite <- !app_assoc. reflexivity.
      * rewrite length_app. cbn [length]. lia.
    + rewrite !length_app, length_bytes_of_pixel. cbn [length]. lia.
Qed.

(** One row of [w] pixels. *)
Lemma convert_row_run (w : nat) (stride : Z) (row done rest : list pixel)
    (out tail : list Z) :
  length row = w ->
  length out = (4 * length done)%nat ->
  convert_row (pixel_bytes (done ++ row ++ rest)) stride (Z.of_nat w)
    (out ++ replicate (4 * length row) 0 ++ tail, 4 * Z.of_nat (length done))
  = Ret (out ++ pixel_bytes (multiplied row) ++ tail,
         4 * Z.of_nat (length done) + stride).
Proof.
  intros Hrow Hout. unfold convert_row, for_range.
  rewrite Nat2Z.id, <- Hrow.
  rewrite convert_pixels_run by exact Hout.
  reflexivity.
Qed.

(** The outer loop over [rows] rows of [w] pixels, stride [4 * w]. *)
Lemma convert_rows_run (w : nat) (rows : nat) :
  forall (todo done rest : list pixel) (out tail : list Z) (i : Z),
    length todo = (w * rows)%nat ->
    length out = (4 * length done)%nat ->
    for_loop rows i
      (fun _ => convert_row (pixel_bytes (done ++ todo ++ rest))
                  (4 * Z.of_nat w) (Z.of_nat w))
      (out ++ replicate (4 * length todo) 0 ++ tail, 4 * Z.of_nat (length done))
    = Ret (out ++ pixel_bytes (multiplied todo) ++ tail,
           4 * Z.of_nat (length done + length todo)).
Proof.
  induction rows as [|rows IH]; intros todo done rest out tail i Htodo Hout.
  - rewrite Nat.mul_0_r in Htodo. apply nil_length_inv in Htodo. subst todo.
    cbn [for_loop length]. rewrite Nat.mul_0_r, Nat.add_0_r. reflexivity.
  - cbn [for_loop].
    assert (Hrow : length (take w todo) = w)
      by (rewrite length_take; lia).
    assert (Hmore : length (drop w todo) = (w * rows)%nat)
      by (rewrite length_drop; lia).
    pose proof (take_drop w todo) as Htd.
    revert Hrow Hmore Htd.
    generalize (take w todo) as row, (drop w todo) as more.
    intros row more Hrow Hmore Htd. subst todo. clear Htodo.
    replace (done ++ (row ++ more) ++ rest)
      with (done ++ row ++ more ++ rest)
      by (rewrite <- (app_assoc row); reflexivity).
    replace (replicate (4 * length (row ++ more)) 0 ++ tail)
      with (replicate (4 * length row) 0
            ++ replicate (4 * length more) 0 ++ tail)
      by (rewrite length_app, Nat.mul_add_distr_l, replicate_add,
            <- app_assoc; reflexivity).
    rewrite convert_row_run by assumption.
    cbn [mbind result_bind].
    replace (done ++ row ++ more ++ rest)
      with ((done ++ row) ++ more ++ rest)
      by (rewrite <- (app_assoc done); reflexivity).
    rewrite (app_assoc out).
    replace (4 * Z.of_nat (length done) + 4 * Z.of_nat w)
      with (4 * Z.of_nat (length (done ++ row)))
      by (rewrite length_app; lia).
    rewrite IH.
    + f_equal. f_equal.
      * unfold multiplied. rewrite map_app, pixel_bytes_app.
        rewrite <- !app_assoc. reflexivity.
      * rewrite !length_app. lia.
    + exact Hmore.
    + rewrite !length_app, length_pixel_bytes.
      unfold multiplied. rewrite length_map. lia.
Qed.

(** On a buffer of whole pixels without padding the conversion returns the
    multiplied pixels. *)
Lemma convert_rows_tight (ps : list pixel) (w h : Z) :
  0 <= w -> 0 <= h -> Z.of_nat (length ps) = w * h ->
  convert_rows (pixel_bytes ps) (4 * w) w h
    (replicate (Z.to_nat (w * h * 4)) 0)
  = Ret (pixel_bytes (multiplied ps)).
Proof.
  intros Hw Hh Hlen. unfold convert_rows, for_range.
  pose proof (convert_rows_run (Z.to_nat w) (Z.to_nat h) ps [] [] [] [] 0) as H.
  cbn [app length Nat.add] in H.
  rewrite !app_nil_r in H. rewrite Z2Nat.id in H by lia.
  replace (Z.to_nat (w * h * 4)) with (4 * length ps)%nat by lia.
  change (4 * Z.of_nat 0) with 0 in H.
  rewrite H; [reflexivity | nia | reflexivity].
Qed.

(** A store keeps the length of the buffer. *)
Lemma store_length (s : list Z) (i v : Z) (s' : list Z) :
  store s i v = Ret s' -> length s' = length s.
Proof.
  unfold store. destruct (_ && _); [|discriminate].
  intros [= <-]. apply length_insert.
Qed.

Lemma store_overrun (s : list Z) (i v : Z) :
  len s <= i -> store s i v = Panic.
Proof.
  intros H. unfold store.
  replace (i <? len s) with false by (symmetry; apply Z.ltb_ge; lia).
  rewrite andb_false_r. reflexivity.
Qed.

Lemma index_shape (s : list Z) (i : Z) :
  index s i = Panic \/ exists v, index s i = Ret v.
Proof. unfold index. destruct (_ && _); eauto. Qed.

Lemma store_shape (s : list Z) (i v : Z) :
  store s i v = Panic
  \/ exists s', store s i v = Ret s' /\ length s' = length s.
Proof.
  destruct (store s i v) as [s'| |] eqn:E; eauto using store_length.
  unfold store in E. destruct (_ && _); discriminate.
Qed.

(** A round panics or returns a buffer of the same length and the next
    index. *)
Lemma convert_pixel_shape (iPix pb : list Z) (idx : Z) :
  convert_pixel iPix (pb, idx) = Panic
  \/ exists pb', convert_pixel iPix (pb, idx) = Ret (pb', idx + 4)
                 /\ length pb' = length pb.
Proof.
  unfold convert_pixel.
  destruct (index_shape iPix idx) as [-> | [cR ->]]; [left; reflexivity|].
  destruct (index_shape iPix (idx + 1)) as [-> | [cG ->]]; [left; reflexivity|].
  destruct (index_shape iPix (idx + 2)) as [-> | [cB ->]]; [left; reflexivity|].
  destruct (index_shape iPix (idx + 3)) as [-> | [cA ->]]; [left; reflexivity|].
  cbn [mbind result_bind].
  destruct (NRGBA_RGBA cR cG cB cA) as [[[r g] b] a].
  destruct (store_shape pb idx (byte_of (Z.shiftr r 8)))
    as [-> | (p1 & -> & H1)]; [left; reflexivity|].
  cbn [mbind result_bind].
  destruct (store_shape p1 (idx + 1) (byte_of (Z.shiftr g 8)))
    as [-> | (p2 & -> & H2)]; [left; reflexivity|].
  cbn [mbind result_bind].
  destruct (store_shape p2 (idx + 2) (byte_of (Z.shiftr b 8)))
    as [-> | (p3 & -> & H3)]; [left; reflexivity|].
  cbn [mbind result_bind].
  destruct (store_shape p3 (idx + 3) (byte_of (Z.shiftr a 8)))
    as [-> | (p4 & -> & H4)]; [left; reflexivity|].
  cbn [mbind result_bind].
  right. exists p4. split; [reflexivity | congruence].
Qed.

(** A round whose last byte lies beyond the buffer panics. *)
Lemma convert_pixel_overrun (iPix pb : list Z) (idx : Z) :
  len pb <= idx + 3 -> convert_pixel iPix (pb, idx) = Panic.
Proof.
  intros Hover. unfold convert_pixel.
  destruct (index_shape iPix idx) as [-> | [cR ->]]; [reflexivity|].
  destruct (index_shape iPix (idx + 1)) as [-> | [cG ->]]; [reflexivity|].
  destruct (index_shape iPix (idx + 2)) as [-> | [cB ->]]; [reflexivity|].
  destruct (index_shape iPix (idx + 3)) as [-> | [cA ->]]; [reflexivity|].
  cbn [mbind result_bind].
  destruct (NRGBA_RGBA cR cG cB cA) as [[[r g] b] a].
  destruct (store_shape pb idx (byte_of (Z.shiftr r 8)))
    as [-> | (p1 & -> & H1)]; [reflexivity|].
  cbn [mbind result_bind].
  destruct (store_shape p1 (idx + 1) (byte_of (Z.shiftr g 8)))
    as [-> | (p2 & -> & H2)]; [reflexivity|].
  cbn [mbind result_bind].
  destruct (store_shape p2 (idx + 2) (byte_of (Z.shiftr b 8)))
    as [-> | (p3 & -> & H3)]; [reflexivity|].
  cbn [mbind result_bind].
  rewrite store_overrun; [reflexivity|].
  unfold len in *. lia.
Qed.

(** The last round of a counted loop. *)
Lemma for_loop_last {St : Type} (body : Z -> St -> result St) (k : nat) :
  forall (i : Z) (s : St),
    for_loop (S k) i body s
    = (s' ← for_loop k i body s; body (i + Z.of_nat k) s').
Proof.
  induction k as [|k IH]; intros i s.
  - cbn [for_loop mbind result_bind]. rewrite Z.add_0_r.
    destruct (body i s); reflexivity.
  - change (for_loop (S (S k)) i body s)
      with (s1 ← body i s; for_loop (S k) (i + 1) body s1).
    change (for_loop (S k) i body s)
      with (s1 ← body i s; for_loop k (i + 1) body s1).
    destruct (body i s) as [s1| |]; cbn [mbind result_bind];
      [|reflexivity|reflexivity].
    rewrite IH.
    replace (i + 1 + Z.of_nat k) with (i + Z.of_nat (S k)) by lia.
    reflexivity.
Qed.

Lemma convert_pixels_shape (iPix : list Z) (k : nat) :
  forall (i : Z) (pb : list Z) (idx : Z),
    for_loop k i (fun _ => convert_pixel iPix) (pb, idx) = Panic
    \/ exists pb',
         for_loop k i (fun _ => convert_pixel iPix) (pb, idx)
         = Ret (pb', idx + 4 * Z.of_nat k)
         /\ length pb' = length pb.
Proof.
  induction k as [|k IH]; intros i pb idx.
  - right. exists pb. cbn [for_loop]. rewrite Z.add_0_r. auto.
  - cbn [for_loop].
    destruct (convert_pixel_shape iPix pb idx) as [-> | (p1 & -> & H1)];
      [left; reflexivity|].
    cbn [mbind result_bind].
    destruct (IH (i + 1) p1 (idx + 4)) as [-> | (p2 & -> & H2)];
      [left; reflexivity|].
    right. exists p2. split; [f_equal; f_equal; lia | congruence].
Qed.

Lemma convert_row_shape (iPix : list Z) (stride width : Z)
    (pb : list Z) (rowIdx : Z) :
  convert_row iPix stride width (pb, rowIdx) = Panic
  \/ exists pb',
       convert_row iPix stride width (pb, rowIdx) = Ret (pb', rowIdx + stride)
       /\ length pb' = length pb.
Proof.
  unfold convert_row, for_range.
  destruct (convert_pixels_shape iPix (Z.to_nat width) 0 pb rowIdx)
    as [-> | (p1 & -> & H1)]; [left; reflexivity|].
  right. exists p1. split; [reflexivity | exact H1].
Qed.

Lemma convert_rows_shape (iPix : list Z) (stride width : Z) (k : nat) :
  forall (i : Z) (pb : list Z) (rowIdx : Z),
    for_loop k i (fun _ => convert_row iPix stride width) (pb, rowIdx) = Panic
    \/ exists pb',
         for_loop k i (fun _ => convert_row iPix stride width) (pb, rowIdx)
         = Ret (pb', rowIdx + Z.of_nat k * stride)
         /\ length pb' = length pb.
Proof.
  induction k as [|k IH]; intros i pb rowIdx.
  - right. exists pb. cbn [for_loop]. split; [f_equal; f_equal; lia | auto].
  - cbn [for_loop].
    destruct (convert_row_shape iPix stride width pb rowIdx)
      as [-> | (p1 & -> & H1)]; [left; reflexivity|].
    cbn [mbind result_bind].
    destruct (IH (i + 1) p1 (rowIdx + stride)) as [-> | (p2 & -> & H2)];
      [left; reflexivity|].
    right. exists p2. split; [f_equal; f_equal; lia | congruence].
Qed.

(** With rows further apart than their pixels, the last pixel of the last
    of two or more rows lies beyond the [width*height*4] bytes. *)
Lemma convert_rows_padded (iPix : list Z) (stride w h : Z) (pb : list Z) :
  1 <= w -> 2 <= h -> 4 * w < stride -> len pb = w * h * 4 ->
  convert_rows iPix stride w h pb = Panic.
Proof.
  intros Hw Hh Hs Hlen. unfold convert_rows, for_range.
  replace (Z.to_nat h) with (S (Z.to_nat (h - 1))) by lia.
  rewrite for_loop_last.
  destruct (convert_rows_shape iPix stride w (Z.to_nat (h - 1)) 0 pb 0)
    as [-> | (p1 & -> & H1)]; [reflexivity|].
  cbn [mbind result_bind].
  unfold convert_row, for_range.
  replace (Z.to_nat w) with (S (Z.to_nat (w - 1))) by lia.
  rewrite for_loop_last.
  destruct (convert_pixels_shape iPix (Z.to_nat (w - 1)) 0 p1
              (0 + Z.of_nat (Z.to_nat (h - 1)) * stride))
    as [-> | (p2 & -> & H2)]; [reflexivity|].
  cbn [mbind result_bind].
  rewrite convert_pixel_overrun; [reflexivity|].
  unfold len in *. rewrite H2, H1, Hlen.
  rewrite !Z2Nat.id by lia. nia.
Qed.

Context `{L : ImageLib}.

(** [NewEImageFromImage] on an [*image.NRGBA] without padding
    ([Stride = 4 * width], the buffer holding the [width * height] pixels
    [ps]): the new ebiten image is handed, by [WritePixels], the pixels
    after [MultiplyAlphaBytes] on each, in the same order. *)
Theorem NewEImageFromImage_multiplies_NRGBA
    (p : PixImage) (ps : list pixel) (mipmaps : bool) (e0 : EImage) :
  let w := Dx (PRect p) in
  let h := Dy (PRect p) in
  0 <= w -> 0 <= h ->
  Stride p = 4 * w ->
  Pix p = pixel_bytes ps -> Z.of_nat (length ps) = w * h ->
  eNewImage (Rect 0 0 w h) (negb mipmaps) = Ret e0 ->
  NewEImageFromImage (NRGBAImg (Some p)) mipmaps
  = eWritePixels e0 (pixel_bytes (multiplied ps)).
Proof.
  intros w h Hw Hh Hs Hpix Hlen Hnew.
  unfold NewEImageFromImage. cbn [Bounds mbind result_bind].
  fold (Dx (PRect p)) (Dy (PRect p)). fold w h.
  rewrite Hnew. cbn [mbind result_bind].
  unfold make_bytes.
  replace (w * h * 4 <? 0) with false by (symmetry; apply Z.ltb_ge; nia).
  cbn [mbind result_bind].
  rewrite Hs, Hpix, convert_rows_tight by assumption.
  reflexivity.
Qed.

(** [NewEImageFromImage] on an [*image.NRGBA] of two or more rows whose
    rows are further apart than their [4 * width] bytes panics: the
    destination index advances by the source's stride. *)
Theorem NewEImageFromImage_padded_NRGBA_panics
    (p : PixImage) (mipmaps : bool) (e0 : EImage) :
  let w := Dx (PRect p) in
  let h := Dy (PRect p) in
  1 <= w -> 2 <= h -> 4 * w < Stride p ->
  eNewImage (Rect 0 0 w h) (negb mipmaps) = Ret e0 ->
  NewEImageFromImage (NRGBAImg (Some p)) mipmaps = Panic.
Proof.
  intros w h Hw Hh Hs Hnew.
  unfold NewEImageFromImage. cbn [Bounds mbind result_bind].
  fold (Dx (PRect p)) (Dy (PRect p)). fold w h.
  rewrite Hnew. cbn [mbind result_bind].
  unfold make_bytes.
  replace (w * h * 4 <? 0) with false by (symmetry; apply Z.ltb_ge; nia).
  cbn [mbind result_bind].
  rewrite convert_rows_padded; try assumption; [reflexivity|].
  unfold len. rewrite length_replicate. nia.
Qed.

End EbitenConversion.

Section EbitenConversionExamples.
Import Color Image EbitenCopy.

Lemma NewEImageFromImage_multiplies_NRGBA_witness :
  NewEImageFromImage (L := sample_lib) (NRGBAImg (Some tight_nrgba)) false
  = eWritePixels (ImageLib := sample_lib)
      (mkPixImage (replicate 8 0) 8 (Rect 0 0 2 1))
      (pixel_bytes (multiplied straight_pixels)).
Proof.
  apply (NewEImageFromImage_multiplies_NRGBA (L := sample_lib) tight_nrgba
           straight_pixels false);
    first [ reflexivity
          | vm_compute; first [reflexivity | intros H; discriminate H] ].
Defined.

Lemma NewEImageFromImage_padded_NRGBA_panics_witness :
  NewEImageFromImage (L := sample_lib) (NRGBAImg (Some padded_nrgba)) true
  = Panic.
Proof.
  apply (NewEImageFromImage_padded_NRGBA_panics (L := sample_lib)
           padded_nrgba true (mkPixImage (replicate 8 0) 4 (Rect 0 0 1 2)));
    first [ reflexivity
          | vm_compute; first [reflexivity | intros H; discriminate H] ].
Defined.

End EbitenConversionExamples.

(** ** SlowImageCopy, pixel by pixel *)

Section PixelByPixel.
Import Color Image EbitenCopy PixelCopy.
Context `{L : ImageLib}.

(** A counted loop whose rounds return and keep an invariant returns, and
    the invariant holds at the end. *)
Lemma for_loop_invariant {St : Type} (body : Z -> St -> result St)
    (Inv : Z -> St -> Prop) :
  forall (count : nat) (i : Z) (s : St),
    Inv i s ->
    (forall j t, i <= j < i + Z.of_nat count -> Inv j t ->
       exists t', body j t = Ret t' /\ Inv (j + 1) t') ->
    exists s', for_loop count i body s = Ret s'
               /\ Inv (i + Z.of_nat count) s'.
Proof.
  induction count as [|k IH]; intros i s Hi Hstep.
  - exists s. cbn [for_loop]. rewrite Z.add_0_r. auto.
  - cbn [for_loop].
    destruct (Hstep i s ltac:(lia) Hi) as (s1 & -> & H1).
    cbn [mbind result_bind].
    destruct (IH (i + 1) s1 H1) as (s2 & -> & H2).
    + intros j t Hj. apply Hstep. lia.
    + exists s2. split; [reflexivity|].
      replace (i + Z.of_nat (S k)) with (i + 1 + Z.of_nat k) by lia.
      exact H2.
Qed.

(** The double loop on a destination with a [get] that reads what [set]
    wrote: every pixel of the window holds the source's pixel, and no
    other pixel changed. *)
Lemma copy_pixels_spec {T : Type} (set : T -> Z -> Z -> Color -> T)
    (get : T -> Z -> Z -> Color) (ok : T -> Prop) (conv : Color -> Color)
    (iImg : Image) (left top w h : Z) (o : T) :
  (forall p x y c, ok p -> ok (set p x y c)) ->
  (forall p x y x' y' c, ok p -> 0 <= x < w -> 0 <= y < h ->
     At iImg x' y' = Ret c -> get (set p x y c) x y = conv c) ->
  (forall p x y c x' y', ok p -> (x, y) <> (x', y') ->
     get (set p x y c) x' y' = get p x' y') ->
  ok o -> non_nil iImg ->
  exists o',
    copy_pixels set iImg left top w h o = Ret o'
    /\ ok o'
    /\ (forall x y, 0 <= x < w -> 0 <= y < h ->
          exists c, At iImg (x + left) (y + top) = Ret c
                    /\ get o' x y = conv c)
    /\ (forall x y, ~ (0 <= x < w /\ 0 <= y < h) -> get o' x y = get o x y).
Proof.
  intros Hok Hsame Hother Ho Hi. unfold copy_pixels, for_range.
  pose (Out := fun (j : Z) (s : T) =>
    ok s
    /\ (forall x y, 0 <= x < w -> 0 <= y < j ->
          exists c, At iImg (x + left) (y + top) = Ret c
                    /\ get s x y = conv c)
    /\ (forall x y, ~ (0 <= x < w /\ 0 <= y < j) -> get s x y = get o x y)).
  destruct (for_loop_invariant
              (fun y => for_loop (Z.to_nat w) 0
                 (fun x o0 => c ← At iImg (x + left) (y + top);
                              Ret (set o0 x y c)))
              Out (Z.to_nat h) 0 o) as (o' & Hrun & Ho' & Hin & Hout).
  - split; [exact Ho|]. split; [intros x y _ Hy; lia | reflexivity].
  - intros j s Hj (Hs & Hdone & Hframe).
    pose (Inn := fun (k : Z) (t : T) =>
      ok t
      /\ (forall x, 0 <= x < k ->
            exists c, At iImg (x + left) (j + top) = Ret c
                      /\ get t x j = conv c)
      /\ (forall x y, ~ (y = j /\ 0 <= x < k) -> get t x y = get s x y)).
    destruct (for_loop_invariant
                (fun x o0 => c ← At iImg (x + left) (j + top);
                             Ret (set o0 x j c))
                Inn (Z.to_nat w) 0 s) as (s' & Hrow & Hs' & Hrowin & Hrowout).
    + split; [exact Hs|]. split; [intros x Hx; lia | reflexivity].
    + intros k t Hk (Ht & Hleft & Hrest).
      destruct (At_returns iImg (k + left) (j + top) Hi) as [c Hc].
      rewrite Hc. cbn [mbind result_bind].
      exists (set t k j c). split; [reflexivity|].
      split; [apply Hok; exact Ht|]. split.
      * intros x Hx. destruct (Z.eq_dec x k) as [-> | Hne].
        -- exists c. split; [exact Hc|].
           apply (Hsame t k j (k + left) (j + top) c Ht); [lia | lia | exact Hc].
        -- destruct (Hleft x ltac:(lia)) as (c' & Hc' & Hget).
           exists c'. split; [exact Hc'|].
           rewrite Hother by (exact Ht || (intros [=]; lia)).
           exact Hget.
      * intros x y Hxy.
        rewrite Hother by (exact Ht || (intros [=]; lia)).
        apply Hrest. lia.
    + exists s'. split; [exact Hrow|].
      split; [exact Hs'|]. split.
      * intros x y Hx Hy. destruct (Z.eq_dec y j) as [-> | Hne].
        -- apply Hrowin. lia.
        -- destruct (Hdone x y Hx ltac:(lia)) as (c & Hc & Hget).
           exists c. split; [exact Hc|].
           rewrite Hrowout by lia. exact Hget.
      * intros x y Hxy. rewrite Hrowout by lia. apply Hframe. lia.
  - exists o'. split; [exact Hrun|]. split; [exact Ho'|]. split.
    + intros x y Hx Hy. apply Hin; lia.
    + intros x y Hxy. apply Hout. lia.
Qed.

Lemma in_rect_origin (w h x y : Z) :
  0 <= x < w -> 0 <= y < h -> in_rect (Rect 0 0 w h) x y = true.
Proof.
  intros Hx Hy. rewrite Rect_origin by lia. unfold in_rect. cbn.
  rewrite !andb_true_iff, !Z.leb_le, !Z.ltb_lt. lia.
Qed.

(** [SlowImageCopy] into an [*image.RGBA] at the origin, over a library
    whose [At] reads, inside an image's bounds, the colour [Set] stored
    there (converted by [conv]) and whose [Set] leaves the other pixels
    and the bounds alone: the call returns without error, every pixel
    [(x, y)] of the destination holds the source's pixel at
    [(x + left, y + top)], and no pixel outside the destination's
    [width x height] changed. *)
Theorem SlowImageCopy_copies_every_pixel
    (ok : PixImage -> Prop) (conv : Color -> Color)
    (o : PixImage) (iImg : Image) (w h : Z) :
  (forall p x y c,
     ok p -> ok (rgbaSet p x y c) /\ PRect (rgbaSet p x y c) = PRect p) ->
  (forall p x y x' y' c,
     ok p -> in_rect (PRect p) x y = true -> At iImg x' y' = Ret c ->
     rgbaAt (rgbaSet p x y c) x y = conv c) ->
  (forall p x y c x' y',
     ok p -> (x, y) <> (x', y') ->
     rgbaAt (rgbaSet p x y c) x' y' = rgbaAt p x' y') ->
  ok o -> PRect o = Rect 0 0 w h -> 0 <= w -> 0 <= h -> non_nil iImg ->
  exists o' ib,
    Bounds iImg = Ret ib
    /\ SlowImageCopy (RGBAImg (Some o)) iImg = Ret (RGBAImg (Some o'), None)
    /\ (forall x y, 0 <= x < w -> 0 <= y < h ->
          exists c, At iImg (x + X (Min_ ib)) (y + Y (Min_ ib)) = Ret c
                    /\ rgbaAt o' x y = conv c)
    /\ (forall x y, ~ (0 <= x < w /\ 0 <= y < h) ->
          rgbaAt o' x y = rgbaAt o x y).
Proof.
  intros Hok Hsame Hother Ho Hrect Hw Hh Hi.
  destruct (Bounds_returns iImg Hi) as [ib Hib].
  destruct (copy_pixels_spec rgbaSet rgbaAt
              (fun p => ok p /\ PRect p = Rect 0 0 w h) conv iImg
              (X (Min_ ib)) (Y (Min_ ib)) w h o)
    as (o' & Hrun & _ & Hin & Hout).
  - intros p x y c [Hp Hr]. destruct (Hok p x y c Hp) as [Hp' Hr'].
    split; [exact Hp' | congruence].
  - intros p x y x' y' c [Hp Hr] Hx Hy Hc.
    apply (Hsame p x y x' y' c Hp); [|exact Hc].
    rewrite Hr. apply in_rect_origin; assumption.
  - intros p x y c x' y' [Hp _] Hne. apply Hother; assumption.
  - split; assumption.
  - exact Hi.
  - exists o', ib. split; [exact Hib|]. split; [|split; assumption].
    unfold SlowImageCopy. rewrite Hib. cbn [mbind result_bind Bounds].
    rewrite Hrect, Rect_origin by assumption.
    unfold Dx, Dy. cbn [X Y Min_ Max_].
    rewrite !Z.sub_0_r, Hrun. reflexivity.
Qed.

(** [NewEImageFromImage] on an image of another type, over a library
    whose new ebiten image has the bounds asked for and whose [At] reads,
    inside the bounds, the colour [Set] stored there (converted by
    [conv]): the call returns an ebiten image whose pixel [(x, y)] holds
    the source's pixel at [(x + left, y + top)], for every pixel of the
    source. *)
Theorem NewEImageFromImage_other_type_pixels
    (ok : EImage -> Prop) (conv : Color -> Color)
    (o : OtherImage) (mipmaps : bool) (e0 : EImage) :
  let w := Dx (obounds o) in
  let h := Dy (obounds o) in
  let left := X (Min_ (obounds o)) in
  let top := Y (Min_ (obounds o)) in
  (forall p x y c,
     ok p -> ok (eSet p x y c) /\ eBounds (eSet p x y c) = eBounds p) ->
  (forall p x y x' y',
     ok p -> in_rect (eBounds p) x y = true ->
     eAt (eSet p x y (oat o x' y')) x y = conv (oat o x' y')) ->
  (forall p x y c x' y',
     ok p -> (x, y) <> (x', y') -> eAt (eSet p x y c) x' y' = eAt p x' y') ->
  0 <= w -> 0 <= h ->
  eNewImage (Rect 0 0 w h) (negb mipmaps) = Ret e0 ->
  ok e0 -> eBounds e0 = Rect 0 0 w h ->
  exists e,
    NewEImageFromImage (OtherImg o) mipmaps = Ret e
    /\ forall x y, 0 <= x < w -> 0 <= y < h ->
         eAt e x y = conv (oat o (x + left) (y + top)).
Proof.
  intros w h left top Hok Hsame Hother Hw Hh Hnew Ho Hrect.
  destruct (copy_pixels_spec eSet eAt
              (fun p => ok p /\ eBounds p = Rect 0 0 w h) conv (OtherImg o)
              left top w h e0)
    as (e & Hrun & _ & Hin & _).
  - intros p x y c [Hp Hr]. destruct (Hok p x y c Hp) as [Hp' Hr'].
    split; [exact Hp' | congruence].
  - intros p x y x' y' c [Hp Hr] Hx Hy [= <-].
    apply (Hsame p x y x' y' Hp).
    rewrite Hr. apply in_rect_origin; assumption.
  - intros p x y c x' y' [Hp _] Hne. apply Hother; assumption.
  - split; assumption.
  - exact I.
  - exists e. split.
    + unfold NewEImageFromImage. cbn [Bounds mbind result_bind].
      fold (Dx (obounds o)) (Dy (obounds o)). fold w h. rewrite Hnew.
      cbn [mbind result_bind].
      unfold SlowImageCopy. cbn [Bounds mbind result_bind].
      rewrite Hrect, Rect_origin by assumption.
      unfold Dx at 1, Dy at 1. cbn [X Y Min_ Max_].
      rewrite !Z.sub_0_r. fold left top. rewrite Hrun. reflexivity.
    + intros x y Hx Hy. destruct (Hin x y Hx Hy) as (c & [= <-] & Hget).
      exact Hget.
Qed.

End PixelByPixel.

Section PixelByPixelExamples.
Import Color Image EbitenCopy PixelCopy.

Lemma sample_ok_inv (p : PixImage) :
  sample_ok p ->
  exists a0 a1 a2 a3 a4 a5 a6 a7,
    p = mkPixImage [a0; a1; a2; a3; a4; a5; a6; a7] 8 (Rect 0 0 2 1).
Proof.
  destruct p as [pix st r]. unfold sample_ok. cbn [PRect Stride Pix].
  intros (-> & -> & Hlen).
  do 8 (destruct pix as [|? pix]; [discriminate Hlen|]).
  destruct pix; [|discriminate Hlen].
  do 8 eexists. reflexivity.
Qed.

Lemma in_rect_sample (x y : Z) :
  in_rect (Rect 0 0 2 1) x y = true -> (x = 0 \/ x = 1) /\ y = 0.
Proof.
  unfold in_rect. cbn.
  rewrite !andb_true_iff, !Z.leb_le, !Z.ltb_lt. lia.
Qed.

Lemma sample_Set_ok (p : PixImage) (x y : Z) (c : Color) :
  sample_ok p ->
  sample_ok (sample_Set p x y c) /\ PRect (sample_Set p x y c) = PRect p.
Proof.
  intros (Hr & Hs & Hlen). unfold sample_Set.
  destruct (in_rect (PRect p) x y); [|repeat split; assumption].
  destruct (Color_RGBA c) as [[[[r g] b] a]| |]; [|repeat split; assumption..].
  unfold sample_ok. cbn [with_Pix PRect Stride Pix].
  rewrite !length_insert. repeat split; assumption.
Qed.

Lemma sample_Set_At_same (p : PixImage) (x y : Z) (c : Color) (q : pixel) :
  sample_ok p -> in_rect (PRect p) x y = true -> Color_RGBA c = Ret q ->
  sample_At RGBA (sample_Set p x y c) x y = sample_conv c.
Proof.
  intros Hp Hin Hc.
  destruct (sample_ok_inv p Hp) as (a0 & a1 & a2 & a3 & a4 & a5 & a6 & a7 & ->).
  cbn [PRect] in Hin. destruct (in_rect_sample x y Hin) as [[-> | ->] ->];
    unfold sample_Set, sample_conv; cbn [PRect]; rewrite Hin, Hc;
    destruct q as [[[r g] b] a]; reflexivity.
Qed.

Lemma sample_Set_At_other (p : PixImage) (x y : Z) (c : Color) (x' y' : Z) :
  sample_ok p -> (x, y) <> (x', y') ->
  sample_At RGBA (sample_Set p x y c) x' y' = sample_At RGBA p x' y'.
Proof.
  intros Hp Hne.
  destruct (sample_ok_inv p Hp) as (a0 & a1 & a2 & a3 & a4 & a5 & a6 & a7 & ->).
  unfold sample_Set. cbn [PRect].
  destruct (in_rect (Rect 0 0 2 1) x y) eqn:Hin; [|reflexivity].
  destruct (Color_RGBA c) as [[[[r g] b] a]| |]; [|reflexivity..].
  unfold sample_At. cbn [with_Pix PRect Stride Pix].
  destruct (in_rect (Rect 0 0 2 1) x' y') eqn:Hin'; [|reflexivity].
  destruct (in_rect_sample x y Hin) as [[-> | ->] ->];
    destruct (in_rect_sample x' y' Hin') as [[-> | ->] ->];
    first [ contradiction Hne; reflexivity | reflexivity ].
Qed.

Lemma SlowImageCopy_copies_every_pixel_witness :
  exists o' ib,
    Bounds (L := sample_lib) (OtherImg two_pixels) = Ret ib
    /\ SlowImageCopy (L := sample_lib) (RGBAImg (Some blank_rgba))
         (OtherImg two_pixels)
       = Ret (RGBAImg (Some o'), None)
    /\ (forall x y, 0 <= x < 2 -> 0 <= y < 1 ->
          exists c, At (L := sample_lib) (OtherImg two_pixels)
                      (x + X (Min_ ib)) (y + Y (Min_ ib)) = Ret c
                    /\ rgbaAt (ImageLib := sample_lib) o' x y = sample_conv c)
    /\ (forall x y, ~ (0 <= x < 2 /\ 0 <= y < 1) ->
          rgbaAt (ImageLib := sample_lib) o' x y
          = rgbaAt (ImageLib := sample_lib) blank_rgba x y).
Proof.
  apply (SlowImageCopy_copies_every_pixel (L := sample_lib)
           sample_ok sample_conv blank_rgba (OtherImg two_pixels) 2 1).
  - intros p x y c Hp. apply sample_Set_ok. exact Hp.
  - intros p x y x' y' c Hp Hin Hc. injection Hc as <-.
    apply (sample_Set_At_same p x y (Val (RGBA x' y' 7 255))
             (val_RGBA (RGBA x' y' 7 255)) Hp Hin eq_refl).
  - intros p x y c x' y' Hp Hne. apply sample_Set_At_other; assumption.
  - repeat split.
  - reflexivity.
  - lia.
  - lia.
  - exact I.
Defined.

Lemma NewEImageFromImage_other_type_pixels_witness :
  exists e,
    NewEImageFromImage (L := sample_lib) (OtherImg two_pixels) true = Ret e
    /\ forall x y, 0 <= x < 2 -> 0 <= y < 1 ->
         eAt (ImageLib := sample_lib) e x y
         = sample_conv (oat two_pixels (x + 0) (y + 0)).
Proof.
  apply (NewEImageFromImage_other_type_pixels (L := sample_lib)
           sample_ok sample_conv two_pixels true blank_rgba).
  - intros p x y c Hp. apply sample_Set_ok. exact Hp.
  - intros p x y x' y' Hp Hin.
    apply (sample_Set_At_same p x y (Val (RGBA x' y' 7 255))
             (val_RGBA (RGBA x' y' 7 255)) Hp Hin eq_refl).
  - intros p x y c x' y' Hp Hne. apply sample_Set_At_other; assumption.
  - vm_compute. intros H. discriminate H.
  - vm_compute. intros H. discriminate H.
  - reflexivity.
  - repeat split.
  - reflexivity.
Defined.

End PixelByPixelExamples.
